(** * benchmarkff: the outlier-parameter analysis and the minimizer driver

    A shallow embedding of [03_analysis/tailed_parameters.py] and of the
    driver of [02_calc/minimize_ffs.py].

    - Python floats are IEEE binary64 numbers: Rocq's primitive [float].
    - An [OrderedDict] (and a [dict], whose iteration order is the insertion
      order as well) is an association list with distinct keys; assigning to
      a key that is present replaces the value and keeps the position.
    - A raised exception is the [Raise] case of the result type [res].
    - The chemistry toolkits (OpenEye, openforcefield) and the pieces of the
      Python runtime that are not modelled bit for bit ([float] of a string,
      the iteration order of a [set]) are interfaces: type classes whose
      operations the program calls. *)

From Stdlib Require Import PrimFloat.
From Stdlib Require Uint63 OrderedTypeEx.
From Stdlib Require Import ZArith Ascii.
From stdpp Require Import base option list sorting strings gmap.

#[local] Set Warnings "-clear-no-such-hyp".

Local Open Scope string_scope.
Local Open Scope Z_scope.
Local Open Scope list_scope.

Abbreviation float := PrimFloat.float.

(* ================================================================== *)
(** * Definitions *)
(* ================================================================== *)

(** ** The Python runtime *)

(** The exceptions the two scripts can meet. [SystemExit] is what
    [argparse] ends with on a usage error, [OEFatal] is
    [oechem.OEThrow.Fatal]. *)
Inductive exn : Type :=
  | ValueError
  | KeyError
  | IndexError
  | TypeError
  | NameError
  | RuntimeError
  | FileNotFoundError
  | FileExistsError
  | UndefinedStereochemistryError
  | SystemExit
  | OEFatal
  | Exception.

Global Instance exn_eq_dec : EqDecision exn.
Proof. solve_decision. Defined.

(** The result of a computation that may raise. *)
Inductive res (A : Type) : Type :=
  | Ok (a : A)
  | Raise (e : exn).
Global Arguments Ok {A} a.
Global Arguments Raise {A} e.

Global Instance res_ret : MRet res := λ A a, Ok a.
Global Instance res_bind : MBind res := λ A B f m,
  match m with
  | Ok a => f a
  | Raise e => Raise e
  end.
Global Instance res_fmap : FMap res := λ A B f m,
  match m with
  | Ok a => Ok (f a)
  | Raise e => Raise e
  end.

(** [for x in l: acc = body(acc, x)], where the body may raise. *)
Fixpoint for_each {A S : Type} (body : S → A → res S) (l : list A) (acc : S)
  : res S :=
  match l with
  | [] => Ok acc
  | x :: l' => acc' ← body acc x; for_each body l' acc'
  end.

(** [[f(x) for x in l]], where [f] may raise. *)
Fixpoint map_res {A B : Type} (f : A → res B) (l : list A) : res (list B) :=
  match l with
  | [] => Ok []
  | x :: l' => y ← f x; ys ← map_res f l'; Ok (y :: ys)
  end.

(** *** Floats *)

(** [x >= y] on floats; false when either side is a NaN. *)
Definition float_ge (x y : float) : bool := PrimFloat.leb y x.

(** The conversion numpy applies to an [int64] before a true division. The
    program only converts lengths, which are not negative. *)
Definition float_of_Z (z : Z) : float :=
  if z <? 0 then PrimFloat.opp (PrimFloat.of_uint63 (Uint63.of_Z (- z)))
  else PrimFloat.of_uint63 (Uint63.of_Z z).

(** [x != 0] as [np.nonzero] tests it: a NaN is not zero, [-0.0] is. *)
Definition float_nonzero (x : float) : bool :=
  negb (PrimFloat.eqb x PrimFloat.zero).

(** *** Strings of digits *)

(** An ASCII decimal digit. Identifiers and tag values are ASCII here. *)
Definition is_digit (c : ascii) : bool :=
  let n := N_of_ascii c in ((48 <=? n) && (n <=? 57))%N.

Definition all_digits (s : string) : bool :=
  forallb is_digit (String.list_ascii_of_string s).

(** [s.isdigit()]: not empty and digits only. *)
Definition isdigit (s : string) : bool :=
  negb (bool_decide (s = "")) && all_digits s.

(** [int(s)] for a string of digits (base 10, any length). *)
Definition int_of_digits (s : string) : Z :=
  foldl (λ acc c, 10 * acc + (Z.of_N (N_of_ascii c) - 48)) 0
    (String.list_ascii_of_string s).

(** *** Sorting

    [list.sort] and [sorted] are stable and compare with [<] only. For a
    comparison that is a strict weak order the result does not depend on the
    algorithm; the model inserts the elements one by one, from the last to
    the first, each before the first element that is not smaller. The
    comparison may raise, and then so does the sort. *)
Section sorting.
Context {A K : Type} (key : A → K) (lt : K → K → res bool).

Fixpoint sort_insert (x : A) (l : list A) : res (list A) :=
  match l with
  | [] => Ok [x]
  | y :: l' =>
      b ← lt (key y) (key x);
      if b : bool then l'' ← sort_insert x l'; Ok (y :: l'')
      else Ok (x :: y :: l')
  end.

(** [sorted(l, key=key)] *)
Fixpoint py_sorted (l : list A) : res (list A) :=
  match l with
  | [] => Ok []
  | x :: l' => s ← py_sorted l'; sort_insert x s
  end.

(** [sorted(l, key=key, reverse=True)]: descending, and stable as well. *)
Definition py_sorted_reverse (l : list A) : res (list A) :=
  reverse <$> py_sorted (reverse l).
End sorting.

(** The same sort for a comparison that cannot raise. *)
Section sorting_total.
Context {A K : Type} (key : A → K) (ltb : K → K → bool).

Fixpoint insert_total (x : A) (l : list A) : list A :=
  match l with
  | [] => [x]
  | y :: l' =>
      if ltb (key y) (key x) then y :: insert_total x l' else x :: y :: l'
  end.

Fixpoint sort_total (l : list A) : list A :=
  match l with
  | [] => []
  | x :: l' => insert_total x (sort_total l')
  end.

(** [a] may stand before [b] in sorted order: [b] is not smaller. *)
Definition not_after (a b : A) : Prop := ltb (key b) (key a) = false.
End sorting_total.

(** [a < b] on [int]s that are not negative. *)
Definition int_lt (a b : nat) : res bool := Ok (a <? b)%nat.

(** *** Ordered dictionaries *)

(** [d[k] = v] *)
Fixpoint od_set {V : Type} (k : string) (v : V) (d : list (string * V))
  : list (string * V) :=
  match d with
  | [] => [(k, v)]
  | (k', v') :: d' =>
      if decide (k' = k) then (k', v) :: d' else (k', v') :: od_set k v d'
  end.

(** [d.get(k)] *)
Fixpoint od_get {V : Type} (k : string) (d : list (string * V)) : option V :=
  match d with
  | [] => None
  | (k', v') :: d' => if decide (k' = k) then Some v' else od_get k d'
  end.

(** [d.keys()], in iteration order. *)
Definition od_keys {V : Type} (d : list (string * V)) : list string := d.*1.

(** [for k, v in pairs: d[k] = v] *)
Definition od_extend {V : Type} (d : list (string * V))
    (pairs : list (string * V)) : list (string * V) :=
  foldl (λ d kv, od_set kv.1 kv.2 d) d pairs.

(** [dict(pairs)] *)
Definition py_dict {V : Type} (pairs : list (string * V)) : list (string * V) :=
  od_extend [] pairs.

(** The strings of [l] that are not in [seen] and have not occurred earlier
    in [l], in their order: the order in which a dictionary gets its keys. *)
Fixpoint first_seen (seen l : list string) : list string :=
  match l with
  | [] => []
  | k :: l' =>
      if bool_decide (k ∈ seen) then first_seen seen l'
      else k :: first_seen (k :: seen) l'
  end.

(** *** The parts of the runtime taken as an interface *)

Class Python := {
  (** [float(s)]; raises [ValueError] when [s] is not a number. *)
  py_float : string → res float;
  (** [list(set(keys))]: the elements of the set, each once, in an order the
      language does not fix. *)
  py_set_list : gset string → list string;
  py_set_list_perm : ∀ s, py_set_list s ≡ₚ elements s
}.

(** ** The OpenEye toolkit, as far as the analysis uses it *)

Class OEChem := {
  oemol : Type;
  oeconf : Type;
  (** an [OEGraphMol]: one structure, copied from a conformer *)
  oegraphmol : Type;
  GetConfs : oemol → list oeconf;
  (** the value of an SD tag; the empty string when the tag is absent *)
  OEGetSDData : oeconf → string → string;
  OEGraphMol : oeconf → oegraphmol
}.

(** ** numpy, as far as the analysis uses it

    A one-dimensional array is a list. *)

(** [enumerate(l)] *)
Definition py_enumerate {A : Type} (l : list A) : list (nat * A) := imap pair l.

(** [l[i]] *)
Definition py_getitem {A : Type} (l : list A) (i : nat) : res A :=
  match l !! i with
  | Some x => Ok x
  | None => Raise IndexError
  end.

(** [np.where(arr == v)[0]] *)
Definition np_where_eq (arr : list Z) (v : Z) : list nat :=
  (filter (λ p, p.2 = v) (py_enumerate arr)).*1.

(** [np.intersect1d(a, b)]: the sorted, unique values that are in both. *)
Definition np_intersect1d (a b : list nat) : list nat :=
  sort_total id Nat.ltb (remove_dups (filter (λ i, i ∈ b) a)).

(** [np.delete(arr, obj)]: [arr] without the elements at the indices [obj];
    an index out of bounds is an error. *)
Definition np_delete {A : Type} (arr : list A) (obj : list nat) : res (list A) :=
  if bool_decide (Forall (λ i, i < length arr)%nat obj) then
    Ok (filter (λ p, p.1 ∉ obj) (py_enumerate arr)).*2
  else Raise IndexError.

(** [np.nonzero(arr)[0]] *)
Definition np_nonzero (arr : list float) : list nat :=
  (filter (λ p, float_nonzero p.2 = true) (py_enumerate arr)).*1.

(** [arr[idx]] for an array of indices. *)
Definition np_take {A : Type} (arr : list A) (idx : list nat) : res (list A) :=
  map_res (py_getitem arr) idx.

(** [a / n] for an [int64] array and an [int]. Dividing by zero is a warning
    and gives an infinity or a NaN. *)
Definition np_true_divide (a : list Z) (n : Z) : list float :=
  (λ c, PrimFloat.div (float_of_Z c) (float_of_Z n)) <$> a.

(** [a / b] for two float arrays, with numpy's broadcasting of an array of
    one element. *)
Definition np_divide (a b : list float) : res (list float) :=
  if bool_decide (length a = length b) then Ok (zip_with PrimFloat.div a b)
  else
    match a, b with
    | [x], _ => Ok (PrimFloat.div x <$> b)
    | _, [y] => Ok ((λ x, PrimFloat.div x y) <$> a)
    | _, _ => Raise ValueError
    end.

(** [np.max(arr)]: an empty array is an error, a NaN wins. *)
Definition float_max (x y : float) : float :=
  if PrimFloat.is_nan x then x
  else if PrimFloat.is_nan y then y
  else if PrimFloat.ltb x y then y else x.

Definition np_max (arr : list float) : res float :=
  match arr with
  | [] => Raise ValueError
  | x :: arr' => Ok (foldl float_max x arr')
  end.

(** The elements of [l] at the positions where [mask] is true: the reading
    of a filtering step that the three aligned structures share. *)
Fixpoint select {A : Type} (mask : list bool) (l : list A) : list A :=
  match mask, l with
  | b :: mask', x :: l' => if b then x :: select mask' l' else select mask' l'
  | _, _ => []
  end.

(** ** The openforcefield toolkit, as far as the analysis uses it *)

Class OpenFF (graphmol : Type) := {
  (** an openforcefield [Molecule] *)
  off_molecule : Type;
  (** a loaded [ForceField] *)
  forcefield : Type;
  (** [ForceField(ffxml)] *)
  ForceField : string → res forcefield;
  (** [Molecule.from_openeye(mol, allow_undefined_stereo=flag)] *)
  from_openeye : graphmol → bool → res off_molecule;
  (** [molecule.to_smiles()]: the canonical isomeric SMILES *)
  to_smiles : off_molecule → string;
  (** [get_molecule_parameterIDs(mols, ff)]: the parameter ids of each
      molecule, and the molecules of each parameter id, both keyed by
      strings *)
  get_molecule_parameterIDs :
    list off_molecule → forcefield →
    res (gmap string (list string) * gmap string (list string))
}.

(** ** tailed_parameters.py *)

Module Tailed.

(** *** [natural_keys] *)

(** [re.split(r'(\d+)', text)]: the text cut into its maximal runs of digits
    and the runs between them. The result starts and ends with a run without
    digits, which is empty where the text starts or ends with a digit. *)
Fixpoint re_split_digits (text : string) : list string :=
  match text with
  | EmptyString => [EmptyString]
  | String c rest =>
      match re_split_digits rest with
      | s0 :: tl =>
          if is_digit c then
            match s0, tl with
            | EmptyString, d :: tl' => EmptyString :: String c d :: tl'
            | _, _ => EmptyString :: String c EmptyString :: s0 :: tl
            end
          else String c s0 :: tl
      | [] => [String c EmptyString]
      end
  end.

(** An element of a key: an [int] or a [str]. *)
Inductive key_part : Type :=
  | KStr (s : string)
  | KInt (n : Z).

Global Instance key_part_eq_dec : EqDecision key_part.
Proof. solve_decision. Defined.

Definition atoi (text : string) : key_part :=
  if isdigit text then KInt (int_of_digits text) else KStr text.

Definition natural_keys (text : string) : list key_part :=
  atoi <$> re_split_digits text.

(** [x < y] on the elements of a key: numbers by value, strings by code
    point; Python refuses to order an [int] and a [str]. *)
Definition part_lt (x y : key_part) : res bool :=
  match x, y with
  | KInt a, KInt b => Ok (a <? b)
  | KStr a, KStr b => Ok (String.ltb a b)
  | _, _ => Raise TypeError
  end.

(** [k1 < k2] on lists: the first pair of unequal elements decides, and a
    proper prefix is smaller. *)
Fixpoint key_lt (k1 k2 : list key_part) : res bool :=
  match k1, k2 with
  | x :: k1', y :: k2' =>
      if bool_decide (x = y) then key_lt k1' k2' else part_lt x y
  | [], _ :: _ => Ok true
  | _, [] => Ok false
  end.

(** [full_params.sort(key=natural_keys)] *)
Definition natural_sort (full_params : list string) : res (list string) :=
  py_sorted natural_keys key_lt full_params.

(** The order [key_lt] computes, as a three-way comparison. Its value on an
    [int] and a [str] is a convention: [key_lt] raises there. *)
Definition part_cmp (x y : key_part) : comparison :=
  match x, y with
  | KInt a, KInt b => a ?= b
  | KStr a, KStr b => String.compare a b
  | KStr _, KInt _ => Lt
  | KInt _, KStr _ => Gt
  end.

Definition key_cmp (k1 k2 : list key_part) : comparison :=
  list_compare part_cmp k1 k2.

Definition key_ltb (k1 k2 : list key_part) : bool :=
  match key_cmp k1 k2 with
  | Lt => true
  | _ => false
  end.

Definition no_digits (s : string) : bool :=
  forallb (λ c, negb (is_digit c)) (String.list_ascii_of_string s).

(** The shape of a key: a [str] at the even positions, an [int] at the odd
    ones. *)
Fixpoint key_shape (expect_str : bool) (k : list key_part) : bool :=
  match k with
  | [] => true
  | KStr _ :: k' => expect_str && key_shape false k'
  | KInt _ :: k' => negb expect_str && key_shape true k'
  end.

(** The shape of [re.split(r'(\d+)', text)]: runs without digits at the even
    positions, non-empty runs of digits at the odd ones; a run between two
    runs of digits is not empty. [first] says that the list starts at the
    start of the text, where the run may be empty. *)
Fixpoint split_shape (first : bool) (l : list string) : bool :=
  match l with
  | [] => false
  | [s] => no_digits s
  | s :: d :: l' =>
      no_digits s && (first || negb (bool_decide (s = EmptyString))) &&
      isdigit d && split_shape false l'
  end.

Section Partitioner.
Context `{Python} `{OEChem}.

(** The values of [mols_all] and [mols_out]: [{'structure': ...}], with a
    ['metric'] entry in [mols_out] only. *)
Record mol_record : Type := MolRecord {
  metric : option float;
  structure : oegraphmol
}.

(** The variables the read loop of [tailed_parameters] updates. *)
Record read_state : Type := ReadState {
  all_smiles : list string;
  mols_all : list (string * mol_record);
  mols_out : list (string * mol_record);
  count_all : Z;
  count_out : Z
}.

Definition read_init : read_state :=
  {| all_smiles := []; mols_all := []; mols_out := [];
     count_all := 0; count_out := 0 |}.

(** The body of the inner loop, lines 207-216. *)
Definition read_conf (cutoff : float) (tag tag_smiles : string)
    (st : read_state) (conf : oeconf) : res read_state :=
  value ← py_float (OEGetSDData conf tag);
  let smiles := OEGetSDData conf tag_smiles in
  let '(mols_out', count_out') :=
    if float_ge value cutoff then
      (od_set smiles
         {| metric := Some value; structure := OEGraphMol conf |}
         (mols_out st),
       count_out st + 1)
    else (mols_out st, count_out st) in
  Ok {| all_smiles := all_smiles st ++ [smiles];
        mols_all :=
          od_set smiles {| metric := None; structure := OEGraphMol conf |}
            (mols_all st);
        mols_out := mols_out';
        count_all := count_all st + 1;
        count_out := count_out' |}.

(** [for mol in mols: for conf in mol.GetConfs(): ...], lines 204-216. *)
Definition read_loop (cutoff : float) (tag tag_smiles : string)
    (mols : list oemol) : res read_state :=
  for_each
    (λ st mol, for_each (read_conf cutoff tag tag_smiles) (GetConfs mol) st)
    mols read_init.

(** The conformers in the order the loop meets them. *)
Definition all_confs (mols : list oemol) : list oeconf :=
  mols ≫= GetConfs.

(** The test of line 210 on a conformer. *)
Definition is_outlier (cutoff : float) (tag : string) (conf : oeconf) : bool :=
  match py_float (OEGetSDData conf tag) with
  | Ok v => float_ge v cutoff
  | Raise _ => false
  end.

(** What the loop stores for a conformer: its entry of [mols_all], and its
    entry of [mols_out] when it has one. *)
Definition all_entry (tag_smiles : string) (conf : oeconf)
  : string * mol_record :=
  (OEGetSDData conf tag_smiles,
   {| metric := None; structure := OEGraphMol conf |}).

Definition out_entry (cutoff : float) (tag tag_smiles : string)
    (conf : oeconf) : option (string * mol_record) :=
  match py_float (OEGetSDData conf tag) with
  | Ok v =>
      if float_ge v cutoff then
        Some (OEGetSDData conf tag_smiles,
              {| metric := Some v; structure := OEGraphMol conf |})
      else None
  | Raise _ => None
  end.
End Partitioner.

(** *** [write_mols] *)

Section Writer.
Context `{Python} `{OEChem}.

(** [write_mols], lines 56-77: the structures written to the file, in the
    order of the keys. [can_open] says whether [ofs.open(outfile)]
    succeeds. *)
Definition write_mols (mols_dict : list (string * mol_record))
    (can_open : bool) : res (list oegraphmol) :=
  if negb can_open then Raise OEFatal
  else
    for_each
      (λ written key,
         match od_get key mols_dict with
         | Some r => Ok (written ++ [structure r])
         | None => Raise KeyError
         end)
      (od_keys mols_dict) [].

(** Lines 204-219 of [tailed_parameters]: the read loop, and then the
    outliers written to their file. *)
Definition read_and_write (cutoff : float) (tag tag_smiles : string)
    (mols : list oemol) (can_open : bool)
  : res (read_state * list oegraphmol) :=
  st ← read_loop cutoff tag tag_smiles mols;
  written ← write_mols (mols_out st) can_open;
  Ok (st, written).
End Writer.

(** *** [get_parameters] *)

(** [del l[i]] *)
Definition py_del {A : Type} (l : list A) (i : nat) : res (list A) :=
  if bool_decide (i < length l)%nat then Ok (delete i l) else Raise IndexError.

(** [[idx for idx, item in enumerate(iso_smiles) if item in iso_smiles[:idx]]],
    line 111. *)
Definition idx_of_duplicates (iso_smiles : list string) : list nat :=
  (filter (λ p, p.2 ∈ take p.1 iso_smiles) (imap pair iso_smiles)).*1.

Section Extractor.
Context `{OEChem} `{!OpenFF oegraphmol}.

(** The loop of lines 96-103: one conversion per key, each with
    [allow_undefined_stereo=True]. *)
Definition convert_mols (mols_dict : list (string * mol_record))
  : res (list off_molecule) :=
  for_each
    (λ off_mols key,
       match od_get key mols_dict with
       | Some r =>
           off_mol ← from_openeye (structure r) true;
           Ok (off_mols ++ [off_mol])
       | None => Raise KeyError
       end)
    (od_keys mols_dict) [].

(** Lines 111-113: the indices of the later occurrences, deleted from the
    highest to the lowest. *)
Definition remove_duplicates (iso_smiles : list string)
    (off_mols : list off_molecule) : res (list off_molecule) :=
  let idx_of_duplicates := idx_of_duplicates iso_smiles in
  order ← py_sorted_reverse id int_lt idx_of_duplicates;
  for_each py_del order off_mols.

Definition get_parameters (mols_dict : list (string * mol_record))
    (ffxml : string)
  : res (gmap string (list string) * gmap string (list string) *
         list (string * string)) :=
  ff ← ForceField ffxml;
  off_mols ← convert_mols mols_dict;
  let iso_smiles := to_smiles <$> off_mols in
  let smi_list := od_keys mols_dict in
  let smi_dict := py_dict (zip iso_smiles smi_list) in
  off_mols' ← remove_duplicates iso_smiles off_mols;
  '(parameters_by_molecule, parameters_by_ID) ←
    get_molecule_parameterIDs off_mols' ff;
  Ok (parameters_by_molecule, parameters_by_ID, smi_dict).

(** The molecules whose SMILES has not occurred before, in their order:
    what deduplication is meant to keep. *)
Fixpoint first_occurrences (seen : list string) (mols : list off_molecule)
  : list off_molecule :=
  match mols with
  | [] => []
  | m :: mols' =>
      if bool_decide (to_smiles m ∈ seen) then first_occurrences seen mols'
      else m :: first_occurrences (to_smiles m :: seen) mols'
  end.
End Extractor.

(** *** [count_mols_by_param] *)

Definition count_mols_by_param (full_params : list string)
    (params_id_all params_id_out : gmap string (list string))
  : res (list Z * list Z) :=
  for_each
    (λ '(nmols_cnt_all, nmols_cnt_out) p,
       match params_id_all !! p with
       | None => Raise KeyError
       | Some mols =>
           let cnt_all := Z.of_nat (length mols) in
           let cnt_out :=
             match params_id_out !! p with
             | Some mols => Z.of_nat (length mols)
             | None => 0
             end in
           Ok (nmols_cnt_all ++ [cnt_all], nmols_cnt_out ++ [cnt_out])
       end)
    full_params ([], []).

(** *** The filters of [main], lines 286-306 *)

(** The three aligned structures. *)
Record aligned : Type := Aligned {
  fraction_cnt_all : list float;
  fraction_cnt_out : list float;
  full_params : list string
}.

(** Lines 292-297: drop the parameters counted once in both sets. *)
Definition exclude_ones (nmols_cnt_all nmols_cnt_out : list Z) (a : aligned)
  : res aligned :=
  let ones_nmols_all := np_where_eq nmols_cnt_all 1 in
  let ones_nmols_out := np_where_eq nmols_cnt_out 1 in
  let ones_both := np_intersect1d ones_nmols_all ones_nmols_out in
  fraction_cnt_all' ← np_delete (fraction_cnt_all a) ones_both;
  fraction_cnt_out' ← np_delete (fraction_cnt_out a) ones_both;
  Ok {| fraction_cnt_all := fraction_cnt_all';
        fraction_cnt_out := fraction_cnt_out';
        full_params :=
          (filter (λ p, p.1 ∉ ones_both) (py_enumerate (full_params a))).*2 |}.

(** Lines 300-303: keep the parameters the outlier set uses. *)
Definition exclude_zeros (a : aligned) : res aligned :=
  let nonzero_inds := np_nonzero (fraction_cnt_out a) in
  fraction_cnt_out' ← np_take (fraction_cnt_out a) nonzero_inds;
  fraction_cnt_all' ← np_take (fraction_cnt_all a) nonzero_inds;
  full_params' ← map_res (py_getitem (full_params a)) nonzero_inds;
  Ok {| fraction_cnt_all := fraction_cnt_all';
        fraction_cnt_out := fraction_cnt_out';
        full_params := full_params' |}.

(** The mask of the first filter: false where both counts are 1. *)
Definition ones_mask (nmols_cnt_all nmols_cnt_out : list Z) : list bool :=
  (λ p, negb (bool_decide (p.1 = 1 ∧ p.2 = 1))) <$>
    zip nmols_cnt_all nmols_cnt_out.

(** The mask of the second filter: true where the outlier fraction is not
    zero. *)
Definition nonzero_mask (a : aligned) : list bool :=
  float_nonzero <$> fraction_cnt_out a.

(** The outlier fraction of a parameter that no outlier uses is zero, and
    that of a parameter one outlier uses is not, for [n] outliers. *)
Definition fraction_zero_test (n : Z) : bool :=
  negb (float_nonzero (PrimFloat.div (float_of_Z 0) (float_of_Z n))) &&
  float_nonzero (PrimFloat.div (float_of_Z 1) (float_of_Z n)).

(** The test for [n], [n + 1], ..., [n + fuel - 1]. *)
Fixpoint fraction_zero_tests (fuel : nat) (n : Z) : bool :=
  match fuel with
  | O => true
  | S fuel' => fraction_zero_test n && fraction_zero_tests fuel' (n + 1)
  end.

(** The same positions of the three structures. *)
Definition select_aligned (mask : list bool) (a : aligned) : aligned :=
  {| fraction_cnt_all := select mask (fraction_cnt_all a);
     fraction_cnt_out := select mask (fraction_cnt_out a);
     full_params := select mask (full_params a) |}.

(** The three structures have one length. *)
Definition is_aligned (a : aligned) : Prop :=
  length (fraction_cnt_all a) = length (full_params a) ∧
  length (fraction_cnt_out a) = length (full_params a).

(** The fractions of lines 286-287 with the parameter ids. *)
Definition fractions (params : list string)
    (nmols_cnt_all nmols_cnt_out : list Z) (uniq_n_all uniq_n_out : Z)
  : aligned :=
  {| fraction_cnt_all := np_true_divide nmols_cnt_all uniq_n_all;
     fraction_cnt_out := np_true_divide nmols_cnt_out uniq_n_out;
     full_params := params |}.

(** What lines 286-306 compute: the structures after each of the two
    filters, and the ratios. *)
Record ratios : Type := Ratios {
  without_ones : aligned;
  without_zeros : aligned;
  fraction_ratio : list float
}.

Definition ratio_filter (params : list string)
    (nmols_cnt_all nmols_cnt_out : list Z) (uniq_n_all uniq_n_out : Z)
  : res ratios :=
  let a0 := fractions params nmols_cnt_all nmols_cnt_out uniq_n_all uniq_n_out in
  a1 ← exclude_ones nmols_cnt_all nmols_cnt_out a0;
  a2 ← exclude_zeros a1;
  ratio ← np_divide (fraction_cnt_out a2) (fraction_cnt_all a2);
  Ok {| without_ones := a1; without_zeros := a2; fraction_ratio := ratio |}.

(** *** [tailed_parameters] and [main] *)

Section Analyzer.
Context `{Python} `{OEChem} `{!OpenFF oegraphmol}.

(** The dictionaries [data_all] and [data_out]. *)
Record data : Type := Data {
  count : Z;
  mols_dict : list (string * mol_record);
  params_mol : gmap string (list string);
  params_id : gmap string (list string);
  smi_dict : list (string * string)
}.

(** [tailed_parameters], from the molecules [reader.read_mols] returns. The
    files it writes (the outliers, the pickle) are left out, and writing
    them is taken to succeed. *)
Definition tailed_parameters (mols : list oemol) (ffxml : string)
    (cutoff : float) (tag tag_smiles : string) : res (data * data) :=
  st ← read_loop cutoff tag tag_smiles mols;
  '(params_mol_out, params_id_out, smi_dict_out) ←
    get_parameters (mols_out st) ffxml;
  '(params_mol_all, params_id_all, smi_dict_all) ←
    get_parameters (mols_all st) ffxml;
  Ok ({| count := count_all st; mols_dict := mols_all st;
         params_mol := params_mol_all; params_id := params_id_all;
         smi_dict := smi_dict_all |},
      {| count := count_out st; mols_dict := mols_out st;
         params_mol := params_mol_out; params_id := params_id_out;
         smi_dict := smi_dict_out |}).

(** What [main] computes from the two dictionaries, lines 256-306: the
    sorted parameter ids, the two count arrays, and the ratios. The data
    file and the plots are left out. *)
Record report : Type := Report {
  sorted_params : list string;
  nmols_cnt_all : list Z;
  nmols_cnt_out : list Z;
  filtered : ratios
}.

Definition analyse (data_all data_out : data) : res report :=
  let uniq_n_all := Z.of_nat (size (params_mol data_all)) in
  let uniq_n_out := Z.of_nat (size (params_mol data_out)) in
  let params_id_all := params_id data_all in
  let params_id_out := params_id data_out in
  full_params ← natural_sort (py_set_list (dom params_id_all));
  '(cnt_all, cnt_out) ←
    count_mols_by_param full_params params_id_all params_id_out;
  r ← ratio_filter full_params cnt_all cnt_out uniq_n_all uniq_n_out;
  Ok {| sorted_params := full_params; nmols_cnt_all := cnt_all;
        nmols_cnt_out := cnt_out; filtered := r |}.

(** [main] up to line 307: [pickled] is the content of the pickle file when
    one is given and exists. The result is what the plots are drawn from:
    the report and the largest ratio. *)
Definition main (mols : list oemol) (ffxml : string) (cutoff : float)
    (tag tag_smiles : string) (pickled : option (data * data))
  : res (report * float) :=
  '(data_all, data_out) ←
    match pickled with
    | Some d => Ok d
    | None => tailed_parameters mols ffxml cutoff tag tag_smiles
    end;
  rep ← analyse data_all data_out;
  max_ratio ← np_max (fraction_ratio (filtered rep));
  Ok (rep, max_ratio).
End Analyzer.

(** *** The plots of [main], lines 311-318 *)

(** [s.startswith(t)] *)
Definition startswith (s t : string) : bool := String.prefix t s.

(** [l.index(x)]: the first position of [x]; an error when [x] is not in
    the list. *)
Fixpoint py_index (l : list string) (x : string) : res nat :=
  match l with
  | [] => Raise ValueError
  | y :: l' => if decide (y = x) then Ok 0%nat else S <$> py_index l' x
  end.

(** The arguments of a call of [plot_by_paramtype], but for the metric type,
    which only names the file of the figure. *)
Record plot : Type := Plot {
  plot_prefix : string;
  plot_max_ratio : float;
  plot_labels : list string;
  plot_data : list float
}.

(** The parameter types, line 311. *)
Definition param_types : list string := ["a"; "b"; "i"; "n"; "t"].

(** Lines 314-318 for one parameter type. *)
Definition plot_subset (full_params : list string)
    (fraction_ratio : list float) (max_ratio : float) (t : string) : res plot :=
  plot_inds ←
    map_res (py_index full_params)
      (filter (λ i, startswith i t = true) full_params);
  fraction_subset ← np_take fraction_ratio plot_inds;
  label_subset ← map_res (py_getitem full_params) plot_inds;
  Ok {| plot_prefix := t; plot_max_ratio := max_ratio;
        plot_labels := label_subset; plot_data := fraction_subset |}.

(** The loop of lines 311-318: the calls of [plot_by_paramtype], in
    order. *)
Definition plots (full_params : list string) (fraction_ratio : list float)
    (max_ratio : float) : res (list plot) :=
  map_res (plot_subset full_params fraction_ratio max_ratio) param_types.

Section Plotter.
Context `{Python} `{OEChem} `{!OpenFF oegraphmol}.

(** [main] with its plots. *)
Definition main_plots (mols : list oemol) (ffxml : string) (cutoff : float)
    (tag tag_smiles : string) (pickled : option (data * data))
  : res (list plot) :=
  '(rep, max_ratio) ← main mols ffxml cutoff tag tag_smiles pickled;
  plots (full_params (without_zeros (filtered rep)))
    (fraction_ratio (filtered rep)) max_ratio.
End Plotter.

(** *** The command line, lines 323-364

    [argparse] as far as this parser uses it: options given by their exact
    names, each value in the argument after its option. Abbreviated option
    names and the forms [--option=value] and [-ovalue] are left out: the
    model refuses them. A usage error ends the program: [SystemExit]. *)

Inductive dest : Type :=
  | Infile | Ffxml | Cutoff | Tag | TagSmiles | Inpickle.

Inductive toggle : Type :=
  | Rmsd | Tfd.

Inductive action : Type :=
  | Store (d : dest)
  | StoreTrue (t : toggle)
  | Help.

(** The options the [add_argument] calls declare, and [-h] that every parser
    has. No group of mutually exclusive options is declared. *)
Definition option_strings : list (string * action) :=
  [ ("-h", Help); ("--help", Help);
    ("-i", Store Infile); ("--infile", Store Infile);
    ("-f", Store Ffxml); ("--ffxml", Store Ffxml);
    ("--cutoff", Store Cutoff);
    ("--tag", Store Tag);
    ("--tag_smiles", Store TagSmiles);
    ("--rmsd", StoreTrue Rmsd);
    ("--tfd", StoreTrue Tfd);
    ("--inpickle", Store Inpickle) ].

(** The namespace [parse_args] fills: [None] for an option without a default
    that was not given. *)
Record namespace : Type := Namespace {
  ns_infile : option string;
  ns_ffxml : option string;
  ns_cutoff : option float;
  ns_tag : option string;
  ns_tag_smiles : option string;
  ns_rmsd : bool;
  ns_tfd : bool;
  ns_inpickle : option string
}.

Definition ns_default : namespace :=
  {| ns_infile := None; ns_ffxml := None; ns_cutoff := None; ns_tag := None;
     ns_tag_smiles := None; ns_rmsd := false; ns_tfd := false;
     ns_inpickle := None |}.

(** [-1], [-.5], [-1.5]: what [argparse] takes for a negative number. *)
Definition negative_number_like (tok : string) : bool :=
  match tok with
  | String "-" body =>
      match re_split_digits body with
      | [ EmptyString; _; EmptyString ] => true
      | [ EmptyString; _; "."; _; EmptyString ] => true
      | [ "."; _; EmptyString ] => true
      | _ => false
      end
  | _ => false
  end.

(** An argument that [argparse] reads as an option, not as a value: it
    starts with ['-'], is longer than that, is no negative number and has
    no space in it. *)
Definition option_like (tok : string) : bool :=
  match tok with
  | String "-" (String _ _) =>
      negb (negative_number_like tok) &&
      negb (bool_decide (" "%char ∈ String.list_ascii_of_string tok))
  | _ => false
  end.

Section CommandLine.
Context `{Python}.

Definition store (d : dest) (value : string) (ns : namespace) : res namespace :=
  match d with
  | Infile =>
      Ok {| ns_infile := Some value; ns_ffxml := ns_ffxml ns;
            ns_cutoff := ns_cutoff ns; ns_tag := ns_tag ns;
            ns_tag_smiles := ns_tag_smiles ns; ns_rmsd := ns_rmsd ns;
            ns_tfd := ns_tfd ns; ns_inpickle := ns_inpickle ns |}
  | Ffxml =>
      Ok {| ns_infile := ns_infile ns; ns_ffxml := Some value;
            ns_cutoff := ns_cutoff ns; ns_tag := ns_tag ns;
            ns_tag_smiles := ns_tag_smiles ns; ns_rmsd := ns_rmsd ns;
            ns_tfd := ns_tfd ns; ns_inpickle := ns_inpickle ns |}
  | Cutoff =>
      match py_float value with
      | Ok c =>
          Ok {| ns_infile := ns_infile ns; ns_ffxml := ns_ffxml ns;
                ns_cutoff := Some c; ns_tag := ns_tag ns;
                ns_tag_smiles := ns_tag_smiles ns; ns_rmsd := ns_rmsd ns;
                ns_tfd := ns_tfd ns; ns_inpickle := ns_inpickle ns |}
      | Raise _ => Raise SystemExit
      end
  | Tag =>
      Ok {| ns_infile := ns_infile ns; ns_ffxml := ns_ffxml ns;
            ns_cutoff := ns_cutoff ns; ns_tag := Some value;
            ns_tag_smiles := ns_tag_smiles ns; ns_rmsd := ns_rmsd ns;
            ns_tfd := ns_tfd ns; ns_inpickle := ns_inpickle ns |}
  | TagSmiles =>
      Ok {| ns_infile := ns_infile ns; ns_ffxml := ns_ffxml ns;
            ns_cutoff := ns_cutoff ns; ns_tag := ns_tag ns;
            ns_tag_smiles := Some value; ns_rmsd := ns_rmsd ns;
            ns_tfd := ns_tfd ns; ns_inpickle := ns_inpickle ns |}
  | Inpickle =>
      Ok {| ns_infile := ns_infile ns; ns_ffxml := ns_ffxml ns;
            ns_cutoff := ns_cutoff ns; ns_tag := ns_tag ns;
            ns_tag_smiles := ns_tag_smiles ns; ns_rmsd := ns_rmsd ns;
            ns_tfd := ns_tfd ns; ns_inpickle := Some value |}
  end.

Definition store_true (t : toggle) (ns : namespace) : namespace :=
  match t with
  | Rmsd =>
      {| ns_infile := ns_infile ns; ns_ffxml := ns_ffxml ns;
         ns_cutoff := ns_cutoff ns; ns_tag := ns_tag ns;
         ns_tag_smiles := ns_tag_smiles ns; ns_rmsd := true;
         ns_tfd := ns_tfd ns; ns_inpickle := ns_inpickle ns |}
  | Tfd =>
      {| ns_infile := ns_infile ns; ns_ffxml := ns_ffxml ns;
         ns_cutoff := ns_cutoff ns; ns_tag := ns_tag ns;
         ns_tag_smiles := ns_tag_smiles ns; ns_rmsd := ns_rmsd ns;
         ns_tfd := true; ns_inpickle := ns_inpickle ns |}
  end.

(** The arguments, read from left to right; [pending] is the option that
    waits for its value. *)
Fixpoint consume (pending : option dest) (argv : list string)
    (ns : namespace) : res namespace :=
  match argv with
  | [] =>
      match pending with
      | None => Ok ns
      | Some _ => Raise SystemExit
      end
  | tok :: rest =>
      match pending with
      | Some d =>
          if option_like tok then Raise SystemExit
          else ns' ← store d tok ns; consume None rest ns'
      | None =>
          match od_get tok option_strings with
          | Some (Store d) => consume (Some d) rest ns
          | Some (StoreTrue t) => consume None rest (store_true t ns)
          | Some Help => Raise SystemExit
          | None => Raise SystemExit
          end
      end
  end.

(** [parser.parse_args()]: the five required options must have been
    given. *)
Definition parse_args (argv : list string) : res namespace :=
  ns ← consume None argv ns_default;
  match ns_infile ns, ns_ffxml ns, ns_cutoff ns, ns_tag ns, ns_tag_smiles ns with
  | Some _, Some _, Some _, Some _, Some _ => Ok ns
  | _, _, _, _, _ => Raise SystemExit
  end.

(** The options declared with [required=True], and whether the namespace
    has a value for an option. *)
Definition required : list dest := [Infile; Ffxml; Cutoff; Tag; TagSmiles].

Definition given (d : dest) (ns : namespace) : bool :=
  match d with
  | Infile => bool_decide (is_Some (ns_infile ns))
  | Ffxml => bool_decide (is_Some (ns_ffxml ns))
  | Cutoff => bool_decide (is_Some (ns_cutoff ns))
  | Tag => bool_decide (is_Some (ns_tag ns))
  | TagSmiles => bool_decide (is_Some (ns_tag_smiles ns))
  | Inpickle => bool_decide (is_Some (ns_inpickle ns))
  end.

(** The arguments of the call of [main], line 362. *)
Record main_call : Type := MainCall {
  call_infile : string;
  call_ffxml : string;
  call_cutoff : float;
  call_tag : string;
  call_tag_smiles : string;
  call_metric_type : string;
  call_inpickle : option string
}.

(** Lines 353-364. With neither [--rmsd] nor [--tfd] the name [metric_type]
    is not bound when the call is evaluated. *)
Definition command_line (argv : list string) : res main_call :=
  args ← parse_args argv;
  metric_type ←
    (if ns_rmsd args then Ok "RMSD"
     else if ns_tfd args then Ok "TFD"
     else Raise NameError);
  match ns_infile args, ns_ffxml args, ns_cutoff args, ns_tag args,
        ns_tag_smiles args with
  | Some i, Some f, Some c, Some t, Some ts =>
      Ok {| call_infile := i; call_ffxml := f; call_cutoff := c;
            call_tag := t; call_tag_smiles := ts;
            call_metric_type := metric_type;
            call_inpickle := ns_inpickle args |}
  | _, _, _, _, _ => Raise SystemExit
  end.
End CommandLine.

End Tailed.


(** ** minimize_ffs.py *)

Module Minimize.

(** What the driver asks of the file system. *)
Record files : Type := Files {
  (** [ifs.open(path)] succeeds *)
  opens_for_reading : string → bool;
  (** [os.path.exists(path)] *)
  path_exists : string → bool;
  (** [ofs.open(path)] succeeds *)
  opens_for_writing : string → bool
}.

(** The toolkits and engines the minimizer drives. A call that changes a
    molecule in place returns the changed molecule. *)
Class Engines := {
  oemol : Type;
  oeconf : Type;
  charges : Type;
  coordinates : Type;
  energy : Type;
  omm_system : Type;
  amber_files : Type;
  (** the molecules of an input file that could be opened *)
  GetOEMols : string → list oemol;
  (** [OEPerceiveChiral] and [OEAssignAromaticFlags], lines 293-294 *)
  perceive : oemol → oemol;
  (** [openmoltools.openeye.get_charges] on a copy, in [charge_mol] *)
  get_charges : oemol → res charges;
  (** [OE3DToInternalStereo], [ResetPerceived], [OE3DToBondStereo],
      lines 304-309 *)
  stereo_from_3d : oemol → oemol;
  GetConfs : oemol → list oeconf;
  OE3DToInternalStereo : oeconf → oeconf;
  (** [charge_conf]: a copy of the conformer with the charges on it *)
  SetPartialCharges : charges → oeconf → oeconf;
  SetCoords : oeconf → coordinates → oeconf;
  (** the Szybki optimization of [min_mmff94x]: whether it succeeded, the
      molecule as it leaves it, and the total energy of the results *)
  szybki : bool → oeconf → bool * oeconf * energy;
  (** lines 211-221: the openforcefield molecule, the force field, the
      topology and the OpenMM system *)
  create_openmm_system : oeconf → option string → res omm_system;
  (** [run_openmm] on the positions of the molecule or of the system *)
  run_openmm : omm_system → oeconf → res (coordinates * energy);
  (** [molecule_to_mol2], line 156 *)
  molecule_to_mol2 : oeconf → res amber_files;
  (** [run_antechamber] with the given GAFF version *)
  run_antechamber : bool → amber_files → res amber_files;
  (** [run_tleap], [parmed.load_file] and [createSystem], lines 180-188 *)
  amber_system : bool → amber_files → res omm_system
}.

(** *** The temporary files of [min_gaffx], lines 143-153 *)

(** [int.from_bytes(b, 'little')] for the bytes of a string: the first byte
    is the least significant. *)
Fixpoint int_from_bytes_little (s : string) : Z :=
  match s with
  | EmptyString => 0
  | String c s' => Z.of_N (N_of_ascii c) + 256 * int_from_bytes_little s'
  end.

(** The decimal digits of [n], the most significant first, before [acc]. *)
Fixpoint digits_before (fuel : nat) (n : Z) (acc : string) : string :=
  match fuel with
  | O => acc
  | S fuel' =>
      let acc' := String (ascii_of_N (Z.to_N (48 + n mod 10))) acc in
      if n <? 10 then acc' else digits_before fuel' (n / 10) acc'
  end.

(** [str(n)] for an [int] that is not negative. A number has no more
    decimal digits than binary ones. *)
Definition py_str (n : Z) : string :=
  digits_before (S (Z.to_nat (Z.log2 n))) n EmptyString.

(** Lines 145-146: [int(str(int_from_text)[:200])]. *)
Definition short_int (smilabel : string) : Z :=
  int_of_digits
    (String.substring 0 200 (py_str (int_from_bytes_little smilabel))).

(** Lines 149-153: the names of the five files. *)
Definition gaff_files (smilabel : string) : list string :=
  let short_int := py_str (short_int smilabel) in
  [ String.append short_int "_t.mol2"; String.append short_int "_g.mol2";
    String.append short_int ".frcmod"; String.append short_int ".prmtop";
    String.append short_int ".inpcrd" ].

Section Driver.
Context `{Engines}.

(** A molecule written to the output, with the SD tag of its energy. *)
Definition written : Type := oeconf * string * energy.

(** What a run does that can be seen: the molecules whose turn came in the
    loop of [main], and the molecules written. *)
Inductive event : Type :=
  | Enter (mol : oemol)
  | Wrote (w : written).

(** [except Exception] catches everything but the exits. *)
Definition is_Exception (e : exn) : bool :=
  negb (bool_decide (e = SystemExit ∨ e = OEFatal)).

(** The minimizers return what they write. *)
Definition min_mmff94x (mol : oeconf) (mmff94s : bool) : res (list written) :=
  let sdlabel := if mmff94s then "MMFF94S" else "MMFF94" in
  let '(_, oe_mol, e) := szybki mmff94s mol in
  Ok [(oe_mol, String.append "Energy " sdlabel, e)].

Definition min_gaffx (mol : oeconf) (gaff2 : bool) : res (list written) :=
  let sdlabel := if gaff2 then "GAFF2" else "GAFF" in
  tmol2 ← molecule_to_mol2 mol;
  match run_antechamber gaff2 tmol2 with
  | Raise e => if is_Exception e then Ok [] else Raise e
  | Ok gmol2 =>
      system ← amber_system gaff2 gmol2;
      '(newpos, e) ← run_openmm system mol;
      Ok [(SetCoords mol newpos, String.append "Energy " sdlabel, e)]
  end.

Definition min_ffxml (mol : oeconf) (ffxml : option string)
  : res (list written) :=
  match create_openmm_system mol ffxml with
  | Raise e => if is_Exception e then Ok [] else Raise e
  | Ok system =>
      '(newpos, e) ← run_openmm system mol;
      Ok [(SetCoords mol newpos, "Energy FFXML", e)]
  end.

(** A loop whose body adds to the log and may raise; what was logged before
    an exception stays. *)
Fixpoint for_each_logged {A : Type}
    (body : A → list event → list event * res unit)
    (l : list A) (log : list event) : list event * res unit :=
  match l with
  | [] => (log, Ok ())
  | x :: l' =>
      match body x log with
      | (log', Ok _) => for_each_logged body l' log'
      | (log', Raise e) => (log', Raise e)
      end
  end.

(** One minimizer call of lines 329-347. *)
Definition call_minimizer (selected : bool) (run : res (list written))
    (log : list event) : list event * res unit :=
  if selected then
    match run with
    | Ok ws => (log ++ (Wrote <$> ws), Ok ())
    | Raise e => (log, Raise e)
    end
  else (log, Ok ()).

(** The body of the loop over conformers, lines 323-347. *)
Definition minimize_conf (minimizer : string) (ffxml : option string)
    (chg_mol : charges) (conf : oeconf) (log : list event)
  : list event * res unit :=
  let chg_conf := SetPartialCharges chg_mol (OE3DToInternalStereo conf) in
  for_each_logged (λ step log, step log)
    [ call_minimizer (bool_decide (minimizer = "ffxml"))
        (min_ffxml chg_conf ffxml);
      call_minimizer (bool_decide (minimizer = "mmff94"))
        (min_mmff94x chg_conf false);
      call_minimizer (bool_decide (minimizer = "mmff94s"))
        (min_mmff94x chg_conf true);
      call_minimizer (bool_decide (minimizer = "gaff"))
        (min_gaffx chg_conf false);
      call_minimizer (bool_decide (minimizer = "gaff2"))
        (min_gaffx chg_conf true) ]
    log.

(** The body of the loop over molecules, lines 292-347. *)
Definition minimize_mol (minimizer : string) (ffxml : option string)
    (mol : oemol) (log : list event) : list event * res unit :=
  let log := log ++ [Enter mol] in
  let mol := perceive mol in
  let confs (mol : oemol) (chg_mol : charges) :=
    for_each_logged (minimize_conf minimizer ffxml chg_mol) (GetConfs mol) log in
  match get_charges mol with
  | Ok chg_mol => confs mol chg_mol
  | Raise RuntimeError =>
      let mol := stereo_from_3d mol in
      match get_charges mol with
      | Ok chg_mol => confs mol chg_mol
      | Raise RuntimeError => (log, Ok ())
      | Raise e => (log, Raise e)
      end
  | Raise e => (log, Raise e)
  end.

(** [main], lines 272-350: the log of the run and how it ended. *)
Definition main (fs : files) (infile outfile : string)
    (ffxml : option string) (minimizer : string) : list event * res unit :=
  if negb (opens_for_reading fs infile) then ([], Raise FileNotFoundError)
  else
    let mols := GetOEMols infile in
    if path_exists fs outfile then ([], Raise FileExistsError)
    else if negb (opens_for_writing fs outfile) then ([], Raise OEFatal)
    else for_each_logged (minimize_mol minimizer ffxml) mols [].

(** The molecules whose turn came, and the molecules in the output file, in
    order. *)
Definition entered (log : list event) : list oemol :=
  omap (λ ev, match ev with Enter mol => Some mol | Wrote _ => None end) log.

Definition writes (log : list event) : list written :=
  omap (λ ev, match ev with Wrote w => Some w | Enter _ => None end) log.

(** The conformers the loop of lines 321-347 visits for a molecule: those of
    the molecule as it is when its charges are assigned, none when they are
    not. *)
Definition charged_confs (mol : oemol) : list oeconf :=
  let mol := perceive mol in
  match get_charges mol with
  | Ok _ => GetConfs mol
  | Raise RuntimeError =>
      let mol := stereo_from_3d mol in
      match get_charges mol with
      | Ok _ => GetConfs mol
      | Raise _ => []
      end
  | Raise _ => []
  end.

(** The names of the minimizers with the SD tag each writes. *)
Definition sd_tags : list (string * string) :=
  [ ("ffxml", "Energy FFXML"); ("mmff94", "Energy MMFF94");
    ("mmff94s", "Energy MMFF94S"); ("gaff", "Energy GAFF");
    ("gaff2", "Energy GAFF2") ].
End Driver.

End Minimize.

(** ** A small instance of the interfaces

    Conformers that carry their SD tags and a number standing for their
    coordinates, and a [float] for plain decimals. The examples run the
    model on it. *)

Module Sample.

(** A conformer: its SD tags, a number standing for its coordinates, and the
    parameter ids the sample force field gives it. The tag ["ISO"] holds
    the canonical isomeric SMILES and the tag ["STEREO"] the value
    ["undefined"] when the stereochemistry cannot be resolved. *)
Record conf : Type := Conf {
  sd : list (string * string);
  coords : nat;
  params : list string
}.

Global Instance oechem : OEChem := {|
  oemol := list conf;
  oeconf := conf;
  oegraphmol := conf;
  GetConfs := λ m, m;
  OEGetSDData := λ c tag, default "" (od_get tag (sd c));
  OEGraphMol := λ c, c
|}.

Definition iso (c : conf) : string := default "" (od_get "ISO" (sd c)).

Definition stereo_defined (c : conf) : bool :=
  negb (bool_decide (od_get "STEREO" (sd c) = Some "undefined")).

(** The molecules of each parameter id. *)
Definition by_ID (mols : list conf) : gmap string (list string) :=
  foldr
    (λ m acc,
       foldr (λ p acc, <[p := iso m :: default [] (acc !! p)]> acc) acc
         (params m))
    ∅ mols.

(** A toolkit that refuses undefined stereochemistry unless told to allow
    it, and a parameterization that refuses a repeated molecule. *)
Global Instance openff : OpenFF conf := {|
  off_molecule := conf;
  forcefield := string;
  ForceField := λ ffxml,
    if bool_decide (ffxml = "") then Raise FileNotFoundError else Ok ffxml;
  from_openeye := λ c allow_undefined_stereo,
    if stereo_defined c || allow_undefined_stereo then Ok c
    else Raise UndefinedStereochemistryError;
  to_smiles := iso;
  get_molecule_parameterIDs := λ mols ff,
    if bool_decide (NoDup (iso <$> mols)) then
      Ok (list_to_map ((λ m, (iso m, params m)) <$> mols), by_ID mols)
    else Raise Exception
|}.

(** The text before the first ['.'] and, when there is one, the text
    after it. *)
Fixpoint split_dot (s : string) : string * option string :=
  match s with
  | EmptyString => (EmptyString, None)
  | String c s' =>
      if bool_decide (c = "."%char) then (EmptyString, Some s')
      else let '(a, b) := split_dot s' in (String c a, b)
  end.

(** [float(s)] for [s] of the form [d+] or [d+.d+] with at most 15 digits:
    the quotient of two integers that binary64 holds exactly, so that the
    one rounding of the division gives the nearest float. Any other string
    is refused. *)
Definition float_of_decimal (s : string) : res float :=
  let '(ip, fp) := split_dot s in
  let fp := default EmptyString fp in
  let ds := String.append ip fp in
  if isdigit ip && all_digits fp && bool_decide (String.length ds ≤ 15)%nat then
    Ok (PrimFloat.div (float_of_Z (int_of_digits ds))
          (float_of_Z (10 ^ Z.of_nat (String.length fp))))
  else Raise ValueError.

Global Instance python : Python := {|
  py_float := float_of_decimal;
  py_set_list := elements;
  py_set_list_perm := λ s, reflexivity (elements s)
|}.

(** Four conformers in three molecules: SMILES A, A, B, C with metrics
    2.0, 0.5, 3.0, 0.5 under the tag ["RMSD"]. *)
Definition scenario_conf (smiles value : string) (xyz : nat) : oeconf :=
  {| sd := [("RMSD", value); ("SMILES", smiles); ("ISO", smiles)];
     coords := xyz; params := [] |}.

Definition scenario_mols : list oemol :=
  [ [scenario_conf "A" "2.0" 1; scenario_conf "A" "0.5" 2];
    [scenario_conf "B" "3.0" 3];
    [scenario_conf "C" "0.5" 4] ].

(** The same with a second conformer whose metric is no number. *)
Definition scenario_bad : list oemol :=
  [ [scenario_conf "A" "2.0" 1; scenario_conf "B" "n/a" 2];
    [scenario_conf "C" "0.5" 3] ].

(** A molecule set in which the keys ["C(O)"] and ["OC"] are two ways of
    writing the molecule ["CO"], and the last molecule has undefined
    stereochemistry. *)
Definition entry (key iso_smiles stereo : string) (xyz : nat)
    (ps : list string) : string * Tailed.mol_record :=
  (key,
   {| Tailed.metric := None;
      Tailed.structure :=
        {| sd := [("SMILES", key); ("ISO", iso_smiles); ("STEREO", stereo)];
           coords := xyz; params := ps |} |}).

Definition mols_dict : list (string * Tailed.mol_record) :=
  [ entry "C(O)" "CO" "" 1 ["b1"; "n2"];
    entry "CC" "CC" "" 2 ["b2"; "n2"];
    entry "OC" "CO" "" 3 ["b1"; "n2"];
    entry "C(F)(Cl)Br" "FC(Cl)Br" "undefined" 4 ["b3"] ].

(** Two SMILES of 100 characters that differ in their first character. *)
Definition long_smiles (first : ascii) : string :=
  String first
    (String.concat EmptyString (replicate 33 "CCO")).

(** An invocation of the analysis that gives no mode selector. *)
Definition argv_neither : list string :=
  [ "-i"; "refdata.sdf"; "-f"; "openff.offxml"; "--cutoff"; "0.12";
    "--tag"; "TFD"; "--tag_smiles"; "SMILES" ].

(** An invocation of the analysis that gives both mode selectors. *)
Definition argv_both : list string :=
  [ "-i"; "refdata.sdf"; "-f"; "openff.offxml"; "--cutoff"; "1.0";
    "--tag"; "RMSD"; "--tag_smiles"; "SMILES"; "--rmsd"; "--tfd" ].

(** Engines for the minimizer: a molecule is the list of the coordinates of
    its conformers, every engine succeeds, and a minimization halves the
    coordinate. Every input file holds the same two molecules. *)
Global Instance engines : Minimize.Engines := {|
  Minimize.oemol := list nat;
  Minimize.oeconf := nat;
  Minimize.charges := unit;
  Minimize.coordinates := nat;
  Minimize.energy := nat;
  Minimize.omm_system := unit;
  Minimize.amber_files := unit;
  Minimize.GetOEMols := λ _, [[10; 20]; [30]]%nat;
  Minimize.perceive := λ m, m;
  Minimize.get_charges := λ _, Ok ();
  Minimize.stereo_from_3d := λ m, m;
  Minimize.GetConfs := λ m, m;
  Minimize.OE3DToInternalStereo := λ c, c;
  Minimize.SetPartialCharges := λ _ c, c;
  Minimize.SetCoords := λ _ xyz, xyz;
  Minimize.szybki := λ _ c, (true, Nat.div2 c, c);
  Minimize.create_openmm_system := λ _ _, Ok ();
  Minimize.run_openmm := λ _ c, Ok (Nat.div2 c, c);
  Minimize.molecule_to_mol2 := λ _, Ok ();
  Minimize.run_antechamber := λ _ f, Ok f;
  Minimize.amber_system := λ _ _, Ok ()
|}.

(** Engines that fail: no charges for a molecule with a conformer 0,
    Szybki reports a failure for an odd conformer, neither openforcefield
    nor Antechamber can work on the conformer 7, and OpenMM raises on the
    conformer 9. Every input file holds the same three molecules. *)
Definition engines_faulty : Minimize.Engines := {|
  Minimize.oemol := list nat;
  Minimize.oeconf := nat;
  Minimize.charges := unit;
  Minimize.coordinates := nat;
  Minimize.energy := nat;
  Minimize.omm_system := unit;
  Minimize.amber_files := nat;
  Minimize.GetOEMols := λ _, [[10; 7]; [0]; [9; 30]]%nat;
  Minimize.perceive := λ m, m;
  Minimize.get_charges := λ m,
    if bool_decide (0%nat ∈ m) then Raise RuntimeError else Ok ();
  Minimize.stereo_from_3d := λ m, m;
  Minimize.GetConfs := λ m, m;
  Minimize.OE3DToInternalStereo := λ c, c;
  Minimize.SetPartialCharges := λ _ c, c;
  Minimize.SetCoords := λ _ xyz, xyz;
  Minimize.szybki := λ _ c, (Nat.even c, Nat.div2 c, c);
  Minimize.create_openmm_system := λ c _,
    if bool_decide (c = 7%nat) then Raise Exception else Ok ();
  Minimize.run_openmm := λ _ c,
    if bool_decide (c = 9%nat) then Raise ValueError else Ok (Nat.div2 c, c);
  Minimize.molecule_to_mol2 := λ c, Ok c;
  Minimize.run_antechamber := λ _ f,
    if bool_decide (f = 7%nat) then Raise Exception else Ok f;
  Minimize.amber_system := λ _ _, Ok ()
|}.

(** A directory in which only [in.sdf] can be read, where [in.sdf] and
    [old.sdf] exist, and where any file can be written. *)
Definition directory : Minimize.files :=
  {| Minimize.opens_for_reading := λ path, bool_decide (path = "in.sdf");
     Minimize.path_exists := λ path, bool_decide (path ∈ ["in.sdf"; "old.sdf"]);
     Minimize.opens_for_writing := λ _, true |}.

(** The molecules [mols_dict] converts to, and those that are left after
    deduplication. *)
Definition sample_off_mols : list off_molecule :=
  (λ kv, Tailed.structure kv.2) <$> mols_dict.

Definition sample_kept : list off_molecule :=
  Tailed.first_occurrences [] sample_off_mols.

Definition sample_ff : forcefield := "openff.offxml".

Definition sample_params
  : gmap string (list string) * gmap string (list string) :=
  (list_to_map ((λ m, (iso m, params m)) <$> sample_kept), by_ID sample_kept).

(** The dictionaries of an analysis: the full set is the sample molecule
    set; the outlier set holds its last molecule, or nothing. *)
Definition data_all : Tailed.data :=
  {| Tailed.count := 4; Tailed.mols_dict := mols_dict;
     Tailed.params_mol := sample_params.1;
     Tailed.params_id := sample_params.2;
     Tailed.smi_dict :=
       [("CO", "OC"); ("CC", "CC"); ("FC(Cl)Br", "C(F)(Cl)Br")] |}.

Definition data_one_outlier : Tailed.data :=
  {| Tailed.count := 1;
     Tailed.mols_dict := [entry "C(F)(Cl)Br" "FC(Cl)Br" "undefined" 4 ["b3"]];
     Tailed.params_mol := {[ "FC(Cl)Br" := ["b3"] ]};
     Tailed.params_id := {[ "b3" := ["FC(Cl)Br"] ]};
     Tailed.smi_dict := [("FC(Cl)Br", "C(F)(Cl)Br")] |}.

(** The outlier set with the first and the last molecule. *)
Definition data_two_outliers : Tailed.data :=
  {| Tailed.count := 2;
     Tailed.mols_dict :=
       [ entry "C(O)" "CO" "" 1 ["b1"; "n2"];
         entry "C(F)(Cl)Br" "FC(Cl)Br" "undefined" 4 ["b3"] ];
     Tailed.params_mol := {[ "CO" := ["b1"; "n2"]; "FC(Cl)Br" := ["b3"] ]};
     Tailed.params_id :=
       {[ "b1" := ["CO"]; "n2" := ["CO"]; "b3" := ["FC(Cl)Br"] ]};
     Tailed.smi_dict := [("CO", "C(O)"); ("FC(Cl)Br", "C(F)(Cl)Br")] |}.

Definition data_no_outlier : Tailed.data :=
  {| Tailed.count := 0; Tailed.mols_dict := [];
     Tailed.params_mol := ∅; Tailed.params_id := ∅;
     Tailed.smi_dict := [] |}.

End Sample.

(* ================================================================== *)
(** * Properties *)
(* ================================================================== *)

(** ** Ordered dictionaries *)

Section od_facts.
Context {V : Type}.
Implicit Types (d : list (string * V)) (k : string) (v : V).

Lemma od_get_set_eq d k v : od_get k (od_set k v d) = Some v.
Proof.
  induction d as [|[k' v'] d IH]; simpl.
  - by rewrite decide_True.
  - destruct (decide (k' = k)) as [->|Hne]; simpl.
    + by rewrite decide_True.
    + by rewrite decide_False.
Qed.

Lemma od_get_set_ne d k k' v : k ≠ k' → od_get k' (od_set k v d) = od_get k' d.
Proof.
  intros Hne. induction d as [|[k0 v0] d IH]; simpl.
  - by rewrite decide_False.
  - destruct (decide (k0 = k)) as [->|Hk]; simpl.
    + by rewrite !decide_False.
    + by rewrite IH.
Qed.

Lemma od_keys_set d k v :
  od_keys (od_set k v d) =
    if decide (k ∈ od_keys d) then od_keys d else od_keys d ++ [k].
Proof.
  unfold od_keys. induction d as [|[k' v'] d IH]; csimpl.
  - done.
  - destruct (decide (k' = k)) as [->|Hk]; csimpl.
    + by rewrite decide_True by left.
    + rewrite IH. destruct (decide (k ∈ d.*1)) as [Hin|Hin].
      * by rewrite decide_True by (by right).
      * rewrite decide_False; [done|].
        rewrite elem_of_cons. naive_solver.
Qed.

Lemma od_keys_set_elem d k k' v :
  k' ∈ od_keys (od_set k v d) ↔ k' = k ∨ k' ∈ od_keys d.
Proof.
  rewrite od_keys_set. case_decide; [|rewrite elem_of_app, list_elem_of_singleton];
    naive_solver.
Qed.

Lemma od_set_NoDup d k v : NoDup (od_keys d) → NoDup (od_keys (od_set k v d)).
Proof.
  intros Hnd. rewrite od_keys_set. case_decide; [done|].
  apply NoDup_app. split_and!; [done| |apply NoDup_singleton].
  intros x Hx ->%list_elem_of_singleton. done.
Qed.

Lemma od_set_length d k v :
  length (od_set k v d) =
    if decide (k ∈ od_keys d) then length d else S (length d).
Proof.
  rewrite <-(length_fmap fst (od_set k v d)), <-(length_fmap fst d).
  fold (od_keys (od_set k v d)). rewrite od_keys_set.
  case_decide; [done|]. rewrite length_app. simpl. unfold od_keys. lia.
Qed.

Lemma od_set_elem d k v k' v' :
  (k', v') ∈ od_set k v d → (k' = k ∧ v' = v) ∨ (k', v') ∈ d.
Proof.
  induction d as [|[k0 v0] d IH]; simpl.
  - intros [=]%list_elem_of_singleton. naive_solver.
  - destruct (decide (k0 = k)) as [->|Hk]; rewrite !elem_of_cons; naive_solver.
Qed.

Lemma od_get_elem d k v : od_get k d = Some v → (k, v) ∈ d.
Proof.
  induction d as [|[k0 v0] d IH]; simpl; [done|].
  destruct (decide (k0 = k)) as [->|Hk]; rewrite elem_of_cons; naive_solver.
Qed.

Lemma od_elem_get d k v : NoDup (od_keys d) → (k, v) ∈ d → od_get k d = Some v.
Proof.
  unfold od_keys. induction d as [|[k0 v0] d IH]; simpl.
  - by intros _ ?%elem_of_nil.
  - intros [Hk0 Hnd]%NoDup_cons [[= -> ->]|Hin]%elem_of_cons.
    + by rewrite decide_True.
    + rewrite decide_False; [by apply IH|].
      intros ->. apply Hk0. apply list_elem_of_fmap. by exists (k, v).
Qed.

Lemma od_get_keys d k : is_Some (od_get k d) ↔ k ∈ od_keys d.
Proof.
  unfold od_keys. induction d as [|[k0 v0] d IH]; simpl.
  - split; [by intros [? ?]|by intros ?%elem_of_nil].
  - destruct (decide (k0 = k)) as [->|Hk]; rewrite elem_of_cons;
      [naive_solver|]. rewrite IH. naive_solver.
Qed.

Lemma od_extend_NoDup kvs d : NoDup (od_keys d) → NoDup (od_keys (od_extend d kvs)).
Proof.
  revert d. induction kvs as [|[k v] kvs IH]; intros d Hd; simpl; [done|].
  apply IH. by apply od_set_NoDup.
Qed.

Lemma od_extend_keys kvs d k :
  k ∈ od_keys (od_extend d kvs) ↔ k ∈ od_keys d ∨ k ∈ kvs.*1.
Proof.
  revert d. induction kvs as [|[k0 v0] kvs IH]; intros d; simpl.
  - rewrite elem_of_nil. naive_solver.
  - change (k ∈ od_keys (od_extend (od_set k0 v0 d) kvs) ↔
            k ∈ od_keys d ∨ k ∈ (k0, v0).1 :: kvs.*1).
    rewrite IH, od_keys_set_elem, elem_of_cons. naive_solver.
Qed.

Lemma od_extend_elem kvs d k v :
  (k, v) ∈ od_extend d kvs → (k, v) ∈ d ∨ (k, v) ∈ kvs.
Proof.
  revert d. induction kvs as [|[k0 v0] kvs IH]; intros d; simpl; [by left|].
  intros [Hin|Hin]%IH; [|right; by right].
  apply od_set_elem in Hin as [[-> ->]|Hin]; [right; by left|by left].
Qed.

Lemma od_extend_length kvs d : (length (od_extend d kvs) ≤ length d + length kvs)%nat.
Proof.
  revert d. induction kvs as [|[k0 v0] kvs IH]; intros d; simpl; [lia|].
  etrans; [apply IH|]. rewrite od_set_length. case_decide; lia.
Qed.

Lemma od_extend_get_notin kvs d k :
  k ∉ kvs.*1 → od_get k (od_extend d kvs) = od_get k d.
Proof.
  revert d. induction kvs as [|[k0 v0] kvs IH]; intros d; csimpl; [done|].
  intros [Hne Hk]%not_elem_of_cons.
  change (od_get k (od_extend (od_set k0 v0 d) kvs) = od_get k d).
  rewrite IH by done. by apply od_get_set_ne.
Qed.

(** The value under a key is the one written last. *)
Lemma od_extend_get_last kvs kvs' d k v :
  k ∉ kvs'.*1 → od_get k (od_extend d (kvs ++ (k, v) :: kvs')) = Some v.
Proof.
  intros Hk. unfold od_extend. rewrite foldl_app. simpl.
  change (od_get k (od_extend (od_set k v (od_extend d kvs)) kvs') = Some v).
  rewrite od_extend_get_notin by done. apply od_get_set_eq.
Qed.

Lemma py_dict_zip_last (ks : list string) (vs : list V) i k v :
  ks !! i = Some k → vs !! i = Some v →
  (∀ j, (i < j)%nat → ks !! j ≠ Some k) →
  od_get k (py_dict (zip ks vs)) = Some v.
Proof.
  intros Hk Hv Hlast. unfold py_dict.
  assert (zip ks vs !! i = Some (k, v)) as Hkv.
  { apply lookup_zip_with_Some. by exists k, v. }
  rewrite <-(take_drop_middle _ _ _ Hkv). apply od_extend_get_last.
  intros ([k' v'] & Heq & Hin)%list_elem_of_fmap. simpl in Heq. subst k'.
  apply list_elem_of_lookup in Hin as [j Hj]. rewrite lookup_drop in Hj.
  apply lookup_zip_with_Some in Hj as (k1 & v1 & [= <- <-] & Hk1 & _).
  apply (Hlast (S i + j)%nat); [lia|done].
Qed.
End od_facts.

(** ** The read loop of [tailed_parameters] *)

Section for_each_facts.
Context {A S : Type}.

Lemma for_each_app (body : S → A → res S) l1 l2 acc :
  for_each body (l1 ++ l2) acc = acc' ← for_each body l1 acc; for_each body l2 acc'.
Proof.
  revert acc. induction l1 as [|x l1 IH]; intros acc; simpl; [done|].
  destruct (body acc x); simpl; [apply IH|done].
Qed.

Lemma for_each_nested {B} (inner : B → list A) (body : S → A → res S) l acc :
  for_each (λ st b, for_each body (inner b) st) l acc =
  for_each body (l ≫= inner) acc.
Proof.
  revert acc. induction l as [|b l IH]; intros acc; csimpl; [done|].
  rewrite for_each_app. destruct (for_each body (inner b) acc); simpl; [apply IH|done].
Qed.
End for_each_facts.

Section partitioner_facts.
Context `{Python} `{OEChem}.
Import Tailed.
Implicit Types (st : read_state) (conf : oeconf) (cutoff : float)
  (tag tag_smiles : string).

(** One conformer whose metric parses: what the loop body does. *)
Lemma read_conf_ok cutoff tag tag_smiles st conf v :
  py_float (OEGetSDData conf tag) = Ok v →
  read_conf cutoff tag tag_smiles st conf =
    Ok {| all_smiles := all_smiles st ++ [OEGetSDData conf tag_smiles];
          mols_all := od_extend (mols_all st) [all_entry tag_smiles conf];
          mols_out :=
            od_extend (mols_out st)
              (option_list (out_entry cutoff tag tag_smiles conf));
          count_all := count_all st + 1;
          count_out :=
            count_out st + (if is_outlier cutoff tag conf then 1 else 0) |}.
Proof.
  intros Hv. unfold read_conf, out_entry, is_outlier. rewrite Hv. simpl.
  destruct (float_ge v cutoff); simpl; [done|]. by rewrite Z.add_0_r.
Qed.

(** The loop over conformers that all parse, from any state. *)
Lemma read_confs_ok cutoff tag tag_smiles confs st :
  Forall (λ c, ∃ v, py_float (OEGetSDData c tag) = Ok v) confs →
  for_each (read_conf cutoff tag tag_smiles) confs st =
    Ok {| all_smiles := all_smiles st ++ ((λ c, OEGetSDData c tag_smiles) <$> confs);
          mols_all := od_extend (mols_all st) (all_entry tag_smiles <$> confs);
          mols_out :=
            od_extend (mols_out st) (omap (out_entry cutoff tag tag_smiles) confs);
          count_all := count_all st + Z.of_nat (length confs);
          count_out :=
            count_out st +
            Z.of_nat (length (filter (λ c, is_outlier cutoff tag c) confs)) |}.
Proof.
  intros Hall. revert st. induction Hall as [|c confs [v Hv] _ IH]; intros st.
  - simpl. rewrite app_nil_r, !Z.add_0_r. by destruct st.
  - simpl. rewrite (read_conf_ok _ _ _ _ _ v Hv). simpl. rewrite IH. simpl.
    f_equal. f_equal.
    + by rewrite <-app_assoc.
    + by destruct (out_entry cutoff tag tag_smiles c).
    + lia.
    + rewrite filter_cons. destruct (is_outlier cutoff tag c); simpl; lia.
Qed.

(** A conformer has an entry in [mols_out] exactly when it passes the test
    of line 210. *)
Lemma out_entry_is_outlier cutoff tag tag_smiles conf :
  is_Some (out_entry cutoff tag tag_smiles conf) ↔ is_outlier cutoff tag conf = true.
Proof.
  unfold out_entry, is_outlier.
  destruct (py_float (OEGetSDData conf tag)) as [v|].
  - destruct (float_ge v cutoff); split; (done || by intros [? ?] || eauto).
  - split; [by intros [? ?]|done].
Qed.

Lemma out_entries_length cutoff tag tag_smiles (confs : list oeconf) :
  length (omap (out_entry cutoff tag tag_smiles) confs) =
  length (filter (λ c, is_outlier cutoff tag c) confs).
Proof.
  induction confs as [|c confs IH]; [done|].
  rewrite filter_cons. csimpl.
  pose proof (out_entry_is_outlier cutoff tag tag_smiles c) as Hiff.
  destruct (is_outlier cutoff tag c); simpl.
  - destruct (proj2 Hiff eq_refl) as [e ->]. simpl. by rewrite IH.
  - destruct (out_entry cutoff tag tag_smiles c) as [e|]; [|done].
    assert (false = true) by (apply Hiff; eauto). done.
Qed.
End partitioner_facts.

Section partitioner_claims.
Context `{Python} `{OEChem}.
Import Tailed.

(** C1. Soundness and completeness of the metric-based partition. When the
    metric of every conformer parses, the read loop ends normally; [mols_out]
    is built from exactly the conformers whose metric is [>=] the cutoff (and
    [mols_all] from all of them); every record of [mols_out] is the record of
    a conformer with metric [>=] the cutoff, with that metric retained; a
    SMILES is a key of [mols_out] exactly when some conformer with that
    SMILES has metric [>=] the cutoff; the SMILES of every conformer is a key
    of [mols_all]. *)
Theorem partition_sound_complete (cutoff : float) (tag tag_smiles : string)
    (mols : list oemol) :
  Forall (λ c, ∃ v, py_float (OEGetSDData c tag) = Ok v) (all_confs mols) →
  ∃ st, read_loop cutoff tag tag_smiles mols = Ok st ∧
    mols_out st =
      py_dict (omap (out_entry cutoff tag tag_smiles) (all_confs mols)) ∧
    mols_all st = py_dict (all_entry tag_smiles <$> all_confs mols) ∧
    (∀ k r, (k, r) ∈ mols_out st →
       ∃ c v, c ∈ all_confs mols ∧
         py_float (OEGetSDData c tag) = Ok v ∧ float_ge v cutoff = true ∧
         k = OEGetSDData c tag_smiles ∧
         r = {| metric := Some v; structure := OEGraphMol c |}) ∧
    (∀ k, k ∈ od_keys (mols_out st) ↔
       ∃ c v, c ∈ all_confs mols ∧
         py_float (OEGetSDData c tag) = Ok v ∧ float_ge v cutoff = true ∧
         k = OEGetSDData c tag_smiles) ∧
    (∀ c, c ∈ all_confs mols →
       OEGetSDData c tag_smiles ∈ od_keys (mols_all st)).
Proof.
  intros Hall. eexists. split.
  { unfold read_loop. rewrite for_each_nested. fold (all_confs mols).
    by apply read_confs_ok. }
  simpl. split_and!; [done|done| | |].
  - intros k r [Hin|Hin]%od_extend_elem; [by apply elem_of_nil in Hin|].
    apply list_elem_of_omap in Hin as (c & Hc & Hout).
    unfold out_entry in Hout.
    destruct (py_float (OEGetSDData c tag)) as [v|] eqn:Hv; [|done].
    destruct (float_ge v cutoff) eqn:Hge; [|done].
    injection Hout as <- <-. by exists c, v.
  - intros k. rewrite od_extend_keys. split.
    + intros [Hin|Hin]; [by apply elem_of_nil in Hin|].
      apply list_elem_of_fmap in Hin as ([k' r] & -> & Hin).
      apply list_elem_of_omap in Hin as (c & Hc & Hout).
      unfold out_entry in Hout.
      destruct (py_float (OEGetSDData c tag)) as [v|] eqn:Hv; [|done].
      destruct (float_ge v cutoff) eqn:Hge; [|done].
      injection Hout as <- <-. by exists c, v.
    + intros (c & v & Hc & Hv & Hge & ->). right.
      apply list_elem_of_fmap.
      exists (OEGetSDData c tag_smiles,
              {| metric := Some v; structure := OEGraphMol c |}).
      split; [done|]. apply list_elem_of_omap. exists c. split; [done|].
      unfold out_entry. by rewrite Hv, Hge.
  - intros c Hc. apply od_extend_keys. right.
    apply list_elem_of_fmap. exists (all_entry tag_smiles c). split; [done|].
    by apply list_elem_of_fmap_2.
Qed.

(** C3. The scenario with a repeated SMILES: conformers with SMILES A, A, B,
    C and metrics 2.0, 0.5, 3.0, 0.5 at cutoff 1.0 give [mols_all] the keys
    A, B, C, with the second conformer stored under A, and [count_all = 4];
    [mols_out] has the keys A, B, with metric 2.0 kept under A, and
    [count_out = 2]. In general the two counts are the number of conformers
    processed and the number of those with metric [>=] the cutoff, and the
    mappings have at most that many keys. *)
Theorem partition_duplicate_smiles (tag tag_smiles : string) :
  (∀ (cutoff : float) (mols : list oemol),
     Forall (λ c, ∃ v, py_float (OEGetSDData c tag) = Ok v) (all_confs mols) →
     ∃ st, read_loop cutoff tag tag_smiles mols = Ok st ∧
       count_all st = Z.of_nat (length (all_confs mols)) ∧
       count_out st =
         Z.of_nat (length (filter (λ c, is_outlier cutoff tag c) (all_confs mols))) ∧
       all_smiles st = (λ c, OEGetSDData c tag_smiles) <$> all_confs mols ∧
       NoDup (od_keys (mols_all st)) ∧ NoDup (od_keys (mols_out st)) ∧
       Z.of_nat (length (mols_all st)) ≤ count_all st ∧
       Z.of_nat (length (mols_out st)) ≤ count_out st) ∧
  (∀ (mols : list oemol) (c1 c2 c3 c4 : oeconf),
     all_confs mols = [c1; c2; c3; c4] →
     (λ c, OEGetSDData c tag_smiles) <$> [c1; c2; c3; c4] = ["A"; "A"; "B"; "C"] →
     (λ c, py_float (OEGetSDData c tag)) <$> [c1; c2; c3; c4] =
       [Ok 2%float; Ok 0.5%float; Ok 3%float; Ok 0.5%float] →
     ∃ st, read_loop 1%float tag tag_smiles mols = Ok st ∧
       od_keys (mols_all st) = ["A"; "B"; "C"] ∧
       od_get "A" (mols_all st) =
         Some {| metric := None; structure := OEGraphMol c2 |} ∧
       count_all st = 4 ∧
       od_keys (mols_out st) = ["A"; "B"] ∧
       od_get "A" (mols_out st) =
         Some {| metric := Some 2%float; structure := OEGraphMol c1 |} ∧
       count_out st = 2 ∧
       (length (mols_all st) < Z.to_nat (count_all st))%nat).
Proof.
  split.
  - intros cutoff mols Hall. eexists. split.
    { unfold read_loop. rewrite for_each_nested. fold (all_confs mols).
      by apply read_confs_ok. }
    simpl. split_and!; [done|done|done| | | |].
    + by apply od_extend_NoDup, NoDup_nil.
    + by apply od_extend_NoDup, NoDup_nil.
    + etrans; [apply inj_le, od_extend_length|].
      simpl. rewrite length_fmap. lia.
    + etrans; [apply inj_le, od_extend_length|]. simpl.
      by rewrite out_entries_length.
  - intros mols c1 c2 c3 c4 Hconfs Hsmiles Hvalues.
    injection Hsmiles as Hs1 Hs2 Hs3 Hs4.
    injection Hvalues as Hv1 Hv2 Hv3 Hv4.
    eexists. split.
    { unfold read_loop. rewrite for_each_nested. fold (all_confs mols).
      apply read_confs_ok. rewrite Hconfs. repeat constructor; eauto. }
    rewrite Hconfs. csimpl. unfold out_entry, all_entry.
    rewrite Hs1, Hs2, Hs3, Hs4, Hv1, Hv2, Hv3, Hv4.
    split_and!; try reflexivity.
    + rewrite !filter_cons, filter_nil. unfold is_outlier.
      by rewrite Hv1, Hv2, Hv3, Hv4.
    + apply Nat.ltb_lt. reflexivity.
Qed.
End partitioner_claims.

(** A metric that is no number stops the loop. *)
Example read_loop_bad_metric :
  Tailed.read_loop 1%float "RMSD" "SMILES"
    [[Sample.scenario_conf "A" "2.0" 1; Sample.scenario_conf "B" "n/a" 2]] =
  Raise ValueError.
Proof. reflexivity. Qed.

(** The read loop on the sample conformers: every metric parses, and the
    outlier mapping is the one C1 describes. *)
Lemma partition_sound_complete_witness :
  Forall (λ c, ∃ v, py_float (OEGetSDData c "RMSD") = Ok v)
    (Tailed.all_confs Sample.scenario_mols) ∧
  ∃ st, Tailed.read_loop 1%float "RMSD" "SMILES" Sample.scenario_mols = Ok st ∧
    od_keys (Tailed.mols_out st) = ["A"; "B"].
Proof.
  assert (Hparse : Forall (λ c, ∃ v, py_float (OEGetSDData c "RMSD") = Ok v)
            (Tailed.all_confs Sample.scenario_mols)).
  { repeat constructor; eexists; vm_compute; reflexivity. }
  split; [exact Hparse|].
  destruct (partition_sound_complete 1%float "RMSD" "SMILES"
              Sample.scenario_mols Hparse) as (st & Hst & Hout & _).
  exists st. split; [exact Hst|]. rewrite Hout. vm_compute. reflexivity.
Defined.

(** The scenario of C3 on the sample conformers. *)
Lemma partition_duplicate_smiles_witness :
  ∃ st, Tailed.read_loop 1%float "RMSD" "SMILES" Sample.scenario_mols = Ok st ∧
    Tailed.count_all st = 4 ∧ Tailed.count_out st = 2 ∧
    od_keys (Tailed.mols_all st) = ["A"; "B"; "C"] ∧
    od_keys (Tailed.mols_out st) = ["A"; "B"].
Proof.
  destruct (proj2 (partition_duplicate_smiles "RMSD" "SMILES")
              Sample.scenario_mols
              (Sample.scenario_conf "A" "2.0" 1) (Sample.scenario_conf "A" "0.5" 2)
              (Sample.scenario_conf "B" "3.0" 3) (Sample.scenario_conf "C" "0.5" 4))
    as (st & Hst & Hka & _ & Hca & Hko & _ & Hco & _).
  - reflexivity.
  - reflexivity.
  - vm_compute. reflexivity.
  - exists st. by repeat split.
Defined.

(** ** Sorting *)

Section sort_facts.
Context {A K : Type} (key : A → K).

Lemma sort_insert_total (lt : K → K → res bool) (ltb : K → K → bool) x l :
  (∀ a b, lt (key a) (key b) = Ok (ltb (key a) (key b))) →
  sort_insert key lt x l = Ok (insert_total key ltb x l).
Proof.
  intros Hlt. induction l as [|y l IH]; simpl; [done|].
  rewrite Hlt. simpl. destruct (ltb (key y) (key x)); [|done].
  by rewrite IH.
Qed.

Lemma py_sorted_total (lt : K → K → res bool) (ltb : K → K → bool) l :
  (∀ a b, lt (key a) (key b) = Ok (ltb (key a) (key b))) →
  py_sorted key lt l = Ok (sort_total key ltb l).
Proof.
  intros Hlt. induction l as [|x l IH]; simpl; [done|].
  rewrite IH. simpl. by apply sort_insert_total.
Qed.

Context (ltb : K → K → bool).

Lemma insert_total_perm x l : insert_total key ltb x l ≡ₚ x :: l.
Proof.
  induction l as [|y l IH]; simpl; [done|].
  destruct (ltb (key y) (key x)); [|done].
  rewrite IH. apply Permutation_swap.
Qed.

Lemma sort_total_perm l : sort_total key ltb l ≡ₚ l.
Proof.
  induction l as [|x l IH]; simpl; [done|].
  by rewrite insert_total_perm, IH.
Qed.

Local Notation not_after := (not_after key ltb).
Context (ltb_asym : ∀ a b, ltb (key a) (key b) = true → ltb (key b) (key a) = false).
Context (not_after_trans : ∀ a b c, not_after a b → not_after b c → not_after a c).

Lemma insert_total_sorted x l :
  StronglySorted not_after l → StronglySorted not_after (insert_total key ltb x l).
Proof.
  induction 1 as [|y l Hl IH Hy]; simpl.
  - by repeat constructor.
  - destruct (ltb (key y) (key x)) eqn:Hyx.
    + constructor; [done|]. rewrite insert_total_perm.
      constructor; [|done]. by apply ltb_asym.
    + constructor; [by constructor|]. constructor; [done|].
      eapply Forall_impl; [exact Hy|]. intros z Hz.
      by apply (not_after_trans x y z).
Qed.

Lemma sort_total_sorted l : StronglySorted not_after (sort_total key ltb l).
Proof.
  induction l as [|x l IH]; simpl; [constructor|].
  by apply insert_total_sorted.
Qed.

Context `{EqDecision K}.
Context (ltb_irrefl : ∀ a b, key a = key b → ltb (key a) (key b) = false).

Lemma insert_total_stable k x l :
  filter (λ a, key a = k) (insert_total key ltb x l) =
  filter (λ a, key a = k) (x :: l).
Proof.
  induction l as [|y l IH]; simpl; [done|].
  destruct (ltb (key y) (key x)) eqn:Hyx; [|done].
  rewrite filter_cons, IH, !filter_cons.
  destruct (decide (key y = k)) as [Hy|Hy], (decide (key x = k)) as [Hx|Hx];
    try done.
  rewrite ltb_irrefl in Hyx by congruence. done.
Qed.

(** Elements with the same key keep their order. *)
Lemma sort_total_stable k l :
  filter (λ a, key a = k) (sort_total key ltb l) = filter (λ a, key a = k) l.
Proof.
  induction l as [|x l IH]; simpl; [done|].
  by rewrite insert_total_stable, !filter_cons, IH.
Qed.
End sort_facts.

(** ** Natural keys *)

Section natural_keys_facts.
Import Tailed.
Local Arguments is_digit : simpl never.

Lemma string_compare_eq (a b : string) : String.compare a b = Eq ↔ a = b.
Proof. apply OrderedTypeEx.String_as_OT.cmp_eq. Qed.

Lemma string_compare_trans c (a b d : string) :
  String.compare a b = c → String.compare b d = c → String.compare a d = c.
Proof.
  assert (Hlt : ∀ x y z : string,
    String.compare x y = Lt → String.compare y z = Lt → String.compare x z = Lt).
  { intros x y z Hxy Hyz.
    apply OrderedTypeEx.String_as_OT.cmp_lt.
    eapply OrderedTypeEx.String_as_OT.lt_trans;
      by apply OrderedTypeEx.String_as_OT.cmp_lt. }
  destruct c.
  - rewrite !string_compare_eq. congruence.
  - apply Hlt.
  - intros Hab Hbd.
    assert (String.compare b a = Lt) as Hba.
    { pose proof (String.compare_antisym a b) as E. rewrite Hab in E.
      by destruct (String.compare b a). }
    assert (String.compare d b = Lt) as Hdb.
    { pose proof (String.compare_antisym b d) as E. rewrite Hbd in E.
      by destruct (String.compare d b). }
    by rewrite (String.compare_antisym a d), (Hlt d b a).
Qed.

Lemma part_cmp_eq x y : part_cmp x y = Eq ↔ x = y.
Proof.
  destruct x as [a|a], y as [b|b]; simpl; try (split; discriminate).
  - rewrite string_compare_eq. split; congruence.
  - rewrite Z.compare_eq_iff. split; congruence.
Qed.

Lemma part_cmp_antisym x y : part_cmp y x = CompOpp (part_cmp x y).
Proof.
  destruct x as [a|a], y as [b|b]; simpl; try done.
  - apply String.compare_antisym.
  - apply Z.compare_antisym.
Qed.

Lemma part_cmp_trans x y z c :
  part_cmp x y = c → part_cmp y z = c → part_cmp x z = c.
Proof.
  destruct x as [a|a], y as [b|b], z as [d|d]; simpl; try congruence.
  - apply string_compare_trans.
  - destruct c; rewrite ?Z.compare_eq_iff, ?Z.compare_lt_iff, ?Z.compare_gt_iff; lia.
Qed.

Lemma key_cmp_eq k1 k2 : key_cmp k1 k2 = Eq ↔ k1 = k2.
Proof. apply list_compare_refl, part_cmp_eq. Qed.

Lemma key_cmp_antisym k1 k2 : key_cmp k2 k1 = CompOpp (key_cmp k1 k2).
Proof. apply list_compare_antisym; [apply part_cmp_eq|apply part_cmp_antisym]. Qed.

Lemma key_cmp_trans k1 k2 k3 c :
  key_cmp k1 k2 = c → key_cmp k2 k3 = c → key_cmp k1 k3 = c.
Proof.
  apply list_compare_trans;
    [apply part_cmp_eq|apply part_cmp_trans|apply part_cmp_antisym].
Qed.

Lemma key_ltb_asym k1 k2 : key_ltb k1 k2 = true → key_ltb k2 k1 = false.
Proof.
  unfold key_ltb. rewrite (key_cmp_antisym k1 k2).
  by destruct (key_cmp k1 k2).
Qed.

Lemma key_ltb_irrefl k1 k2 : k1 = k2 → key_ltb k1 k2 = false.
Proof. intros Heq%key_cmp_eq. unfold key_ltb. by rewrite Heq. Qed.

Lemma key_not_after_trans k1 k2 k3 :
  key_ltb k2 k1 = false → key_ltb k3 k2 = false → key_ltb k3 k1 = false.
Proof.
  unfold key_ltb. intros H21 H32.
  destruct (key_cmp k2 k1) eqn:E21; [| done |].
  - apply key_cmp_eq in E21 as ->. done.
  - destruct (key_cmp k3 k2) eqn:E32; [| done |].
    + apply key_cmp_eq in E32 as ->. by rewrite E21.
    + by rewrite (key_cmp_trans k3 k2 k1 Gt).
Qed.

(** On keys of the same shape [key_lt] does not raise and is [key_ltb]. *)
Lemma key_lt_shape b k1 k2 :
  key_shape b k1 = true → key_shape b k2 = true →
  key_lt k1 k2 = Ok (key_ltb k1 k2).
Proof.
  unfold key_ltb, key_cmp. revert b k2.
  induction k1 as [|x k1 IH]; intros b [|y k2]; simpl; try done.
  case_bool_decide as Hxy.
  - subst y. rewrite (proj2 (part_cmp_eq x x) eq_refl).
    destruct x; destruct b; simpl; try done; eauto.
  - pose proof (part_cmp_eq x y) as Heq.
    destruct x as [a|a], y as [c|c]; destruct b; simpl; try done; intros _ _.
    + unfold String.ltb. simpl in Heq.
      destruct (String.compare a c); try done. naive_solver.
    + unfold Z.ltb. simpl in Heq.
      destruct (a ?= c); try done. naive_solver.
Qed.

Lemma no_digits_not_isdigit s : no_digits s = true → isdigit s = false.
Proof.
  unfold isdigit, no_digits, all_digits. destruct s as [|c s]; [done|].
  simpl. intros [Hc _]%andb_prop. apply negb_true_iff in Hc. by rewrite Hc.
Qed.

Lemma split_shape_inner s l :
  split_shape true (s :: l) = true → s ≠ EmptyString →
  split_shape false (s :: l) = true.
Proof.
  destruct l as [|d l]; simpl; [done|].
  intros Hs Hne. by rewrite bool_decide_false.
Qed.

Lemma split_shape_head s s' l :
  split_shape true (s :: l) = true → no_digits s' = true →
  split_shape true (s' :: l) = true.
Proof.
  destruct l as [|d l]; simpl; [done|].
  intros Hs Hs'. rewrite Hs'. simpl.
  by apply andb_prop in Hs as [[_ ->]%andb_prop ->].
Qed.

Lemma isdigit_cons c d :
  is_digit c = true → all_digits d = true → isdigit (String c d) = true.
Proof. unfold isdigit, all_digits. simpl. by intros -> ->. Qed.

Lemma isdigit_all_digits d : isdigit d = true → all_digits d = true.
Proof. unfold isdigit. by intros [_ ?]%andb_prop. Qed.

Lemma no_digits_cons c s :
  is_digit c = false → no_digits s = true → no_digits (String c s) = true.
Proof. unfold no_digits. simpl. by intros -> ->. Qed.

Lemma split_shape_step first s d l :
  split_shape first (s :: d :: l) =
  no_digits s && (first || negb (bool_decide (s = EmptyString))) &&
  isdigit d && split_shape false l.
Proof. done. Qed.

(** The split has the shape of the result of [re.split]. *)
Lemma re_split_shape text : split_shape true (re_split_digits text) = true.
Proof.
  induction text as [|c rest IH]; [done|]. simpl.
  destruct (re_split_digits rest) as [|s0 tl]; [done|].
  destruct (is_digit c) eqn:Hc.
  - destruct s0 as [|a s0].
    + destruct tl as [|d tl].
      { cbn [split_shape]. by rewrite isdigit_cons. }
      cbn [split_shape] in IH |- *.
      apply andb_prop in IH as [[_ Hd]%andb_prop Htl].
      by rewrite isdigit_cons, Htl by auto using isdigit_all_digits.
    + rewrite split_shape_step, isdigit_cons by done.
      by rewrite (split_shape_inner _ _ IH).
  - apply (split_shape_head s0); [done|].
    apply no_digits_cons; [done|].
    destruct tl as [|d tl]; cbn [split_shape] in IH; [done|].
    by apply andb_prop in IH as [[[Hs0 _]%andb_prop _]%andb_prop _].
Qed.

(** Nothing is lost: the runs, put together again, are the text. *)
Lemma re_split_concat text :
  String.concat EmptyString (re_split_digits text) = text.
Proof.
  induction text as [|c rest IH]; [done|]. simpl.
  destruct (re_split_digits rest) as [|s0 tl]; [by simpl in IH; subst|].
  destruct (is_digit c).
  - destruct s0 as [|a s0].
    + destruct tl as [|d tl]; [by simpl in IH; subst|].
      simpl in IH |- *. subst rest. by destruct tl.
    + change (String.concat EmptyString
        (EmptyString :: String c EmptyString :: String a s0 :: tl) = String c rest).
      simpl in IH |- *. by rewrite IH.
  - destruct tl as [|d tl]; simpl in IH |- *; by subst.
Qed.

Lemma list_pair_ind {A} (P : list A → Prop) :
  P [] → (∀ x, P [x]) → (∀ x y l, P l → P (x :: y :: l)) → ∀ l, P l.
Proof.
  intros Hnil Hone Hstep.
  assert (∀ l, P l ∧ ∀ x, P (x :: l)) as Hboth.
  { induction l as [|y l [IH1 IH2]]; [by split|]. split; [apply IH2|].
    intros x. by apply Hstep. }
  intros l. apply Hboth.
Qed.

Lemma atoi_shape b l :
  split_shape b l = true → key_shape true (atoi <$> l) = true.
Proof.
  revert b. induction l as [|s|s d l IH] using list_pair_ind; intros b; [done| |].
  - simpl. intros Hs%no_digits_not_isdigit. unfold atoi. by rewrite Hs.
  - cbn [split_shape]. intros [[[Hs _]%andb_prop Hd]%andb_prop Hl]%andb_prop.
    csimpl. unfold atoi at 1 2.
    rewrite (no_digits_not_isdigit _ Hs), Hd. simpl. by apply (IH false).
Qed.

Lemma natural_keys_shape text : key_shape true (natural_keys text) = true.
Proof. apply (atoi_shape true), re_split_shape. Qed.

Lemma natural_keys_lt a b :
  key_lt (natural_keys a) (natural_keys b) =
  Ok (key_ltb (natural_keys a) (natural_keys b)).
Proof. apply (key_lt_shape true); apply natural_keys_shape. Qed.

(** The sort by natural keys never raises. *)
Lemma natural_sort_total l :
  natural_sort l = Ok (sort_total natural_keys key_ltb l).
Proof. apply py_sorted_total, natural_keys_lt. Qed.
End natural_keys_facts.

(** [re.split] and the keys on a few identifiers. *)
Example re_split_digits_examples :
  Tailed.re_split_digits "a10" = ["a"; "10"; ""] ∧
  Tailed.re_split_digits "10a" = [""; "10"; "a"] ∧
  Tailed.re_split_digits "t12x3" = ["t"; "12"; "x"; "3"; ""] ∧
  Tailed.re_split_digits "NA_total" = ["NA_total"] ∧
  Tailed.re_split_digits "" = [""].
Proof. repeat split. Qed.

(** Identifiers with the same key, such as [a1] and [a01], stay in the order
    they came in. *)
Example natural_sort_equal_keys :
  Tailed.natural_keys "a01" = Tailed.natural_keys "a1" ∧
  Tailed.natural_sort ["b2"; "a01"; "a1"; "a10"] = Ok ["a01"; "a1"; "a10"; "b2"] ∧
  Tailed.natural_sort ["b2"; "a1"; "a01"; "a10"] = Ok ["a1"; "a01"; "a10"; "b2"].
Proof. repeat split. Qed.

Section natural_sort_claims.
Import Tailed.

End natural_sort_claims.

(** ** Deduplication in [get_parameters] *)

Section list_facts.
Context {A : Type}.

Lemma filter_ext_elem (P1 P2 : A → Prop)
    `{!∀ x, Decision (P1 x), !∀ x, Decision (P2 x)} (l : list A) :
  (∀ x, x ∈ l → P1 x ↔ P2 x) → filter P1 l = filter P2 l.
Proof.
  induction l as [|a l IH]; intros Hiff; [done|].
  rewrite !filter_cons, IH by (intros x Hx; apply Hiff; by right).
  destruct (decide (P1 a)) as [H1|H1], (decide (P2 a)) as [H2|H2]; try done;
    exfalso; [apply H2|apply H1]; by apply (Hiff a); [left|].
Qed.

Lemma StronglySorted_mono (R1 R2 : relation A) (l : list A) :
  (∀ a b, R1 a b → R2 a b) → StronglySorted R1 l → StronglySorted R2 l.
Proof.
  intros Himpl. induction 1 as [|x l Hl IH Hx]; constructor; [done|].
  eapply Forall_impl; [exact Hx|]. intros y. apply Himpl.
Qed.

Lemma delete_app_l (l k : list A) i :
  (i < length l)%nat → delete i (l ++ k) = delete i l ++ k.
Proof.
  revert i. induction l as [|x l IH]; intros [|i] Hi; simpl in *; try lia; [done|].
  f_equal. apply IH. lia.
Qed.

Lemma py_del_app (l k r : list A) i :
  Tailed.py_del l i = Ok r → Tailed.py_del (l ++ k) i = Ok (r ++ k).
Proof.
  unfold Tailed.py_del. case_bool_decide as Hi; [|done]. intros [= <-].
  rewrite bool_decide_true by (rewrite length_app; lia).
  by rewrite delete_app_l.
Qed.

Lemma py_del_last (l : list A) x : Tailed.py_del (l ++ [x]) (length l) = Ok l.
Proof.
  unfold Tailed.py_del. rewrite bool_decide_true by (rewrite length_app; simpl; lia).
  by rewrite (delete_middle l [] x), app_nil_r.
Qed.

(** Deleting at indices of a prefix leaves the rest of the list alone. *)
Lemma del_loop_app order (l k r : list A) :
  for_each Tailed.py_del order l = Ok r →
  for_each Tailed.py_del order (l ++ k) = Ok (r ++ k).
Proof.
  revert l. induction order as [|i order IH]; intros l; simpl.
  - by intros [= ->].
  - destruct (Tailed.py_del l i) as [l'|] eqn:Hdel; [|done].
    rewrite (py_del_app _ k _ _ Hdel). simpl. apply IH.
Qed.
End list_facts.

Section sorted_reverse_facts.

Lemma nat_sort_sorted (l : list nat) :
  StronglySorted le (sort_total id Nat.ltb l).
Proof.
  eapply StronglySorted_mono; last apply (sort_total_sorted id Nat.ltb).
  - intros a b. unfold not_after, id. intros Hab%Nat.ltb_ge. done.
  - intros a b. unfold id. rewrite Nat.ltb_lt, Nat.ltb_ge. lia.
  - intros a b c. unfold not_after, id. rewrite !Nat.ltb_ge. lia.
Qed.

(** [sorted(l, reverse=True)] of a strictly increasing list of numbers is
    the list read backwards. *)
Lemma sorted_reverse_increasing (l : list nat) :
  StronglySorted lt l → py_sorted_reverse id int_lt l = Ok (reverse l).
Proof.
  intros Hl. unfold py_sorted_reverse.
  rewrite (py_sorted_total id int_lt Nat.ltb) by done. simpl. do 2 f_equal.
  apply (StronglySorted_unique le).
  - apply nat_sort_sorted.
  - eapply StronglySorted_mono; [|exact Hl]. intros a b. lia.
  - by rewrite sort_total_perm, reverse_Permutation.
Qed.
End sorted_reverse_facts.

Section dedup_facts.
Import Tailed.

Lemma idx_of_duplicates_snoc (iso : list string) (s : string) :
  idx_of_duplicates (iso ++ [s]) =
  idx_of_duplicates iso ++ (if bool_decide (s ∈ iso) then [length iso] else []).
Proof.
  unfold idx_of_duplicates. rewrite imap_app, filter_app, fmap_app. f_equal.
  - f_equal. apply filter_ext_elem.
    intros [i x] (j & y & [= -> ->] & Hj)%elem_of_lookup_imap. simpl.
    rewrite take_app_le; [done|]. apply lookup_lt_Some in Hj. lia.
  - simpl. rewrite filter_cons, filter_nil. simpl.
    rewrite Nat.add_0_r, take_app_length.
    case_decide; case_bool_decide; done.
Qed.

Lemma idx_of_duplicates_increasing (iso : list string) :
  StronglySorted lt (idx_of_duplicates iso) ∧
  Forall (λ i, i < length iso)%nat (idx_of_duplicates iso).
Proof.
  induction iso as [|s iso [IHs IHb]] using rev_ind.
  - split; constructor.
  - rewrite idx_of_duplicates_snoc, length_app. simpl. split.
    + apply StronglySorted_app. split_and!; [|done|].
      * intros i j Hi Hj. rewrite Forall_forall in IHb. apply IHb in Hi.
        case_bool_decide; [|by apply elem_of_nil in Hj].
        apply list_elem_of_singleton in Hj. lia.
      * case_bool_decide; repeat constructor.
    + apply Forall_app. split.
      * eapply Forall_impl; [exact IHb|]. simpl. lia.
      * case_bool_decide; repeat constructor. lia.
Qed.

(** A membership test of an index in the list of duplicates. *)
Lemma idx_of_duplicates_elem (iso : list string) (i : nat) :
  i ∈ idx_of_duplicates iso ↔
  ∃ s j, iso !! i = Some s ∧ (j < i)%nat ∧ iso !! j = Some s.
Proof.
  unfold idx_of_duplicates. rewrite list_elem_of_fmap. split.
  - intros ([i' s] & -> & [Hdup Hin]%list_elem_of_filter). simpl in *.
    apply elem_of_lookup_imap in Hin as (j & y & [= -> ->] & Hj).
    apply elem_of_take in Hdup as (k & Hk & Hlt). by exists y, k.
  - intros (s & j & Hi & Hlt & Hj). exists (i, s). split; [done|].
    apply list_elem_of_filter. split.
    + simpl. apply elem_of_take. by exists j.
    + by apply (elem_of_lookup_imap_2 pair).
Qed.
End dedup_facts.

Section extractor_facts.
Context `{OEChem} `{!OpenFF oegraphmol}.
Import Tailed.
Implicit Types (mols : list off_molecule) (seen : list string).

Lemma first_occurrences_snoc seen mols m :
  first_occurrences seen (mols ++ [m]) =
  first_occurrences seen mols ++
    (if bool_decide (to_smiles m ∈ seen ∨ to_smiles m ∈ to_smiles <$> mols)
     then [] else [m]).
Proof.
  revert seen. induction mols as [|x mols IH]; intros seen; csimpl.
  - case_bool_decide as H1; case_bool_decide as H2; try done.
    + destruct H2. by left.
    + destruct H2 as [?|?%elem_of_nil]; done.
  - case_bool_decide as Hx.
    + rewrite IH. f_equal. apply (f_equal (λ b : bool, if b then [] else [m])).
      apply bool_decide_ext. rewrite elem_of_cons.
      split; [naive_solver|]. intros [?|[->|?]]; auto.
    + rewrite IH. simpl. do 2 f_equal.
      apply (f_equal (λ b : bool, if b then [] else [m])).
      apply bool_decide_ext. rewrite !elem_of_cons. naive_solver.
Qed.

Lemma first_occurrences_sublist seen mols :
  first_occurrences seen mols `sublist_of` mols.
Proof.
  revert seen. induction mols as [|x mols IH]; intros seen; simpl; [done|].
  case_bool_decide; [by apply sublist_cons|by apply sublist_skip].
Qed.

Lemma first_occurrences_smiles seen mols s :
  s ∈ to_smiles <$> first_occurrences seen mols ↔
  (s ∉ seen) ∧ s ∈ to_smiles <$> mols.
Proof.
  revert seen. induction mols as [|x mols IH]; intros seen; csimpl.
  - rewrite elem_of_nil. naive_solver.
  - case_bool_decide as Hx; csimpl.
    + rewrite IH, elem_of_cons. naive_solver.
    + rewrite !elem_of_cons, IH, not_elem_of_cons.
      destruct (decide (s = to_smiles x)); naive_solver.
Qed.

Lemma first_occurrences_NoDup seen mols :
  NoDup (to_smiles <$> first_occurrences seen mols).
Proof.
  revert seen. induction mols as [|x mols IH]; intros seen; csimpl.
  - constructor.
  - case_bool_decide as Hx; csimpl; [done|].
    constructor; [|done]. rewrite first_occurrences_smiles.
    rewrite not_elem_of_cons. naive_solver.
Qed.

(** The deletions of lines 112-113 leave the first occurrences. *)
Lemma remove_duplicates_first mols :
  remove_duplicates (to_smiles <$> mols) mols = Ok (first_occurrences [] mols).
Proof.
  unfold remove_duplicates.
  rewrite sorted_reverse_increasing by apply idx_of_duplicates_increasing.
  simpl. induction mols as [|m mols IH] using rev_ind; [done|].
  rewrite fmap_app. change (to_smiles <$> [m]) with [to_smiles m].
  rewrite idx_of_duplicates_snoc, reverse_app, first_occurrences_snoc.
  rewrite length_fmap. simpl.
  rewrite (bool_decide_ext (to_smiles m ∈ [] ∨ to_smiles m ∈ to_smiles <$> mols)
             (to_smiles m ∈ to_smiles <$> mols))
    by (rewrite elem_of_nil; naive_solver).
  case_bool_decide as Hdup; simpl.
  - rewrite py_del_last, app_nil_r. exact IH.
  - by apply del_loop_app.
Qed.

(** The molecules kept are those at the indices that are not in
    [idx_of_duplicates], in their order. *)
Lemma first_occurrences_positions mols :
  first_occurrences [] mols =
  (filter (λ p, p.1 ∉ idx_of_duplicates (to_smiles <$> mols))
     (imap pair mols)).*2.
Proof.
  induction mols as [|m mols IH] using rev_ind; [done|].
  rewrite first_occurrences_snoc, IH, fmap_app.
  change (to_smiles <$> [m]) with [to_smiles m].
  rewrite idx_of_duplicates_snoc, imap_app, filter_app, fmap_app.
  pose proof (idx_of_duplicates_increasing (to_smiles <$> mols)) as [_ Hlt].
  rewrite Forall_forall, length_fmap in Hlt.
  f_equal.
  - f_equal. apply filter_ext_elem.
    intros [i x] (j & y & [= -> ->] & Hj)%elem_of_lookup_imap. simpl.
    apply lookup_lt_Some in Hj. rewrite not_elem_of_app.
    split; [|naive_solver]. intros Hi. split; [done|].
    case_bool_decide; [|apply not_elem_of_nil].
    rewrite list_elem_of_singleton, length_fmap. lia.
  - simpl. rewrite filter_cons, filter_nil. simpl.
    rewrite Nat.add_0_r, length_fmap.
    rewrite (bool_decide_ext (to_smiles m ∈ [] ∨ to_smiles m ∈ to_smiles <$> mols)
               (to_smiles m ∈ to_smiles <$> mols))
      by (rewrite elem_of_nil; naive_solver).
    case_bool_decide as Hdup; case_decide as Hin; try done.
    + destruct Hin. apply elem_of_app. right. by left.
    + apply elem_of_app in Hin as [Hi|Hi%elem_of_nil]; [|done].
      apply Hlt in Hi. lia.
Qed.

(** The conversion loop visits the entries in order: for a dictionary, whose
    keys are distinct, looking a key up gives the entry it comes from. *)
Lemma convert_mols_entries (mols_dict : list (string * mol_record)) :
  NoDup (od_keys mols_dict) →
  convert_mols mols_dict =
  map_res (λ kv, from_openeye (structure kv.2) true) mols_dict.
Proof.
  intros Hnd. unfold convert_mols.
  match goal with |- for_each ?b _ _ = _ => set (body := b) end.
  assert (∀ (acc : list off_molecule) k r,
    od_get k mols_dict = Some r →
    body acc k =
    match from_openeye (structure r) true with
    | Ok m => Ok (acc ++ [m])
    | Raise e => Raise e
    end) as Hbody.
  { intros acc k r Hk. unfold body. by rewrite Hk. }
  assert (∀ (d' : list (string * mol_record)) (acc : list off_molecule),
    (∀ k r, (k, r) ∈ d' → od_get k mols_dict = Some r) →
    for_each body (od_keys d') acc =
    match map_res (λ kv, from_openeye (structure kv.2) true) d' with
    | Ok l => Ok (acc ++ l)
    | Raise e => Raise e
    end) as Hgen.
  { induction d' as [|[k r] d' IH]; intros acc Hget; csimpl.
    - by rewrite app_nil_r.
    - rewrite (Hbody acc k r) by (apply Hget; left).
      destruct (from_openeye (structure r) true) as [m|e]; [|done]. simpl.
      rewrite IH by (intros; apply Hget; by right).
      destruct (map_res _ d') as [ms|e]; [|done]. simpl.
      by rewrite <-app_assoc. }
  rewrite Hgen by (intros k r; by apply od_elem_get).
  by destruct (map_res _ mols_dict).
Qed.

Lemma map_res_Ok {A B} (f : A → res B) (l : list A) (l' : list B) :
  map_res f l = Ok l' ↔ Forall2 (λ a b, f a = Ok b) l l'.
Proof.
  revert l'. induction l as [|a l IH]; intros l'; simpl.
  - split; [intros [= <-]; constructor|by intros ->%Forall2_nil_inv_l].
  - destruct (f a) as [b|e] eqn:Hb; simpl.
    + destruct (map_res f l) as [bs|e] eqn:Hbs; simpl.
      * split.
        -- intros [= <-]. constructor; [done|]. by apply IH.
        -- intros (b' & bs' & Hb' & Hbs' & ->)%Forall2_cons_inv_l.
           apply IH in Hbs'. congruence.
      * split; [done|].
        intros (b' & bs' & Hb' & Hbs' & ->)%Forall2_cons_inv_l.
        apply IH in Hbs'. done.
    + split; [done|].
      intros (b' & bs' & Hb' & Hbs' & ->)%Forall2_cons_inv_l. congruence.
Qed.

Lemma map_res_Raise {A B} (f : A → res B) (l : list A) e :
  map_res f l = Raise e → ∃ a, a ∈ l ∧ f a = Raise e.
Proof.
  induction l as [|a l IH]; simpl; [done|].
  destruct (f a) as [b|e'] eqn:Hb; simpl.
  - destruct (map_res f l) as [bs|e'']; simpl; [done|].
    intros [= ->]. destruct IH as (a' & Ha' & He); [done|].
    exists a'. split; [by right|done].
  - intros [= ->]. exists a. split; [by left|done].
Qed.
End extractor_facts.

Section extractor_claims.
Context `{OEChem} `{!OpenFF oegraphmol}.
Import Tailed.

Lemma get_parameters_converted mols_dict ffxml ff off_mols :
  NoDup (od_keys mols_dict) →
  ForceField ffxml = Ok ff →
  Forall2 (λ kv m, from_openeye (structure kv.2) true = Ok m) mols_dict off_mols →
  get_parameters mols_dict ffxml =
    match get_molecule_parameterIDs (first_occurrences [] off_mols) ff with
    | Ok (by_molecule, by_ID) =>
        Ok (by_molecule, by_ID,
            py_dict (zip (to_smiles <$> off_mols) (od_keys mols_dict)))
    | Raise e => Raise e
    end.
Proof.
  intros Hnd Hff Hconv. unfold get_parameters. rewrite Hff. simpl.
  rewrite convert_mols_entries by done.
  rewrite (proj2 (map_res_Ok _ _ _) Hconv). simpl.
  rewrite remove_duplicates_first. simpl.
  by destruct (get_molecule_parameterIDs _ ff) as [[??]|].
Qed.

Lemma decreasing_reverse (l : list nat) :
  StronglySorted lt l → StronglySorted (flip lt) (reverse l).
Proof.
  intros Hl. apply Sorted_StronglySorted; [intros a b c; unfold flip; lia|].
  by apply Sorted_reverse, StronglySorted_Sorted.
Qed.

(** C6. Deduplication keeps the first occurrences. The indices deleted are
    those of the molecules whose canonical SMILES occurs earlier; they are
    visited from the highest to the lowest; the deletions never fail and
    leave exactly the molecules at the other indices, that is the first
    occurrence of every SMILES, in the original order; and this is the list
    [get_parameters] hands to the parameterization. *)
Theorem dedup_keeps_first_occurrences :
  (∀ off_mols : list off_molecule,
     let iso_smiles := to_smiles <$> off_mols in
     let duplicates := idx_of_duplicates iso_smiles in
     (∀ i, i ∈ duplicates ↔
        ∃ s j, iso_smiles !! i = Some s ∧ (j < i)%nat ∧ iso_smiles !! j = Some s) ∧
     py_sorted_reverse id int_lt duplicates = Ok (reverse duplicates) ∧
     StronglySorted (flip lt) (reverse duplicates) ∧
     remove_duplicates iso_smiles off_mols = Ok (first_occurrences [] off_mols) ∧
     first_occurrences [] off_mols =
       (filter (λ p, p.1 ∉ duplicates) (imap pair off_mols)).*2 ∧
     first_occurrences [] off_mols `sublist_of` off_mols ∧
     NoDup (to_smiles <$> first_occurrences [] off_mols) ∧
     (∀ s, s ∈ to_smiles <$> first_occurrences [] off_mols ↔ s ∈ iso_smiles)) ∧
  (∀ mols_dict ffxml ff off_mols,
     NoDup (od_keys mols_dict) →
     ForceField ffxml = Ok ff →
     Forall2 (λ kv m, from_openeye (structure kv.2) true = Ok m)
       mols_dict off_mols →
     get_parameters mols_dict ffxml =
       match get_molecule_parameterIDs (first_occurrences [] off_mols) ff with
       | Ok (by_molecule, by_ID) =>
           Ok (by_molecule, by_ID,
               py_dict (zip (to_smiles <$> off_mols) (od_keys mols_dict)))
       | Raise e => Raise e
       end).
Proof.
  split; [|apply get_parameters_converted].
  intros off_mols iso_smiles duplicates.
  pose proof (idx_of_duplicates_increasing iso_smiles) as [Hinc _].
  split_and!.
  - apply idx_of_duplicates_elem.
  - by apply sorted_reverse_increasing.
  - by apply decreasing_reverse.
  - apply remove_duplicates_first.
  - apply first_occurrences_positions.
  - apply first_occurrences_sublist.
  - apply first_occurrences_NoDup.
  - intros s. rewrite first_occurrences_smiles.
    split; [naive_solver|]. intros Hs. split; [apply not_elem_of_nil|done].
Qed.

(** C10. The reverse lookup keeps the last key. When several molecules
    have the same canonical SMILES, [smi_dict] maps that SMILES to the key of
    the last of them, while the molecule kept for the parameterization is the
    first: its index is not among those deleted, the index of the last
    one is. *)
Theorem smi_dict_keeps_last_key mols_dict ffxml ff off_mols params :
  NoDup (od_keys mols_dict) →
  ForceField ffxml = Ok ff →
  Forall2 (λ kv m, from_openeye (structure kv.2) true = Ok m) mols_dict off_mols →
  get_molecule_parameterIDs (first_occurrences [] off_mols) ff = Ok params →
  let iso_smiles := to_smiles <$> off_mols in
  ∃ smi_dict,
    get_parameters mols_dict ffxml = Ok (params.1, params.2, smi_dict) ∧
    smi_dict = py_dict (zip iso_smiles (od_keys mols_dict)) ∧
    ∀ s first last key_last,
      iso_smiles !! first = Some s →
      (∀ j, (j < first)%nat → iso_smiles !! j ≠ Some s) →
      iso_smiles !! last = Some s →
      (∀ j, (last < j)%nat → iso_smiles !! j ≠ Some s) →
      od_keys mols_dict !! last = Some key_last →
      od_get s smi_dict = Some key_last ∧
      (first ∉ idx_of_duplicates iso_smiles) ∧
      (first ≠ last → last ∈ idx_of_duplicates iso_smiles).
Proof.
  intros Hnd Hff Hconv Hparams iso_smiles. eexists. split_and!; [|done|].
  { rewrite (get_parameters_converted _ _ ff off_mols) by done.
    rewrite Hparams. by destruct params. }
  intros s first last key_last Hfirst Hbefore Hlast Hafter Hkey. split_and!.
  - by apply (py_dict_zip_last _ _ last).
  - rewrite idx_of_duplicates_elem. intros (s' & j & Hs' & Hj & Hjs).
    apply (Hbefore j Hj). congruence.
  - intros Hne. apply idx_of_duplicates_elem. exists s, first.
    split_and!; [done| |done].
    destruct (decide (first < last)%nat); [done|].
    exfalso. apply (Hafter first); [lia|done].
Qed.

(** C7, as the code has it. [get_parameters] takes no stereochemistry flag:
    every molecule is converted with [allow_undefined_stereo=True]. An error
    of a conversion made that way propagates; when those conversions, the
    loading of the force field and the parameterization succeed, so does
    [get_parameters], whatever the toolkit would do without the tolerance. *)
Theorem conversion_always_tolerant mols_dict ffxml ff :
  NoDup (od_keys mols_dict) →
  ForceField ffxml = Ok ff →
  convert_mols mols_dict =
    map_res (λ kv, from_openeye (structure kv.2) true) mols_dict ∧
  (∀ e, convert_mols mols_dict = Raise e →
     get_parameters mols_dict ffxml = Raise e ∧
     ∃ kv, kv ∈ mols_dict ∧ from_openeye (structure kv.2) true = Raise e) ∧
  (∀ off_mols params,
     Forall2 (λ kv m, from_openeye (structure kv.2) true = Ok m)
       mols_dict off_mols →
     get_molecule_parameterIDs (first_occurrences [] off_mols) ff = Ok params →
     ∃ smi_dict,
       get_parameters mols_dict ffxml = Ok (params.1, params.2, smi_dict)).
Proof.
  intros Hnd Hff. split_and!.
  - by apply convert_mols_entries.
  - intros e He. split.
    + unfold get_parameters. rewrite Hff. simpl. by rewrite He.
    + rewrite convert_mols_entries in He by done. by apply map_res_Raise in He.
  - intros off_mols params Hconv Hparams. eexists.
    rewrite (get_parameters_converted _ _ ff off_mols) by done.
    rewrite Hparams. by destruct params.
Qed.
End extractor_claims.

(** ** The extractor on the sample molecule set *)

Lemma sample_keys_NoDup : NoDup (od_keys Sample.mols_dict).
Proof. compute_done. Qed.

Lemma sample_force_field : ForceField "openff.offxml" = Ok Sample.sample_ff.
Proof. reflexivity. Qed.

Lemma sample_converted :
  Forall2 (λ kv m, from_openeye (Tailed.structure kv.2) true = Ok m)
    Sample.mols_dict Sample.sample_off_mols.
Proof. repeat constructor. Qed.

Lemma sample_parameterized :
  get_molecule_parameterIDs (graphmol := oegraphmol)
    (Tailed.first_occurrences [] Sample.sample_off_mols) Sample.sample_ff =
  Ok Sample.sample_params.
Proof.
  unfold get_molecule_parameterIDs, Sample.openff.
  rewrite bool_decide_true; [done|]. compute_done.
Qed.

(** On the sample set the third molecule repeats the first and is the one
    deleted. *)
Lemma dedup_keeps_first_occurrences_witness :
  NoDup (od_keys Sample.mols_dict) ∧
  ForceField "openff.offxml" = Ok Sample.sample_ff ∧
  Forall2 (λ kv m, from_openeye (Tailed.structure kv.2) true = Ok m)
    Sample.mols_dict Sample.sample_off_mols ∧
  Tailed.idx_of_duplicates (to_smiles <$> Sample.sample_off_mols) = [2%nat] ∧
  Tailed.get_parameters Sample.mols_dict "openff.offxml" =
    Ok (Sample.sample_params.1, Sample.sample_params.2,
        [("CO", "OC"); ("CC", "CC"); ("FC(Cl)Br", "C(F)(Cl)Br")]).
Proof.
  split_and!;
    [apply sample_keys_NoDup|apply sample_force_field|apply sample_converted
    |reflexivity|].
  rewrite (proj2 dedup_keeps_first_occurrences Sample.mols_dict "openff.offxml"
             Sample.sample_ff Sample.sample_off_mols
             sample_keys_NoDup sample_force_field sample_converted).
  rewrite sample_parameterized. reflexivity.
Defined.

Lemma smi_dict_keeps_last_key_witness :
  ∃ smi_dict,
    Tailed.get_parameters Sample.mols_dict "openff.offxml" =
      Ok (Sample.sample_params.1, Sample.sample_params.2, smi_dict) ∧
    od_get "CO" smi_dict = Some "OC" ∧
    (0%nat ∉ Tailed.idx_of_duplicates (to_smiles <$> Sample.sample_off_mols)) ∧
    2%nat ∈ Tailed.idx_of_duplicates (to_smiles <$> Sample.sample_off_mols).
Proof.
  destruct (smi_dict_keeps_last_key Sample.mols_dict "openff.offxml"
              Sample.sample_ff Sample.sample_off_mols Sample.sample_params
              sample_keys_NoDup sample_force_field sample_converted
              sample_parameterized) as (smi_dict & Hget & _ & Hlast).
  exists smi_dict. split; [exact Hget|].
  destruct (Hlast "CO" 0%nat 2%nat "OC") as (Hkey & Hfirst & Hdel);
    try reflexivity.
  - intros j Hj. lia.
  - intros j Hj. do 4 (destruct j as [|j]; [lia || done|]). done.
  - split_and!; [exact Hkey|exact Hfirst|by apply Hdel].
Defined.

Lemma conversion_always_tolerant_witness :
  ∃ smi_dict,
    Tailed.get_parameters Sample.mols_dict "openff.offxml" =
    Ok (Sample.sample_params.1, Sample.sample_params.2, smi_dict).
Proof.
  destruct (conversion_always_tolerant Sample.mols_dict "openff.offxml"
              Sample.sample_ff sample_keys_NoDup sample_force_field)
    as (_ & _ & Hok).
  exact (Hok Sample.sample_off_mols Sample.sample_params
           sample_converted sample_parameterized).
Defined.

(** The claim C7 as the spec words it fails: the last molecule of the sample
    set has undefined stereochemistry, which the toolkit refuses when it is
    not told to tolerate it; [get_parameters], which has no parameter for
    that, returns normally. *)
Lemma stereo_flag_counterexample :
  (∃ kv, kv ∈ Sample.mols_dict ∧
     from_openeye (Tailed.structure kv.2) false =
       Raise UndefinedStereochemistryError) ∧
  ¬ ∃ e, Tailed.get_parameters Sample.mols_dict "openff.offxml" = Raise e.
Proof.
  split.
  - exists (Sample.entry "C(F)(Cl)Br" "FC(Cl)Br" "undefined" 4 ["b3"]).
    split; [|reflexivity]. unfold Sample.mols_dict. set_solver.
  - intros [e He].
    rewrite (get_parameters_converted Sample.mols_dict "openff.offxml"
               Sample.sample_ff Sample.sample_off_mols
               sample_keys_NoDup sample_force_field sample_converted) in He.
    by rewrite sample_parameterized in He.
Qed.

(** ** The filters of [main] *)

Section select_facts.
Context {A : Type}.

Lemma select_length {B} (mask : list bool) (l1 : list A) (l2 : list B) :
  length l1 = length l2 → length (select mask l1) = length (select mask l2).
Proof.
  revert l1 l2. induction mask as [|b mask IH]; intros [|x l1] [|y l2] Hlen;
    simpl in *; try done.
  destruct b; simpl; rewrite (IH l1 l2) by lia; done.
Qed.

(** Keeping the elements whose index passes a test is a [select]. *)
Lemma filter_enumerate_select (P : nat → Prop) `{!∀ i, Decision (P i)}
    (f : nat → nat) (l : list A) (mask : list bool) :
  length mask = length l →
  (∀ i b, mask !! i = Some b → b = true ↔ P (f i)) →
  (filter (λ p, P p.1) (imap (λ i x, (f i, x)) l)).*2 = select mask l.
Proof.
  revert f mask. induction l as [|x l IH]; intros f [|b mask] Hlen Hmask;
    simpl in *; try done.
  rewrite filter_cons. simpl.
  pose proof (Hmask 0%nat b eq_refl) as Hb.
  assert ((filter (λ p, P p.1) (imap (λ i x, ((f ∘ S) i, x)) l)).*2 =
          select mask l) as Hrest.
  { apply IH; [lia|]. intros i b'. apply (Hmask (S i)). }
  destruct (decide (P (f 0%nat))) as [HP|HP]; destruct b; csimpl.
  + f_equal. exact Hrest.
  + apply Hb in HP. done.
  + destruct HP. by apply Hb.
  + exact Hrest.
Qed.

(** Taking the elements at the indices that pass a test on another array of
    the same length is a [select], and no index is out of bounds. *)
Lemma take_enumerate_select {C} (Q : C → Prop) `{!∀ x, Decision (Q x)}
    (c : list C) (l pre : list A) :
  length c = length l →
  map_res (py_getitem (pre ++ l))
    (filter (λ p, Q p.2) (imap (λ i x, (length pre + i, x)%nat) c)).*1 =
  Ok (select ((λ x, bool_decide (Q x)) <$> c) l).
Proof.
  revert l pre. induction c as [|y c IH]; intros [|x l] pre Hlen;
    simpl in *; try done.
  rewrite filter_cons. simpl.
  assert (imap ((λ i x0, (length pre + i, x0)%nat) ∘ S) c =
          imap (λ i x0, (length (pre ++ [x]) + i, x0)%nat) c) as ->.
  { apply imap_ext. intros i z _. simpl. rewrite length_app. simpl.
    f_equal. lia. }
  specialize (IH l (pre ++ [x])). rewrite <-app_assoc in IH. simpl in IH.
  case_decide as Hy.
  - rewrite bool_decide_true by done. csimpl.
    assert (py_getitem (pre ++ x :: l) (length pre + 0) = Ok x) as ->.
    { unfold py_getitem. by rewrite list_lookup_middle by lia. }
    simpl. rewrite IH by lia. done.
  - rewrite bool_decide_false by done. apply IH. lia.
Qed.
End select_facts.

Section filter_facts.
Import Tailed.

Lemma np_where_eq_elem (arr : list Z) (v : Z) (i : nat) :
  i ∈ np_where_eq arr v ↔ arr !! i = Some v.
Proof.
  unfold np_where_eq, py_enumerate. rewrite list_elem_of_fmap. split.
  - intros ([j x] & -> & [Hx Hin]%list_elem_of_filter). simpl in *. subst x.
    by apply elem_of_lookup_imap in Hin as (k & y & [= -> ->] & Hk).
  - intros Hi. exists (i, v). split; [done|]. apply list_elem_of_filter.
    split; [done|]. by apply (elem_of_lookup_imap_2 pair).
Qed.

Lemma np_intersect1d_elem (a b : list nat) (i : nat) :
  i ∈ np_intersect1d a b ↔ i ∈ a ∧ i ∈ b.
Proof.
  unfold np_intersect1d.
  rewrite (sort_total_perm id Nat.ltb), elem_of_remove_dups, list_elem_of_filter.
  naive_solver.
Qed.

(** The indices line 294 collects. *)
Lemma ones_both_elem (cnt_all cnt_out : list Z) (i : nat) :
  i ∈ np_intersect1d (np_where_eq cnt_all 1) (np_where_eq cnt_out 1) ↔
  cnt_all !! i = Some 1 ∧ cnt_out !! i = Some 1.
Proof. by rewrite np_intersect1d_elem, !np_where_eq_elem. Qed.

Lemma ones_mask_lookup (cnt_all cnt_out : list Z) (i : nat) (b : bool) :
  ones_mask cnt_all cnt_out !! i = Some b →
  b = true ↔
  i ∉ np_intersect1d (np_where_eq cnt_all 1) (np_where_eq cnt_out 1).
Proof.
  unfold ones_mask. rewrite list_lookup_fmap, ones_both_elem.
  destruct (zip cnt_all cnt_out !! i) as [[a o]|] eqn:Hi; [|done].
  apply lookup_zip_with_Some in Hi as (a' & o' & [= <- <-] & Ha & Ho).
  simpl. intros [= <-]. rewrite Ha, Ho.
  case_bool_decide as Hone; simpl; naive_solver.
Qed.

Lemma ones_mask_length (cnt_all cnt_out : list Z) :
  length cnt_all = length cnt_out →
  length (ones_mask cnt_all cnt_out) = length cnt_all.
Proof.
  intros Hlen. unfold ones_mask. rewrite length_fmap, length_zip_with. lia.
Qed.

Lemma ones_both_bounds (cnt_all cnt_out : list Z) (n : nat) :
  length cnt_all = n →
  Forall (λ i, i < n)%nat
    (np_intersect1d (np_where_eq cnt_all 1) (np_where_eq cnt_out 1)).
Proof.
  intros <-. apply Forall_forall. intros i [Hi _]%ones_both_elem.
  by apply lookup_lt_Some in Hi.
Qed.

(** [np.delete] at the indices of line 294 is a [select]. *)
Lemma np_delete_ones {A} (arr : list A) (cnt_all cnt_out : list Z) :
  length cnt_all = length arr → length cnt_out = length arr →
  np_delete arr (np_intersect1d (np_where_eq cnt_all 1) (np_where_eq cnt_out 1)) =
  Ok (select (ones_mask cnt_all cnt_out) arr).
Proof.
  intros Hall Hout. unfold np_delete, py_enumerate.
  rewrite bool_decide_true by by apply ones_both_bounds.
  f_equal.
  refine (eq_trans _ (filter_enumerate_select
           (λ i, i ∉ np_intersect1d (np_where_eq cnt_all 1) (np_where_eq cnt_out 1))
           id arr (ones_mask cnt_all cnt_out) _ _)); [reflexivity| |].
  - rewrite ones_mask_length; lia.
  - apply ones_mask_lookup.
Qed.

(** The first filter takes the same positions out of the three
    structures. *)
Lemma exclude_ones_select (cnt_all cnt_out : list Z) (a : aligned) :
  length cnt_all = length (full_params a) →
  length cnt_out = length (full_params a) →
  length (fraction_cnt_all a) = length (full_params a) →
  length (fraction_cnt_out a) = length (full_params a) →
  exclude_ones cnt_all cnt_out a =
  Ok {| fraction_cnt_all := select (ones_mask cnt_all cnt_out) (fraction_cnt_all a);
        fraction_cnt_out := select (ones_mask cnt_all cnt_out) (fraction_cnt_out a);
        full_params := select (ones_mask cnt_all cnt_out) (full_params a) |}.
Proof.
  intros Hall Hout Hfa Hfo. unfold exclude_ones.
  rewrite !np_delete_ones by lia. simpl. do 2 f_equal.
  refine (eq_trans _ (filter_enumerate_select
           (λ i, i ∉ np_intersect1d (np_where_eq cnt_all 1) (np_where_eq cnt_out 1))
           id (full_params a) (ones_mask cnt_all cnt_out) _ _)); [reflexivity| |].
  - rewrite ones_mask_length; lia.
  - apply ones_mask_lookup.
Qed.

Lemma np_take_nonzero {A} (arr : list A) (fractions : list float) :
  length fractions = length arr →
  np_take arr (np_nonzero fractions) = Ok (select (float_nonzero <$> fractions) arr).
Proof.
  intros Hlen. unfold np_take, np_nonzero, py_enumerate.
  refine (eq_trans _ (eq_trans (take_enumerate_select
            (λ x, float_nonzero x = true) fractions arr [] Hlen) _));
    [reflexivity|].
  do 2 f_equal. apply list_fmap_ext. intros _ x _.
  by destruct (float_nonzero x).
Qed.

(** The second filter keeps the same positions of the three structures. *)
Lemma exclude_zeros_select (a : aligned) :
  length (fraction_cnt_all a) = length (full_params a) →
  length (fraction_cnt_out a) = length (full_params a) →
  exclude_zeros a =
  Ok {| fraction_cnt_all := select (nonzero_mask a) (fraction_cnt_all a);
        fraction_cnt_out := select (nonzero_mask a) (fraction_cnt_out a);
        full_params := select (nonzero_mask a) (full_params a) |}.
Proof.
  intros Hfa Hfo. unfold exclude_zeros, nonzero_mask.
  rewrite !np_take_nonzero by lia. simpl.
  fold (np_take (full_params a) (np_nonzero (fraction_cnt_out a))).
  by rewrite np_take_nonzero by lia.
Qed.
End filter_facts.

Section ratio_filter_facts.
Import Tailed.

Lemma select_aligned_is_aligned mask a :
  is_aligned a → is_aligned (select_aligned mask a).
Proof.
  intros [Hall Hout]. split; simpl; by apply select_length.
Qed.

Lemma fractions_is_aligned params cnt_all cnt_out uniq_n_all uniq_n_out :
  length cnt_all = length params → length cnt_out = length params →
  is_aligned (fractions params cnt_all cnt_out uniq_n_all uniq_n_out).
Proof.
  intros Hall Hout. split; simpl; unfold np_true_divide; by rewrite length_fmap.
Qed.

(** Lines 286-306 on count arrays as long as the list of parameters: no
    step fails, and each filter is a [select] of the three structures by
    one mask. *)
Lemma ratio_filter_select params cnt_all cnt_out uniq_n_all uniq_n_out :
  length cnt_all = length params → length cnt_out = length params →
  let a0 := fractions params cnt_all cnt_out uniq_n_all uniq_n_out in
  let a1 := select_aligned (ones_mask cnt_all cnt_out) a0 in
  let a2 := select_aligned (nonzero_mask a1) a1 in
  exclude_ones cnt_all cnt_out a0 = Ok a1 ∧
  exclude_zeros a1 = Ok a2 ∧
  ratio_filter params cnt_all cnt_out uniq_n_all uniq_n_out =
    Ok {| without_ones := a1; without_zeros := a2;
          fraction_ratio :=
            zip_with PrimFloat.div (fraction_cnt_out a2) (fraction_cnt_all a2) |}.
Proof.
  intros Hall Hout a0 a1 a2.
  pose proof (fractions_is_aligned params cnt_all cnt_out uniq_n_all uniq_n_out
                Hall Hout) as H0.
  pose proof (select_aligned_is_aligned (ones_mask cnt_all cnt_out) a0 H0) as H1.
  pose proof (select_aligned_is_aligned (nonzero_mask a1) a1 H1) as H2.
  assert (exclude_ones cnt_all cnt_out a0 = Ok a1) as E1.
  { destruct H0 as [Ha Ho].
    apply exclude_ones_select; [exact Hall|exact Hout|exact Ha|exact Ho]. }
  assert (exclude_zeros a1 = Ok a2) as E2.
  { destruct H1. by apply exclude_zeros_select. }
  split_and!; [done|done|].
  unfold ratio_filter. fold a0. rewrite E1. simpl. rewrite E2. simpl.
  destruct H2 as [H2a H2o].
  assert (length (fraction_cnt_out a2) = length (fraction_cnt_all a2)) as Hlen
    by (etrans; [exact H2o|symmetry; exact H2a]).
  unfold np_divide. rewrite bool_decide_true by exact Hlen. done.
Qed.
End ratio_filter_facts.

Section analyse_facts.
Context `{Python} `{OEChem} `{!OpenFF oegraphmol}.
Import Tailed.

(** With every parameter present in the full map, the counting loop does
    not fail: it gives one count per parameter, 0 for a parameter the
    outlier map does not have. *)
Lemma count_mols_by_param_ok (params : list string)
    (params_id_all params_id_out : gmap string (list string)) :
  (∀ p, p ∈ params → is_Some (params_id_all !! p)) →
  count_mols_by_param params params_id_all params_id_out =
  Ok ((λ p, Z.of_nat (length (default [] (params_id_all !! p)))) <$> params,
      (λ p, Z.of_nat (length (default [] (params_id_out !! p)))) <$> params).
Proof.
  unfold count_mols_by_param.
  match goal with |- _ → for_each ?b _ _ = _ => set (body := b) end.
  assert (∀ l (acc1 acc2 : list Z),
    (∀ p, p ∈ l → is_Some (params_id_all !! p)) →
    for_each body l (acc1, acc2) =
    Ok (acc1 ++ ((λ p, Z.of_nat (length (default [] (params_id_all !! p)))) <$> l),
        acc2 ++ ((λ p, Z.of_nat (length (default [] (params_id_out !! p)))) <$> l)))
    as Hgen.
  { induction l as [|p l IH]; intros acc1 acc2 Hin; csimpl.
    - by rewrite !app_nil_r.
    - destruct (Hin p) as [mols Hp]; [by left|].
      unfold body at 1. rewrite Hp. simpl.
      rewrite IH by (intros; apply Hin; by right).
      rewrite <-!app_assoc. simpl.
      by destruct (params_id_out !! p). }
  intros Hin. by rewrite Hgen.
Qed.

(** The sorted list of parameters is a permutation of the keys of the full
    map, whatever order the set gives them in. *)
Lemma sorted_params_perm (params_id_all : gmap string (list string)) :
  ∃ params,
    natural_sort (py_set_list (dom params_id_all)) = Ok params ∧
    params ≡ₚ elements (dom params_id_all).
Proof.
  exists (sort_total natural_keys key_ltb (py_set_list (dom params_id_all))).
  split; [apply natural_sort_total|].
  by rewrite sort_total_perm, py_set_list_perm.
Qed.
End analyse_facts.

Section fraction_facts.
Import Tailed.

Lemma fraction_zero_tests_spec fuel n0 n :
  fraction_zero_tests fuel n0 = true →
  n0 ≤ n < n0 + Z.of_nat fuel → fraction_zero_test n = true.
Proof.
  revert n0. induction fuel as [|fuel IH]; intros n0; simpl; [lia|].
  intros [Hn0 Hrest]%andb_prop Hn.
  destruct (decide (n = n0)) as [->|Hne]; [done|].
  apply (IH (n0 + 1)); [done|lia].
Qed.

(** Binary64 division gives a zero for [0 / n] and no zero for [1 / n], for
    every [n] from 1 to 2^20: checked by computation. *)
Lemma fraction_zero_small n :
  1 ≤ n ≤ 1048576 → fraction_zero_test n = true.
Proof.
  intros Hn. apply (fraction_zero_tests_spec (Z.to_nat 1048576) 1); [|lia].
  vm_compute. reflexivity.
Qed.
End fraction_facts.

Section ratio_filter_claims.
Context `{Python} `{OEChem} `{!OpenFF oegraphmol}.
Import Tailed.

(** C2. Order and behaviour of the two filters. The first filter takes out
    exactly the positions where the count in the full set and the count in
    the outlier set are both 1, from the parameter ids and from both
    fraction arrays; the second filter is applied to its result and keeps
    the positions where the outlier fraction is not zero; the ratio is
    computed for what is left after both. For counts [1, c, 5] in the full
    set and [1, 0, 1] in the outlier set the first parameter goes in the
    first filter and, the fraction [0 / uniq_n_out] being zero, the second
    one goes in the second filter, whatever its count [c] in the full set.
    The fraction is zero for every number of unique outliers from 1 to
    2^20. *)
Theorem ratio_filter_order :
  (∀ params cnt_all cnt_out uniq_n_all uniq_n_out,
     length cnt_all = length params → length cnt_out = length params →
     let a0 := fractions params cnt_all cnt_out uniq_n_all uniq_n_out in
     let a1 := select_aligned (ones_mask cnt_all cnt_out) a0 in
     let a2 := select_aligned (nonzero_mask a1) a1 in
     (∀ i, i ∈ np_intersect1d (np_where_eq cnt_all 1) (np_where_eq cnt_out 1) ↔
           cnt_all !! i = Some 1 ∧ cnt_out !! i = Some 1) ∧
     (∀ i b, ones_mask cnt_all cnt_out !! i = Some b →
           b = false ↔ cnt_all !! i = Some 1 ∧ cnt_out !! i = Some 1) ∧
     exclude_ones cnt_all cnt_out a0 = Ok a1 ∧
     exclude_zeros a1 = Ok a2 ∧
     ratio_filter params cnt_all cnt_out uniq_n_all uniq_n_out =
       Ok {| without_ones := a1; without_zeros := a2;
             fraction_ratio :=
               zip_with PrimFloat.div (fraction_cnt_out a2)
                 (fraction_cnt_all a2) |}) ∧
  (∀ p1 p2 p3 c uniq_n_all uniq_n_out,
     float_nonzero (PrimFloat.div (float_of_Z 0) (float_of_Z uniq_n_out)) = false →
     float_nonzero (PrimFloat.div (float_of_Z 1) (float_of_Z uniq_n_out)) = true →
     ∃ r, ratio_filter [p1; p2; p3] [1; c; 5] [1; 0; 1] uniq_n_all uniq_n_out = Ok r ∧
       full_params (without_ones r) = [p2; p3] ∧
       full_params (without_zeros r) = [p3] ∧
       length (fraction_ratio r) = 1%nat) ∧
  (∀ p1 p2 p3 c uniq_n_all uniq_n_out,
     1 ≤ uniq_n_out ≤ 1048576 →
     ∃ r, ratio_filter [p1; p2; p3] [1; c; 5] [1; 0; 1] uniq_n_all uniq_n_out = Ok r ∧
       full_params (without_ones r) = [p2; p3] ∧
       full_params (without_zeros r) = [p3] ∧
       length (fraction_ratio r) = 1%nat).
Proof.
  assert (∀ p1 p2 p3 c uniq_n_all uniq_n_out,
     float_nonzero (PrimFloat.div (float_of_Z 0) (float_of_Z uniq_n_out)) = false →
     float_nonzero (PrimFloat.div (float_of_Z 1) (float_of_Z uniq_n_out)) = true →
     ∃ r, ratio_filter [p1; p2; p3] [1; c; 5] [1; 0; 1] uniq_n_all uniq_n_out = Ok r ∧
       full_params (without_ones r) = [p2; p3] ∧
       full_params (without_zeros r) = [p3] ∧
       length (fraction_ratio r) = 1%nat) as Hexample; last first.
  split_and!; [|exact Hexample|].
  - intros params cnt_all cnt_out uniq_n_all uniq_n_out Hall Hout a0 a1 a2.
    destruct (ratio_filter_select params cnt_all cnt_out uniq_n_all uniq_n_out
                Hall Hout) as (E1 & E2 & E3).
    split_and!; [apply ones_both_elem| |exact E1|exact E2|exact E3].
    intros i b Hb. rewrite <-ones_both_elem.
    pose proof (ones_mask_lookup cnt_all cnt_out i b Hb) as Hiff.
    destruct b; split; try done.
    + intros Hin. destruct (proj1 Hiff eq_refl Hin).
    + intros _.
      destruct (decide (i ∈ np_intersect1d (np_where_eq cnt_all 1)
                             (np_where_eq cnt_out 1))) as [|Hnot]; [done|].
      by apply Hiff in Hnot.
  - intros p1 p2 p3 c uniq_n_all uniq_n_out Hn.
    pose proof (fraction_zero_small uniq_n_out Hn) as Htest.
    unfold fraction_zero_test in Htest.
    apply andb_prop in Htest as [Hzero%negb_true_iff Hone].
    by apply Hexample.
  - intros p1 p2 p3 c uniq_n_all uniq_n_out Hzero Hone.
    destruct (ratio_filter_select [p1; p2; p3] [1; c; 5] [1; 0; 1]
                uniq_n_all uniq_n_out eq_refl eq_refl) as (_ & _ & E3).
    eexists. split; [exact E3|].
    assert (ones_mask [1; c; 5] [1; 0; 1] = [false; true; true]) as Hmask.
    { unfold ones_mask. simpl. do 2 f_equal.
      rewrite bool_decide_false; [done|]. intros [_ ?]. done. }
    cbn [without_ones without_zeros fraction_ratio full_params fraction_cnt_out
         fraction_cnt_all select_aligned nonzero_mask fractions].
    rewrite Hmask.
    assert (nonzero_mask
              (select_aligned [false; true; true]
                 (fractions [p1; p2; p3] [1; c; 5] [1; 0; 1]
                    uniq_n_all uniq_n_out)) = [false; true]) as ->.
    { unfold nonzero_mask, select_aligned, fractions, np_true_divide.
      cbn [fraction_cnt_out fmap list_fmap select]. by rewrite Hzero, Hone. }
    done.
Qed.
End ratio_filter_claims.

Section aligned_claims.
Context `{Python} `{OEChem} `{!OpenFF oegraphmol}.
Import Tailed.

(** C5. The aligned-array invariant. On count arrays as long as the list of
    parameter ids, lines 286-306 do not fail; after the removal of the
    single-support parameters and again after the removal of the parameters
    without outliers, the list of ids and the two fraction arrays have one
    length, because each step takes the same positions from the three; the
    ratios are as many. In [main] the count arrays come from
    [count_mols_by_param] and are as long as the sorted list of ids, so the
    invariant holds for every pair of dictionaries. *)
Theorem aligned_arrays_invariant :
  (∀ params cnt_all cnt_out uniq_n_all uniq_n_out,
     length cnt_all = length params → length cnt_out = length params →
     ∃ r, ratio_filter params cnt_all cnt_out uniq_n_all uniq_n_out = Ok r ∧
       is_aligned (without_ones r) ∧
       is_aligned (without_zeros r) ∧
       length (fraction_ratio r) = length (full_params (without_zeros r)) ∧
       without_ones r =
         select_aligned (ones_mask cnt_all cnt_out)
           (fractions params cnt_all cnt_out uniq_n_all uniq_n_out) ∧
       without_zeros r =
         select_aligned (nonzero_mask (without_ones r)) (without_ones r)) ∧
  (∀ data_all data_out : data,
     ∃ rep, analyse data_all data_out = Ok rep ∧
       sorted_params rep ≡ₚ elements (dom (params_id data_all)) ∧
       length (nmols_cnt_all rep) = length (sorted_params rep) ∧
       length (nmols_cnt_out rep) = length (sorted_params rep) ∧
       is_aligned (without_ones (filtered rep)) ∧
       is_aligned (without_zeros (filtered rep))).
Proof.
  assert (∀ params cnt_all cnt_out uniq_n_all uniq_n_out,
     length cnt_all = length params → length cnt_out = length params →
     ∃ r, ratio_filter params cnt_all cnt_out uniq_n_all uniq_n_out = Ok r ∧
       is_aligned (without_ones r) ∧
       is_aligned (without_zeros r) ∧
       length (fraction_ratio r) = length (full_params (without_zeros r)) ∧
       without_ones r =
         select_aligned (ones_mask cnt_all cnt_out)
           (fractions params cnt_all cnt_out uniq_n_all uniq_n_out) ∧
       without_zeros r =
         select_aligned (nonzero_mask (without_ones r)) (without_ones r))
    as Hfilter.
  { intros params cnt_all cnt_out uniq_n_all uniq_n_out Hall Hout.
    destruct (ratio_filter_select params cnt_all cnt_out uniq_n_all uniq_n_out
                Hall Hout) as (_ & _ & E3).
    eexists. split; [exact E3|].
    pose proof (fractions_is_aligned params cnt_all cnt_out uniq_n_all
                  uniq_n_out Hall Hout) as H0a.
    pose proof (select_aligned_is_aligned (ones_mask cnt_all cnt_out) _ H0a) as H1a.
    pose proof (select_aligned_is_aligned
                  (nonzero_mask (select_aligned (ones_mask cnt_all cnt_out)
                     (fractions params cnt_all cnt_out uniq_n_all uniq_n_out)))
                  _ H1a) as H2a.
    cbn [without_ones without_zeros fraction_ratio].
    split_and!; [exact H1a|exact H2a| |done|done].
    destruct H2a as [H2all H2out].
    rewrite length_zip_with, H2all, H2out. lia. }
  split; [exact Hfilter|].
  intros data_all data_out. unfold analyse.
  destruct (sorted_params_perm (params_id data_all)) as (params & -> & Hperm).
  simpl. rewrite count_mols_by_param_ok; last first.
  { intros p Hp. rewrite Hperm in Hp.
    by apply elem_of_elements, elem_of_dom in Hp. }
  simpl.
  match goal with
  | |- context [ratio_filter params ?ca ?co ?ua ?uo] =>
      destruct (Hfilter params ca co ua uo) as (r & -> & H1a & H2a & _);
        [by rewrite length_fmap|by rewrite length_fmap|]
  end.
  simpl. eexists. split; [done|]. simpl.
  by rewrite !length_fmap.
Qed.
End aligned_claims.

(** ** The filters on three parameters *)

(** Counts [1, 1, 5] and [1, 0, 1] with 5 molecules in the full set and 2
    in the outlier set: [a1] goes in the first filter, [b2] in the second,
    and the ratio of [t3] is (1/2) / (5/5). *)
Lemma ratio_filter_order_witness :
  float_nonzero (PrimFloat.div (float_of_Z 0) (float_of_Z 2)) = false ∧
  float_nonzero (PrimFloat.div (float_of_Z 1) (float_of_Z 2)) = true ∧
  1 ≤ 2 ≤ 1048576 ∧
  (∃ r, Tailed.ratio_filter ["a1"; "b2"; "t3"] [1; 1; 5] [1; 0; 1] 5 2 = Ok r ∧
     Tailed.full_params (Tailed.without_ones r) = ["b2"; "t3"] ∧
     Tailed.full_params (Tailed.without_zeros r) = ["t3"] ∧
     length (Tailed.fraction_ratio r) = 1%nat) ∧
  Tailed.ratio_filter ["a1"; "b2"; "t3"] [1; 1; 5] [1; 0; 1] 5 2 =
    Ok {| Tailed.without_ones :=
            {| Tailed.fraction_cnt_all := [0.2%float; 1%float];
               Tailed.fraction_cnt_out := [0%float; 0.5%float];
               Tailed.full_params := ["b2"; "t3"] |};
          Tailed.without_zeros :=
            {| Tailed.fraction_cnt_all := [1%float];
               Tailed.fraction_cnt_out := [0.5%float];
               Tailed.full_params := ["t3"] |};
          Tailed.fraction_ratio := [0.5%float] |}.
Proof.
  split_and!; [reflexivity|reflexivity|lia|lia| |].
  - pose proof (proj1 (proj2 ratio_filter_order) "a1" "b2" "t3" 1 5 2
                  eq_refl eq_refl) as Hexample.
    pose proof (proj2 (proj2 ratio_filter_order) "a1" "b2" "t3" 1 5 2
                  ltac:(lia)) as _.
    exact Hexample.
  - destruct (proj1 ratio_filter_order ["a1"; "b2"; "t3"] [1; 1; 5] [1; 0; 1]
                5 2 eq_refl eq_refl) as (_ & _ & _ & _ & ->).
    vm_compute. reflexivity.
Defined.

Lemma aligned_arrays_invariant_witness :
  ∃ r, Tailed.ratio_filter ["a1"; "b2"; "t3"] [1; 1; 5] [1; 0; 1] 5 2 = Ok r ∧
    Tailed.is_aligned (Tailed.without_ones r) ∧
    Tailed.is_aligned (Tailed.without_zeros r).
Proof.
  destruct (proj1 (aligned_arrays_invariant
                     (H := Sample.python) (H0 := Sample.oechem))
              ["a1"; "b2"; "t3"] [1; 1; 5] [1; 0; 1] 5 2 eq_refl eq_refl)
    as (r & Hr & H1 & H2 & _).
  by exists r.
Defined.

(** ** The command line *)

Section command_line_facts.
Context `{Python}.
Import Tailed.

Lemma option_strings_rmsd tok :
  od_get tok option_strings = Some (StoreTrue Rmsd) ↔ tok = "--rmsd".
Proof.
  unfold option_strings. simpl.
  repeat (case_decide; [subst; split; (done || by intros [=])|]).
  split; [done|]. intros ->. done.
Qed.

Lemma option_strings_tfd tok :
  od_get tok option_strings = Some (StoreTrue Tfd) ↔ tok = "--tfd".
Proof.
  unfold option_strings. simpl.
  repeat (case_decide; [subst; split; (done || by intros [=])|]).
  split; [done|]. intros ->. done.
Qed.

Lemma store_toggles d value ns ns' :
  store d value ns = Ok ns' → ns_rmsd ns' = ns_rmsd ns ∧ ns_tfd ns' = ns_tfd ns.
Proof.
  destruct d; simpl; try (by intros [= <-]).
  destruct (py_float value); [by intros [= <-]|done].
Qed.

(** The two selectors are set by their own options and by nothing else. *)
Lemma consume_toggles pending argv ns ns' :
  consume pending argv ns = Ok ns' →
  (ns_rmsd ns' = true ↔ ns_rmsd ns = true ∨ "--rmsd" ∈ argv) ∧
  (ns_tfd ns' = true ↔ ns_tfd ns = true ∨ "--tfd" ∈ argv).
Proof.
  revert pending ns. induction argv as [|tok rest IH]; intros pending ns;
    cbn [consume].
  - destruct pending; [done|]. intros [= <-].
    split; (split; [by left|]); by intros [?|?%elem_of_nil].
  - destruct pending as [d|].
    + destruct (option_like tok) eqn:Hlike; [done|].
      destruct (store d tok ns) as [ns1|] eqn:Hstore; [|done].
      cbn [mbind res_bind].
      intros [Hr Ht]%IH. apply store_toggles in Hstore as [Er Et].
      rewrite Hr, Ht, Er, Et, !elem_of_cons.
      split; (split; [naive_solver|]); intros [?|[<-|?]]; auto;
        by vm_compute in Hlike.
    + destruct (od_get tok option_strings) as [[d|t|]|] eqn:Htok; try done.
      * intros [Hr Ht]%IH. rewrite Hr, Ht, !elem_of_cons.
        split; (split; [naive_solver|]); intros [?|[<-|?]]; auto;
          by vm_compute in Htok.
      * intros [Hr Ht]%IH. rewrite Hr, Ht, !elem_of_cons.
        destruct t; simpl.
        -- apply option_strings_rmsd in Htok as ->.
           split; (split; [naive_solver|]); intros [?|[?|?]]; auto; done.
        -- apply option_strings_tfd in Htok as ->.
           split; (split; [naive_solver|]); intros [?|[?|?]]; auto; done.
Qed.

Lemma parse_args_toggles argv ns :
  parse_args argv = Ok ns →
  (ns_rmsd ns = true ↔ "--rmsd" ∈ argv) ∧ (ns_tfd ns = true ↔ "--tfd" ∈ argv).
Proof.
  unfold parse_args.
  destruct (consume None argv ns_default) as [ns1|] eqn:Hc; [|done]. simpl.
  intros Hns.
  assert (ns = ns1) as ->.
  { destruct (ns_infile ns1), (ns_ffxml ns1), (ns_cutoff ns1), (ns_tag ns1),
      (ns_tag_smiles ns1); congruence. }
  apply consume_toggles in Hc as [Hr Ht]. simpl in Hr, Ht.
  rewrite Hr, Ht. naive_solver.
Qed.
End command_line_facts.

Section command_line_claims.
Context `{Python}.
Import Tailed.

End command_line_claims.

(** Without a selector the name [metric_type] is unbound at the call; an
    option that waits for its value does not take another option. *)
Example command_line_examples :
  Tailed.command_line
    [ "-i"; "refdata.sdf"; "-f"; "openff.offxml"; "--cutoff"; "0.12";
      "--tag"; "TFD"; "--tag_smiles"; "SMILES" ] = Raise NameError ∧
  Tailed.command_line
    [ "-i"; "refdata.sdf"; "-f"; "openff.offxml"; "--cutoff"; "0.12";
      "--tag"; "--tfd"; "--tag_smiles"; "SMILES" ] = Raise SystemExit ∧
  Tailed.command_line
    [ "-i"; "refdata.sdf"; "-f"; "openff.offxml"; "--cutoff"; "0.12";
      "--tag"; "TFD"; "--tag_smiles"; "SMILES"; "--tfd" ] =
    Ok {| Tailed.call_infile := "refdata.sdf";
          Tailed.call_ffxml := "openff.offxml";
          Tailed.call_cutoff := 0.12%float;
          Tailed.call_tag := "TFD";
          Tailed.call_tag_smiles := "SMILES";
          Tailed.call_metric_type := "TFD";
          Tailed.call_inpickle := None |}.
Proof. repeat split. Qed.



(** ** The minimizer *)

Section minimize_claims.
Context `{Minimize.Engines}.
Import Minimize.

(** C8, as the code has it. When the input file cannot be opened, [main]
    fails with [FileNotFoundError]; otherwise, when the output file exists
    already, it fails with [FileExistsError]. In both cases no molecule has
    had its turn and nothing has been written. *)
Theorem refuses_existing_output (fs : files) (infile outfile : string)
    (ffxml : option string) (minimizer : string) :
  (opens_for_reading fs infile = false →
   main fs infile outfile ffxml minimizer = ([], Raise FileNotFoundError)) ∧
  (opens_for_reading fs infile = true → path_exists fs outfile = true →
   main fs infile outfile ffxml minimizer = ([], Raise FileExistsError)).
Proof.
  unfold main. split.
  - by intros ->.
  - by intros -> ->.
Qed.
End minimize_claims.

(** In the sample directory [other.sdf] cannot be read and [old.sdf] exists:
    the two refusals. *)
Lemma refuses_existing_output_witness :
  Minimize.main Sample.directory "other.sdf" "old.sdf" None "mmff94" =
    ([], Raise FileNotFoundError) ∧
  Minimize.main Sample.directory "in.sdf" "old.sdf" None "mmff94" =
    ([], Raise FileExistsError).
Proof.
  split.
  - exact (proj1 (refuses_existing_output Sample.directory "other.sdf"
                    "old.sdf" None "mmff94") eq_refl).
  - exact (proj2 (refuses_existing_output Sample.directory "in.sdf"
                    "old.sdf" None "mmff94") eq_refl eq_refl).
Defined.

(** The claim C8 as the spec words it fails: with a readable input and an
    output file that exists, the failure is not the file-not-found one. *)
Lemma refuses_existing_output_counterexample :
  Minimize.opens_for_reading Sample.directory "in.sdf" = true ∧
  Minimize.path_exists Sample.directory "old.sdf" = true ∧
  Minimize.main Sample.directory "in.sdf" "old.sdf" None "mmff94" ≠
    ([], Raise FileNotFoundError).
Proof. split_and!; [reflexivity..|]. vm_compute. intros [=]. Qed.

(** A run that is not refused: three conformers enter and are written. *)
Example minimize_sample_run :
  Minimize.main Sample.directory "in.sdf" "new.sdf" None "mmff94" =
    ([ Minimize.Enter [10; 20]%nat;
       Minimize.Wrote (5%nat, "Energy MMFF94", 10%nat);
       Minimize.Wrote (10%nat, "Energy MMFF94", 20%nat);
       Minimize.Enter [30]%nat;
       Minimize.Wrote (15%nat, "Energy MMFF94", 30%nat) ],
     Ok ()).
Proof. reflexivity. Qed.

(* ================================================================== *)
(** * Further properties of the two scripts *)
(* ================================================================== *)

(** ** The order of the keys of a dictionary *)

Section first_seen_facts.
Context {V : Type}.
Implicit Types (d : list (string * V)) (seen l : list string).

Lemma first_seen_ext seen seen' l :
  (∀ x, x ∈ seen ↔ x ∈ seen') → first_seen seen l = first_seen seen' l.
Proof.
  revert seen seen'. induction l as [|k l IH]; intros seen seen' Hiff; [done|].
  simpl. rewrite (bool_decide_ext _ _ (Hiff k)).
  case_bool_decide; [by apply IH|]. f_equal. apply IH.
  intros x. rewrite !elem_of_cons, Hiff. done.
Qed.

Lemma first_seen_app seen l1 l2 :
  first_seen seen (l1 ++ l2) =
  first_seen seen l1 ++ first_seen (seen ++ l1) l2.
Proof.
  revert seen. induction l1 as [|k l1 IH]; intros seen; simpl.
  - by rewrite app_nil_r.
  - case_bool_decide as Hk.
    + rewrite IH. f_equal. apply first_seen_ext. intros x.
      rewrite !elem_of_app, elem_of_cons.
      split; [tauto|]. intros [?|[->|?]]; tauto.
    + rewrite IH. simpl. do 2 f_equal. apply first_seen_ext. intros x.
      rewrite elem_of_cons, !elem_of_app, elem_of_cons. tauto.
Qed.

Lemma first_seen_elem seen l x :
  x ∈ first_seen seen l ↔ (x ∉ seen) ∧ x ∈ l.
Proof.
  revert seen. induction l as [|k l IH]; intros seen; simpl.
  - rewrite elem_of_nil. naive_solver.
  - case_bool_decide as Hk.
    + rewrite IH, elem_of_cons. naive_solver.
    + rewrite !elem_of_cons, IH, not_elem_of_cons.
      destruct (decide (x = k)); naive_solver.
Qed.

Lemma first_seen_NoDup seen l : NoDup (first_seen seen l).
Proof.
  revert seen. induction l as [|k l IH]; intros seen; simpl; [constructor|].
  case_bool_decide; [done|]. constructor; [|done].
  rewrite first_seen_elem, not_elem_of_cons. naive_solver.
Qed.

(** A list without repetitions is its own list of first occurrences. *)
Lemma first_seen_NoDup_id l : NoDup l → first_seen [] l = l.
Proof.
  intros Hnd.
  assert (∀ seen, (∀ x, x ∈ seen → x ∉ l) → first_seen seen l = l) as Hgen.
  { induction Hnd as [|k l Hk Hnd IH]; intros seen Hseen; simpl; [done|].
    rewrite bool_decide_false.
    - f_equal. apply IH. intros x [->|Hx]%elem_of_cons; [done|].
      intros Hin. apply (Hseen x Hx). by right.
    - intros Hin. apply (Hseen k Hin). by left. }
  apply Hgen. by intros x ?%elem_of_nil.
Qed.

(** The keys of a dictionary after a run of assignments: the old keys, then
    the new ones in the order of their first assignment. *)
Lemma od_extend_keys_order kvs d :
  od_keys (od_extend d kvs) = od_keys d ++ first_seen (od_keys d) kvs.*1.
Proof.
  revert d. induction kvs as [|[k v] kvs IH]; intros d; csimpl.
  - by rewrite app_nil_r.
  - change (od_keys (od_extend (od_set k v d) kvs) =
            od_keys d ++
              (if bool_decide (k ∈ od_keys d) then first_seen (od_keys d) kvs.*1
               else k :: first_seen (k :: od_keys d) kvs.*1)).
    rewrite IH, od_keys_set. case_decide as Hk.
    + by rewrite bool_decide_true.
    + rewrite bool_decide_false by done. rewrite <-app_assoc. simpl.
      do 2 f_equal. apply first_seen_ext. intros x.
      rewrite elem_of_app, list_elem_of_singleton, elem_of_cons. tauto.
Qed.
End first_seen_facts.

(** ** The read loop: failures, overwriting and the order of the keys *)

Section reader_properties.
Context `{Python} `{OEChem}.
Import Tailed.
Implicit Types (st : read_state) (conf c : oeconf) (cutoff : float)
  (tag tag_smiles : string).

(** The loop over conformers raises exactly the error of the first metric
    that does not parse. *)
Lemma read_confs_raise cutoff tag tag_smiles (confs : list oeconf) st e :
  for_each (read_conf cutoff tag tag_smiles) confs st = Raise e ↔
  ∃ pre c post, confs = pre ++ c :: post ∧
    Forall (λ c, ∃ v, py_float (OEGetSDData c tag) = Ok v) pre ∧
    py_float (OEGetSDData c tag) = Raise e.
Proof.
  split.
  - revert st. induction confs as [|c confs IH]; intros st; simpl; [done|].
    destruct (py_float (OEGetSDData c tag)) as [v|e'] eqn:Hv.
    + rewrite (read_conf_ok _ _ _ _ _ v Hv). simpl.
      intros (pre & c' & post & -> & Hpre & Hc')%IH.
      exists (c :: pre), c', post. split_and!; [done| |done].
      constructor; eauto.
    + unfold read_conf. rewrite Hv. simpl. intros [= ->].
      exists [], c, confs. split_and!; [done|constructor|done].
  - intros (pre & c & post & -> & Hpre & Hc).
    rewrite for_each_app, read_confs_ok by done. simpl.
    unfold read_conf. by rewrite Hc.
Qed.

Lemma read_loop_confs cutoff tag tag_smiles (mols : list oemol) :
  read_loop cutoff tag tag_smiles mols =
  for_each (read_conf cutoff tag tag_smiles) (all_confs mols) read_init.
Proof. unfold read_loop. by rewrite for_each_nested. Qed.

(** The SMILES under which the outliers are stored. *)
Lemma out_entries_keys cutoff tag tag_smiles (confs : list oeconf) :
  (omap (out_entry cutoff tag tag_smiles) confs).*1 =
  (λ c, OEGetSDData c tag_smiles) <$>
    filter (λ c, is_outlier cutoff tag c) confs.
Proof.
  induction confs as [|c confs IH]; [done|].
  rewrite filter_cons. csimpl. unfold out_entry, is_outlier.
  destruct (py_float (OEGetSDData c tag)) as [v|]; [|exact IH].
  destruct (float_ge v cutoff); csimpl; [by f_equal|exact IH].
Qed.

Lemma all_entries_keys tag_smiles (confs : list oeconf) :
  (all_entry tag_smiles <$> confs).*1 = (λ c, OEGetSDData c tag_smiles) <$> confs.
Proof. by rewrite <-list_fmap_compose. Qed.

(** [write_mols] on a dictionary: one structure per entry, in order. *)
Lemma write_mols_entries (d : list (string * mol_record)) :
  NoDup (od_keys d) →
  write_mols d true = Ok ((λ kv, structure kv.2) <$> d).
Proof.
  intros Hnd. unfold write_mols. simpl.
  match goal with |- for_each ?b _ _ = _ => set (body := b) end.
  assert (∀ (acc : list oegraphmol) k r,
    od_get k d = Some r → body acc k = Ok (acc ++ [structure r])) as Hbody.
  { intros acc k r Hk. unfold body. by rewrite Hk. }
  assert (∀ (d' : list (string * mol_record)) (acc : list oegraphmol),
    (∀ k r, (k, r) ∈ d' → od_get k d = Some r) →
    for_each body (od_keys d') acc =
    Ok (acc ++ ((λ kv, structure kv.2) <$> d'))) as Hgen.
  { induction d' as [|[k r] d' IH]; intros acc Hget; csimpl.
    - by rewrite app_nil_r.
    - rewrite (Hbody acc k r) by (apply Hget; left). simpl.
      rewrite IH by (intros; apply Hget; by right).
      by rewrite <-app_assoc. }
  rewrite Hgen by (intros k r; by apply od_elem_get). done.
Qed.

(** X1. The read loop fails exactly when the metric of some conformer is not
    a number; the error is the one [float] raises for the first such
    conformer, and the conformers after it play no part. *)
Theorem read_loop_raises cutoff tag tag_smiles (mols : list oemol) e :
  read_loop cutoff tag tag_smiles mols = Raise e ↔
  ∃ pre c post, all_confs mols = pre ++ c :: post ∧
    Forall (λ c, ∃ v, py_float (OEGetSDData c tag) = Ok v) pre ∧
    py_float (OEGetSDData c tag) = Raise e.
Proof. rewrite read_loop_confs. apply read_confs_raise. Qed.

(** X2. Overwriting in the read loop. The record [mols_all] holds under a
    SMILES is that of the last conformer with that SMILES; the record
    [mols_out] holds is that of the last conformer with that SMILES whose
    metric is [>=] the cutoff, with the metric of that conformer. *)
Theorem last_conformer_wins cutoff tag tag_smiles (mols : list oemol)
    (pre : list oeconf) c (post : list oeconf) :
  Forall (λ c, ∃ v, py_float (OEGetSDData c tag) = Ok v) (all_confs mols) →
  all_confs mols = pre ++ c :: post →
  ∃ st, read_loop cutoff tag tag_smiles mols = Ok st ∧
    (OEGetSDData c tag_smiles ∉ (λ c', OEGetSDData c' tag_smiles) <$> post →
     od_get (OEGetSDData c tag_smiles) (mols_all st) =
       Some {| metric := None; structure := OEGraphMol c |}) ∧
    (∀ v, py_float (OEGetSDData c tag) = Ok v → float_ge v cutoff = true →
       (∀ c', c' ∈ post →
          OEGetSDData c' tag_smiles = OEGetSDData c tag_smiles →
          is_outlier cutoff tag c' = false) →
       od_get (OEGetSDData c tag_smiles) (mols_out st) =
         Some {| metric := Some v; structure := OEGraphMol c |}).
Proof.
  intros Hall Hconfs. eexists. split.
  { rewrite read_loop_confs. by apply read_confs_ok. }
  simpl. rewrite Hconfs. split.
  - intros Hlast. rewrite fmap_app, fmap_cons.
    apply (od_extend_get_last _ _ _ (OEGetSDData c tag_smiles)).
    by rewrite all_entries_keys.
  - intros v Hv Hge Hlast. rewrite omap_app. csimpl.
    assert (out_entry cutoff tag tag_smiles c =
            Some (OEGetSDData c tag_smiles,
                  {| metric := Some v; structure := OEGraphMol c |})) as ->.
    { unfold out_entry. by rewrite Hv, Hge. }
    apply od_extend_get_last. rewrite out_entries_keys.
    intros (c' & Hs & [Hout Hin]%list_elem_of_filter)%list_elem_of_fmap.
    rewrite (Hlast c' Hin) in Hout; done.
Qed.

(** X3. The order of the keys. The keys of [mols_all] are the SMILES in the
    order in which they first occur in the input, those of [mols_out] the
    SMILES of the conformers with metric [>=] the cutoff in the order in
    which they first occur among these; every key of [mols_out] is a key of
    [mols_all]. *)
Theorem partition_key_order cutoff tag tag_smiles (mols : list oemol) :
  Forall (λ c, ∃ v, py_float (OEGetSDData c tag) = Ok v) (all_confs mols) →
  ∃ st, read_loop cutoff tag tag_smiles mols = Ok st ∧
    od_keys (mols_all st) = first_seen [] (all_smiles st) ∧
    od_keys (mols_out st) =
      first_seen []
        ((λ c, OEGetSDData c tag_smiles) <$>
           filter (λ c, is_outlier cutoff tag c) (all_confs mols)) ∧
    (∀ k, k ∈ od_keys (mols_out st) → k ∈ od_keys (mols_all st)).
Proof.
  intros Hall. eexists. split.
  { rewrite read_loop_confs. by apply read_confs_ok. }
  simpl. split_and!.
  - by rewrite od_extend_keys_order, all_entries_keys.
  - by rewrite od_extend_keys_order, out_entries_keys.
  - intros k. rewrite !od_extend_keys, out_entries_keys, all_entries_keys.
    intros [?%elem_of_nil|Hk]; [done|]. right.
    apply list_elem_of_fmap in Hk as (c & -> & [_ Hc]%list_elem_of_filter).
    apply list_elem_of_fmap. by exists c.
Qed.

(** X4. The outliers file. An error of the read loop is raised before the
    file is touched; when the loop succeeds and the file cannot be opened,
    the program ends there; else one structure is written for every key of
    [mols_out], in the order of the keys: as many as there are distinct
    SMILES among the outliers, which is at most [count_out]. *)
Theorem outliers_written cutoff tag tag_smiles (mols : list oemol) :
  (∀ e can_open, read_loop cutoff tag tag_smiles mols = Raise e →
     read_and_write cutoff tag tag_smiles mols can_open = Raise e) ∧
  (Forall (λ c, ∃ v, py_float (OEGetSDData c tag) = Ok v) (all_confs mols) →
   ∃ st, read_loop cutoff tag tag_smiles mols = Ok st ∧
     read_and_write cutoff tag tag_smiles mols false = Raise OEFatal ∧
     read_and_write cutoff tag tag_smiles mols true =
       Ok (st, (λ kv, structure kv.2) <$> mols_out st) ∧
     length (mols_out st) =
       length (first_seen []
                 ((λ c, OEGetSDData c tag_smiles) <$>
                    filter (λ c, is_outlier cutoff tag c) (all_confs mols))) ∧
     Z.of_nat (length (mols_out st)) ≤ count_out st).
Proof.
  split.
  - intros e can_open He. unfold read_and_write. by rewrite He.
  - intros Hall.
    assert (read_loop cutoff tag tag_smiles mols =
            for_each (read_conf cutoff tag tag_smiles) (all_confs mols) read_init)
      as Hloop by apply read_loop_confs.
    rewrite read_confs_ok in Hloop by done.
    eexists. split; [exact Hloop|]. unfold read_and_write. rewrite Hloop.
    simpl. split_and!.
    + done.
    + rewrite write_mols_entries; [done|].
      by apply od_extend_NoDup, NoDup_nil.
    + rewrite <-(length_fmap fst).
      change (length (od_keys (od_extend []
                (omap (out_entry cutoff tag tag_smiles) (all_confs mols)))) = 
              length (first_seen []
                 ((λ c, OEGetSDData c tag_smiles) <$>
                    filter (λ c, is_outlier cutoff tag c) (all_confs mols)))).
      by rewrite od_extend_keys_order, out_entries_keys.
    + etrans; [apply inj_le, od_extend_length|]. simpl.
      by rewrite out_entries_length.
Qed.
End reader_properties.

(** *** The read loop on the sample conformers *)

Lemma sample_metrics_parse :
  Forall (λ c, ∃ v, py_float (OEGetSDData c "RMSD") = Ok v)
    (Tailed.all_confs Sample.scenario_mols).
Proof. repeat constructor; eexists; vm_compute; reflexivity. Qed.

(** Under the SMILES A, [mols_all] holds the second conformer and
    [mols_out] the first, the only one of the two above the cutoff. *)
Lemma last_conformer_wins_witness :
  ∃ st, Tailed.read_loop 1%float "RMSD" "SMILES" Sample.scenario_mols = Ok st ∧
    od_get "A" (Tailed.mols_all st) =
      Some {| Tailed.metric := None;
              Tailed.structure := Sample.scenario_conf "A" "0.5" 2 |} ∧
    od_get "A" (Tailed.mols_out st) =
      Some {| Tailed.metric := Some 2%float;
              Tailed.structure := Sample.scenario_conf "A" "2.0" 1 |}.
Proof.
  destruct (last_conformer_wins 1%float "RMSD" "SMILES" Sample.scenario_mols
              [Sample.scenario_conf "A" "2.0" 1]
              (Sample.scenario_conf "A" "0.5" 2)
              [Sample.scenario_conf "B" "3.0" 3; Sample.scenario_conf "C" "0.5" 4]
              sample_metrics_parse eq_refl) as (st & Hst & Hall & _).
  destruct (last_conformer_wins 1%float "RMSD" "SMILES" Sample.scenario_mols
              []
              (Sample.scenario_conf "A" "2.0" 1)
              [Sample.scenario_conf "A" "0.5" 2;
               Sample.scenario_conf "B" "3.0" 3; Sample.scenario_conf "C" "0.5" 4]
              sample_metrics_parse eq_refl) as (st' & Hst' & _ & Hout).
  assert (st' = st) as -> by congruence.
  exists st. split_and!; [exact Hst| |].
  - apply Hall. vm_compute. intros Hin.
    repeat (apply elem_of_cons in Hin as [Heq|Hin]; [discriminate Heq|]).
    by apply elem_of_nil in Hin.
  - apply (Hout 2%float); [reflexivity|reflexivity|].
    intros c' Hin Hs.
    repeat (apply elem_of_cons in Hin as [->|Hin];
            [reflexivity || discriminate Hs|]).
    by apply elem_of_nil in Hin.
Defined.

Lemma partition_key_order_witness :
  ∃ st, Tailed.read_loop 1%float "RMSD" "SMILES" Sample.scenario_mols = Ok st ∧
    Tailed.all_smiles st = ["A"; "A"; "B"; "C"] ∧
    od_keys (Tailed.mols_all st) = ["A"; "B"; "C"] ∧
    od_keys (Tailed.mols_out st) = ["A"; "B"].
Proof.
  destruct (partition_key_order 1%float "RMSD" "SMILES" Sample.scenario_mols
              sample_metrics_parse) as (st & Hst & Hall & Hout & _).
  exists st. rewrite Hall, Hout.
  assert (Tailed.all_smiles st = ["A"; "A"; "B"; "C"]) as ->.
  { vm_compute in Hst. by injection Hst as <-. }
  split_and!; [exact Hst|reflexivity|reflexivity|].
  vm_compute. reflexivity.
Defined.

(** Two outliers are counted on the sample conformers and two structures are
    written; with a third conformer of SMILES A above the cutoff the count
    would be 3 and the file would still hold two. *)
Lemma outliers_written_witness :
  ∃ st,
    Tailed.read_and_write 1%float "RMSD" "SMILES" Sample.scenario_mols true =
      Ok (st, [Sample.scenario_conf "A" "2.0" 1; Sample.scenario_conf "B" "3.0" 3]) ∧
    Tailed.read_and_write 1%float "RMSD" "SMILES" Sample.scenario_mols false =
      Raise OEFatal.
Proof.
  destruct (proj2 (outliers_written 1%float "RMSD" "SMILES" Sample.scenario_mols)
              sample_metrics_parse) as (st & Hst & Hclosed & Hopen & _).
  exists st. split; [|exact Hclosed]. rewrite Hopen. do 2 f_equal.
  vm_compute in Hst. by injection Hst as <-.
Defined.

(** ** [get_parameters]: deduplication and the reverse lookup *)

Section extractor_properties.
Context `{OEChem} `{!OpenFF oegraphmol}.
Import Tailed.
Implicit Types (mols : list off_molecule) (seen : list string).

Lemma first_occurrences_first_seen seen mols :
  to_smiles <$> first_occurrences seen mols = first_seen seen (to_smiles <$> mols).
Proof.
  revert seen. induction mols as [|m mols IH]; intros seen; csimpl; [done|].
  case_bool_decide; csimpl; by rewrite IH.
Qed.

(** Molecules with distinct SMILES are all first occurrences. *)
Lemma first_occurrences_NoDup_id mols :
  NoDup (to_smiles <$> mols) → first_occurrences [] mols = mols.
Proof.
  assert (∀ seen, NoDup (to_smiles <$> mols) →
            (∀ s, s ∈ seen → s ∉ to_smiles <$> mols) →
            first_occurrences seen mols = mols) as Hgen.
  { induction mols as [|m mols IH]; intros seen Hnd Hseen; csimpl; [done|].
    apply NoDup_cons in Hnd as [Hm Hnd].
    rewrite bool_decide_false.
    - f_equal. apply IH; [done|].
      intros s [->|Hs]%elem_of_cons; [done|].
      intros Hin. apply (Hseen s Hs). by right.
    - intros Hin. apply (Hseen _ Hin). by left. }
  intros Hnd. apply Hgen; [done|]. by intros s ?%elem_of_nil.
Qed.

(** X5. Deduplication changes nothing when there is nothing to remove: a
    list of molecules with distinct canonical SMILES is returned as it is,
    and deduplicating the result of a deduplication returns it as it is;
    the result is never longer than the input. *)
Theorem remove_duplicates_fixed_point :
  (∀ mols, NoDup (to_smiles <$> mols) →
     remove_duplicates (to_smiles <$> mols) mols = Ok mols) ∧
  (∀ mols, ∃ kept,
     remove_duplicates (to_smiles <$> mols) mols = Ok kept ∧
     remove_duplicates (to_smiles <$> kept) kept = Ok kept ∧
     (length kept ≤ length mols)%nat).
Proof.
  split.
  - intros mols Hnd.
    by rewrite remove_duplicates_first, first_occurrences_NoDup_id.
  - intros mols. exists (first_occurrences [] mols). split_and!.
    + apply remove_duplicates_first.
    + rewrite remove_duplicates_first, first_occurrences_NoDup_id; [done|].
      apply first_occurrences_NoDup.
    + apply sublist_length, first_occurrences_sublist.
Qed.

(** X6. The reverse lookup and the parameterized molecules agree. When
    [get_parameters] succeeds, the keys of [smi_dict] are the canonical
    SMILES of the molecules handed to the parameterization, in the same
    order, so the two have one length; and every entry of [smi_dict] pairs
    the canonical SMILES of a converted molecule with the key that molecule
    has in [mols_dict]. *)
Theorem smi_dict_entries mols_dict ffxml ff off_mols params :
  NoDup (od_keys mols_dict) →
  ForceField ffxml = Ok ff →
  Forall2 (λ kv m, from_openeye (structure kv.2) true = Ok m) mols_dict off_mols →
  get_molecule_parameterIDs (first_occurrences [] off_mols) ff = Ok params →
  ∃ smi_dict,
    get_parameters mols_dict ffxml = Ok (params.1, params.2, smi_dict) ∧
    od_keys smi_dict = to_smiles <$> first_occurrences [] off_mols ∧
    length smi_dict = length (first_occurrences [] off_mols) ∧
    ∀ s key, (s, key) ∈ smi_dict →
      ∃ i m, off_mols !! i = Some m ∧ to_smiles m = s ∧
        od_keys mols_dict !! i = Some key.
Proof.
  intros Hnd Hff Hconv Hparams.
  assert (od_keys (py_dict (zip (to_smiles <$> off_mols) (od_keys mols_dict))) =
          to_smiles <$> first_occurrences [] off_mols) as Hkeys.
  { unfold py_dict. rewrite od_extend_keys_order. simpl.
    rewrite fst_zip, first_occurrences_first_seen; [done|].
    unfold od_keys. rewrite !length_fmap.
    apply Forall2_length in Hconv. lia. }
  eexists. split_and!.
  - rewrite (get_parameters_converted _ _ ff off_mols) by done.
    rewrite Hparams. by destruct params.
  - exact Hkeys.
  - rewrite <-(length_fmap to_smiles), <-Hkeys. unfold od_keys.
    by rewrite length_fmap.
  - intros s key [Hin|Hin]%od_extend_elem; [by apply elem_of_nil in Hin|].
    apply list_elem_of_lookup in Hin as [i Hi].
    apply lookup_zip_with_Some in Hi as (s' & key' & [= <- <-] & Hs & Hkey).
    rewrite list_lookup_fmap in Hs.
    destruct (off_mols !! i) as [m|] eqn:Hm; [|done].
    injection Hs as <-. by exists i, m.
Qed.
End extractor_properties.

(** On the sample set two keys stand for the molecule CO: three molecules
    are parameterized and the reverse lookup has three entries. *)
Lemma remove_duplicates_fixed_point_witness :
  NoDup (to_smiles <$> Sample.sample_kept) ∧
  Tailed.remove_duplicates (to_smiles <$> Sample.sample_kept) Sample.sample_kept =
    Ok Sample.sample_kept.
Proof.
  assert (NoDup (to_smiles <$> Sample.sample_kept)) as Hnd by compute_done.
  split; [exact Hnd|].
  exact (proj1 remove_duplicates_fixed_point Sample.sample_kept Hnd).
Defined.

Lemma smi_dict_entries_witness :
  ∃ smi_dict,
    Tailed.get_parameters Sample.mols_dict "openff.offxml" =
      Ok (Sample.sample_params.1, Sample.sample_params.2, smi_dict) ∧
    od_keys smi_dict = ["CO"; "CC"; "FC(Cl)Br"] ∧
    length smi_dict = 3%nat.
Proof.
  destruct (smi_dict_entries Sample.mols_dict "openff.offxml"
              Sample.sample_ff Sample.sample_off_mols Sample.sample_params
              sample_keys_NoDup sample_force_field sample_converted
              sample_parameterized) as (smi_dict & Hget & Hkeys & Hlen & _).
  exists smi_dict. split_and!; [exact Hget|by rewrite Hkeys|by rewrite Hlen].
Defined.

(** ** The natural sort of parameter ids *)

Section natural_sort_properties.
Import Tailed.

Lemma re_split_digits_cons c rest :
  re_split_digits (String c rest) =
  match re_split_digits rest with
  | s0 :: tl =>
      if is_digit c then
        match s0, tl with
        | EmptyString, d :: tl' => EmptyString :: String c d :: tl'
        | _, _ => EmptyString :: String c EmptyString :: s0 :: tl
        end
      else String c s0 :: tl
  | [] => [String c EmptyString]
  end.
Proof. reflexivity. Qed.

(** A run of digits is cut into itself, between two empty runs. *)
Lemma re_split_all_digits c d :
  is_digit c = true → all_digits d = true →
  re_split_digits (String c d) = [EmptyString; String c d; EmptyString].
Proof.
  revert c. induction d as [|c' d IH]; intros c Hc Hd.
  - rewrite re_split_digits_cons. simpl. by rewrite Hc.
  - unfold all_digits in Hd. simpl in Hd. apply andb_prop in Hd as [Hc' Hd].
    rewrite re_split_digits_cons, (IH c' Hc' Hd), Hc. done.
Qed.

(** An id made of a prefix without digits and a number. *)
Lemma re_split_numbered p d :
  no_digits p = true → isdigit d = true →
  re_split_digits (String.append p d) = [p; d; EmptyString].
Proof.
  intros Hp Hd. induction p as [|c p IH].
  - change (String.append EmptyString d) with d. destruct d as [|c d]; [done|].
    unfold isdigit, all_digits in Hd. simpl in Hd.
    apply andb_prop in Hd as [Hc Hd].
    rewrite re_split_all_digits by done. done.
  - unfold no_digits in Hp. simpl in Hp.
    apply andb_prop in Hp as [Hc%negb_true_iff Hp].
    change (String.append (String c p) d) with (String c (String.append p d)).
    rewrite re_split_digits_cons, (IH Hp), Hc. done.
Qed.

Lemma natural_keys_numbered p d :
  no_digits p = true → isdigit d = true →
  natural_keys (String.append p d) =
    [KStr p; KInt (int_of_digits d); KStr EmptyString].
Proof.
  intros Hp Hd. unfold natural_keys. rewrite re_split_numbered by done.
  csimpl. unfold atoi. by rewrite (no_digits_not_isdigit p Hp), Hd.
Qed.


(** X8. The sorted list does not depend on the order in which the ids
    come. Two lists with the same ids, in which no two ids have one key,
    are sorted to the same list. *)
Theorem natural_sort_any_order (l1 l2 : list string) :
  l1 ≡ₚ l2 →
  (∀ a b, a ∈ l1 → b ∈ l1 → natural_keys a = natural_keys b → a = b) →
  natural_sort l1 = natural_sort l2.
Proof.
  intros Hperm Hinj. rewrite !natural_sort_total. f_equal.
  apply (StronglySorted_unique_strong (not_after natural_keys key_ltb)).
  - intros a b Ha Hb Hab Hba. apply Hinj.
    + by rewrite sort_total_perm in Ha.
    + by rewrite sort_total_perm, <-Hperm in Hb.
    + unfold not_after, key_ltb in Hab, Hba. apply key_cmp_eq.
      pose proof (key_cmp_antisym (natural_keys a) (natural_keys b)) as Hanti.
      destruct (key_cmp (natural_keys a) (natural_keys b)); [done|done|].
      rewrite Hanti in Hab. done.
  - apply (sort_total_sorted natural_keys key_ltb).
    + intros a b. apply key_ltb_asym.
    + intros a b c. unfold not_after. apply key_not_after_trans.
  - apply (sort_total_sorted natural_keys key_ltb).
    + intros a b. apply key_ltb_asym.
    + intros a b c. unfold not_after. apply key_not_after_trans.
  - by rewrite !sort_total_perm.
Qed.
End natural_sort_properties.


Lemma natural_sort_any_order_witness :
  Tailed.natural_sort ["t3"; "b10"; "b2"] = Ok ["b2"; "b10"; "t3"] ∧
  Tailed.natural_sort ["b2"; "t3"; "b10"] = Ok ["b2"; "b10"; "t3"].
Proof.
  assert (["t3"; "b10"; "b2"] ≡ₚ ["b2"; "t3"; "b10"]) as Hperm.
  { apply (Permutation_trans (l' := ["b2"; "t3"; "b10"]));
      [|reflexivity]. symmetry.
    apply (Permutation_cons_append ["t3"; "b10"] "b2"). }
  assert (∀ a b, a ∈ ["t3"; "b10"; "b2"] → b ∈ ["t3"; "b10"; "b2"] →
            Tailed.natural_keys a = Tailed.natural_keys b → a = b) as Hinj.
  { intros a b Ha Hb.
    repeat (apply elem_of_cons in Ha as [->|Ha]);
      try (by apply elem_of_nil in Ha);
      repeat (apply elem_of_cons in Hb as [->|Hb]);
      try (by apply elem_of_nil in Hb); vm_compute; congruence. }
  rewrite <-(natural_sort_any_order _ _ Hperm Hinj). split; reflexivity.
Defined.

(** ** The counts and the filters of [main] *)

Section select_properties.
Context {A : Type}.

Lemma select_sublist (mask : list bool) (l : list A) :
  select mask l `sublist_of` l.
Proof.
  revert l. induction mask as [|b mask IH]; intros [|x l]; simpl;
    try apply sublist_nil_l.
  destruct b; [by apply sublist_skip|by apply sublist_cons].
Qed.

Lemma select_elem (mask : list bool) (l : list A) x :
  x ∈ select mask l → ∃ i, mask !! i = Some true ∧ l !! i = Some x.
Proof.
  revert l. induction mask as [|b mask IH]; intros [|y l]; simpl;
    try (by intros ?%elem_of_nil).
  destruct b.
  - intros [->|Hx]%elem_of_cons; [by exists 0%nat|].
    destruct (IH l Hx) as (i & Hm & Hl). by exists (S i).
  - intros Hx. destruct (IH l Hx) as (i & Hm & Hl). by exists (S i).
Qed.

Lemma select_all (mask : list bool) (l : list A) :
  length mask = length l → (∀ b, b ∈ mask → b = true) → select mask l = l.
Proof.
  revert l. induction mask as [|b mask IH]; intros [|x l] Hlen Hall;
    simpl in *; try done.
  rewrite (Hall b) by left. f_equal. apply IH; [lia|].
  intros b' Hb'. apply Hall. by right.
Qed.

Lemma select_none (mask : list bool) (l : list A) :
  (∀ b, b ∈ mask → b = false) → select mask l = [].
Proof.
  revert l. induction mask as [|b mask IH]; intros [|x l] Hall; simpl; try done.
  rewrite (Hall b) by left. apply IH. intros b' Hb'. apply Hall. by right.
Qed.

Lemma select_filter (P : A → bool) (l : list A) :
  select (P <$> l) l = filter (λ x, P x = true) l.
Proof.
  induction l as [|x l IH]; [done|]. csimpl. rewrite filter_cons, IH.
  destruct (P x); by case_decide.
Qed.
End select_properties.

Section counter_properties.
Import Tailed.

Lemma count_mols_by_param_missing (params : list string)
    (params_id_all params_id_out : gmap string (list string)) p :
  p ∈ params → params_id_all !! p = None →
  count_mols_by_param params params_id_all params_id_out = Raise KeyError.
Proof.
  intros Hin Hp. unfold count_mols_by_param.
  match goal with |- for_each ?b _ _ = _ => set (body := b) end.
  assert (∀ (acc : list Z * list Z) q,
    body acc q =
    match params_id_all !! q with
    | None => Raise KeyError
    | Some mols =>
        Ok (acc.1 ++ [Z.of_nat (length mols)],
            acc.2 ++ [match params_id_out !! q with
                      | Some mols => Z.of_nat (length mols)
                      | None => 0
                      end])
    end) as Hbody.
  { intros [a1 a2] q. unfold body. by destruct (params_id_all !! q). }
  generalize (@nil Z, @nil Z). induction params as [|q params IH]; intros acc.
  - by apply elem_of_nil in Hin.
  - simpl. rewrite Hbody.
    destruct (params_id_all !! q) as [mols|] eqn:Hq; [|done]. simpl.
    apply elem_of_cons in Hin as [->|Hin]; [congruence|]. by apply IH.
Qed.

(** X9. The counting loop. When every parameter is a key of the map of the
    full set, the loop gives one count per parameter in each array, the
    number of molecules listed under the parameter, and 0 in the outlier
    array for a parameter that is no key of the outlier map. A parameter
    that is no key of the map of the full set is an error: [KeyError]. *)
Theorem count_mols_by_param_cases (params : list string)
    (params_id_all params_id_out : gmap string (list string)) :
  ((∀ p, p ∈ params → is_Some (params_id_all !! p)) →
   ∃ cnt_all cnt_out,
     count_mols_by_param params params_id_all params_id_out =
       Ok (cnt_all, cnt_out) ∧
     length cnt_all = length params ∧ length cnt_out = length params ∧
     ∀ i p, params !! i = Some p →
       (∃ mols, params_id_all !! p = Some mols ∧
          cnt_all !! i = Some (Z.of_nat (length mols))) ∧
       (∀ mols, params_id_out !! p = Some mols →
          cnt_out !! i = Some (Z.of_nat (length mols))) ∧
       (params_id_out !! p = None → cnt_out !! i = Some 0)) ∧
  ((∃ p, p ∈ params ∧ params_id_all !! p = None) →
   count_mols_by_param params params_id_all params_id_out = Raise KeyError).
Proof.
  split.
  - intros Hall. eexists _, _. split; [by apply count_mols_by_param_ok|].
    rewrite !length_fmap. split_and!; [done|done|].
    intros i p Hi. rewrite !list_lookup_fmap, Hi. simpl.
    assert (p ∈ params) as Hp by (by eapply list_elem_of_lookup_2).
    destruct (Hall p Hp) as [mols Hmols]. split_and!.
    + exists mols. by rewrite Hmols.
    + by intros mols' ->.
    + by intros ->.
  - intros (p & Hp & Hnone). by apply (count_mols_by_param_missing _ _ _ p).
Qed.
End counter_properties.

Lemma count_mols_by_param_cases_witness :
  Tailed.count_mols_by_param ["b1"; "b2"]
    {[ "b1" := ["CC"; "CO"]; "b2" := ["CO"] ]} {[ "b1" := ["CC"] ]} =
    Ok ([2; 1], [1; 0]) ∧
  Tailed.count_mols_by_param ["b1"; "t9"]
    {[ "b1" := ["CC"; "CO"]; "b2" := ["CO"] ]} {[ "b1" := ["CC"] ]} =
    Raise KeyError.
Proof.
  split.
  - destruct (proj1 (count_mols_by_param_cases ["b1"; "b2"]
                {[ "b1" := ["CC"; "CO"]; "b2" := ["CO"] ]} {[ "b1" := ["CC"] ]}))
      as (cnt_all & cnt_out & Hcount & _).
    + intros p Hp.
      repeat (apply elem_of_cons in Hp as [->|Hp]; [by eexists|]).
      by apply elem_of_nil in Hp.
    + rewrite Hcount. vm_compute in Hcount. by injection Hcount as <- <-.
  - apply (proj2 (count_mols_by_param_cases ["b1"; "t9"]
                {[ "b1" := ["CC"; "CO"]; "b2" := ["CO"] ]} {[ "b1" := ["CC"] ]})).
    exists "t9". split; [|reflexivity]. right. by left.
Defined.

Section filter_properties.
Context `{Python} `{OEChem} `{!OpenFF oegraphmol}.
Import Tailed.

(** What [analyse] returns, with the two filters as selections. *)
Lemma analyse_report (data_all data_out : data) :
  ∃ params,
    params ≡ₚ elements (dom (params_id data_all)) ∧
    let cnt_all :=
      (λ p, Z.of_nat (length (default [] (params_id data_all !! p)))) <$> params in
    let cnt_out :=
      (λ p, Z.of_nat (length (default [] (params_id data_out !! p)))) <$> params in
    let a0 :=
      fractions params cnt_all cnt_out
        (Z.of_nat (size (params_mol data_all)))
        (Z.of_nat (size (params_mol data_out))) in
    let a1 := select_aligned (ones_mask cnt_all cnt_out) a0 in
    let a2 := select_aligned (nonzero_mask a1) a1 in
    analyse data_all data_out =
      Ok {| sorted_params := params; nmols_cnt_all := cnt_all;
            nmols_cnt_out := cnt_out;
            filtered :=
              {| without_ones := a1; without_zeros := a2;
                 fraction_ratio :=
                   zip_with PrimFloat.div (fraction_cnt_out a2)
                     (fraction_cnt_all a2) |} |}.
Proof.
  destruct (sorted_params_perm (params_id data_all)) as (params & Hsort & Hperm).
  exists params. split; [exact Hperm|]. intros cnt_all cnt_out a0 a1 a2.
  unfold analyse. rewrite Hsort. simpl.
  rewrite count_mols_by_param_ok; last first.
  { intros p Hp. rewrite Hperm in Hp.
    by apply elem_of_elements, elem_of_dom in Hp. }
  simpl.
  destruct (ratio_filter_select params cnt_all cnt_out
              (Z.of_nat (size (params_mol data_all)))
              (Z.of_nat (size (params_mol data_out))))
    as (_ & _ & E3); [apply length_fmap..|].
  fold cnt_all cnt_out. by rewrite E3.
Qed.

(** With every count of the outlier set 0, or 1 beside a 1 in the full set,
    the second filter leaves nothing. *)
Lemma ratio_filter_nothing_left params cnt_all cnt_out uniq_n_all uniq_n_out :
  length cnt_all = length params → length cnt_out = length params →
  1 ≤ uniq_n_out ≤ 1048576 →
  (∀ i ca co, cnt_all !! i = Some ca → cnt_out !! i = Some co →
     co = 0 ∨ (ca = 1 ∧ co = 1)) →
  let a1 :=
    select_aligned (ones_mask cnt_all cnt_out)
      (fractions params cnt_all cnt_out uniq_n_all uniq_n_out) in
  select_aligned (nonzero_mask a1) a1 =
    {| fraction_cnt_all := []; fraction_cnt_out := []; full_params := [] |}.
Proof.
  intros Hall Hout Hn Hcounts a1.
  assert (∀ b, b ∈ nonzero_mask a1 → b = false) as Hmask.
  { intros b (x & -> & Hx)%list_elem_of_fmap.
    apply select_elem in Hx as (i & Hm & Hx).
    unfold fractions, np_true_divide in Hx. simpl in Hx.
    rewrite list_lookup_fmap in Hx.
    destruct (cnt_out !! i) as [co|] eqn:Hco; [|done]. injection Hx as <-.
    destruct (lookup_lt_is_Some_2 cnt_all i) as [ca Hca].
    { apply lookup_lt_Some in Hco. lia. }
    destruct (Hcounts i ca co Hca Hco) as [->|[-> ->]].
    - pose proof (fraction_zero_small uniq_n_out Hn) as Htest.
      unfold fraction_zero_test in Htest.
      by apply andb_prop in Htest as [Hzero%negb_true_iff _].
    - apply ones_mask_lookup in Hm. destruct (proj1 Hm eq_refl).
      by apply ones_both_elem. }
  unfold select_aligned. by rewrite !select_none.
Qed.

(** X10. [main] without a parameter left. When every parameter the outlier
    set uses is used by one outlier molecule and by one molecule of the full
    set, and the outlier set has between 1 and 2^20 molecules, the two
    filters leave no parameter and [main] ends with the [ValueError] of
    [np.max] on an empty array: no plot is drawn. *)
Theorem main_nothing_left (mols : list oemol) (ffxml : string) (cutoff : float)
    (tag tag_smiles : string) (data_all data_out : data) :
  1 ≤ Z.of_nat (size (params_mol data_out)) ≤ 1048576 →
  (∀ p mols_out, params_id data_out !! p = Some mols_out →
     mols_out = [] ∨
     ∃ m_all m_out, params_id data_all !! p = Some [m_all] ∧ mols_out = [m_out]) →
  (∃ rep, analyse data_all data_out = Ok rep ∧
     full_params (without_zeros (filtered rep)) = [] ∧
     fraction_ratio (filtered rep) = []) ∧
  main mols ffxml cutoff tag tag_smiles (Some (data_all, data_out)) =
    Raise ValueError ∧
  main_plots mols ffxml cutoff tag tag_smiles (Some (data_all, data_out)) =
    Raise ValueError.
Proof.
  intros Hn Hused.
  destruct (analyse_report data_all data_out) as (params & Hperm & Hrep).
  cbv zeta in Hrep.
  rewrite ratio_filter_nothing_left in Hrep;
    [|by rewrite length_fmap|by rewrite length_fmap|exact Hn|].
  - simpl in Hrep. split_and!.
    + eexists. split; [exact Hrep|]. done.
    + unfold main. simpl. by rewrite Hrep.
    + unfold main_plots, main. simpl. by rewrite Hrep.
  - intros i ca co. rewrite !list_lookup_fmap.
    destruct (params !! i) as [p|] eqn:Hp; [|done]. simpl. intros [= <-] [= <-].
    destruct (params_id data_out !! p) as [mols_out|] eqn:Hout; [|by left].
    destruct (Hused p mols_out Hout) as [->|(m_all & m_out & -> & ->)];
      [by left|by right].
Qed.

(** X11. [main] without outliers. When the outlier set is empty, the
    fractions of the outlier set are [0 / 0], a NaN, which is not zero: the
    second filter drops nothing, and neither does the first. Every
    parameter of the full set is kept and gets a ratio. *)
Theorem main_without_outliers (data_all data_out : data) :
  params_mol data_out = ∅ → params_id data_out = ∅ →
  ∃ rep, analyse data_all data_out = Ok rep ∧
    Forall (λ c, c = 0) (nmols_cnt_out rep) ∧
    full_params (without_ones (filtered rep)) = sorted_params rep ∧
    full_params (without_zeros (filtered rep)) = sorted_params rep ∧
    length (fraction_ratio (filtered rep)) = length (sorted_params rep).
Proof.
  intros Hmol Hid.
  destruct (analyse_report data_all data_out) as (params & Hperm & Hrep).
  cbv zeta in Hrep. rewrite Hmol, Hid, map_size_empty in Hrep.
  eexists. split; [exact Hrep|]. cbn [nmols_cnt_out sorted_params filtered
    without_ones without_zeros fraction_ratio].
  set (cnt_all := (λ p, Z.of_nat (length (default [] (params_id data_all !! p))))
                    <$> params).
  set (cnt_out := (λ p : string,
                     Z.of_nat (length (default [] ((∅ : gmap string (list string)) !! p))))
                    <$> params).
  assert (∀ c, c ∈ cnt_out → c = 0) as Hzero.
  { intros c (p & -> & _)%list_elem_of_fmap. by rewrite lookup_empty. }
  assert (ones_mask cnt_all cnt_out = replicate (length params) true) as Hones.
  { unfold ones_mask. apply list_eq_same_length with (length params).
    - by rewrite length_replicate.
    - rewrite length_fmap, length_zip_with. unfold cnt_all, cnt_out.
      rewrite !length_fmap. lia.
    - intros i b b' Hi. rewrite lookup_replicate_2 by done.
      rewrite list_lookup_fmap.
      destruct (zip cnt_all cnt_out !! i) as [[ca co]|] eqn:Hz; [|done].
      apply lookup_zip_with_Some in Hz as (ca' & co' & [= <- <-] & _ & Hco).
      rewrite (Hzero co) by (by eapply list_elem_of_lookup_2). simpl.
      rewrite bool_decide_false by (by intros [_ ?]). by intros [= <-] [= <-]. }
  assert (∀ {B} (l : list B), length l = length params →
            select (replicate (length params) true) l = l) as Hsel.
  { intros B l Hl. apply select_all; [by rewrite length_replicate|].
    by intros b [-> _]%elem_of_replicate. }
  assert (select_aligned (ones_mask cnt_all cnt_out)
            (fractions params cnt_all cnt_out
               (Z.of_nat (size (params_mol data_all))) (Z.of_nat 0)) =
          fractions params cnt_all cnt_out
            (Z.of_nat (size (params_mol data_all))) (Z.of_nat 0)) as Ha1.
  { rewrite Hones. unfold select_aligned, fractions, np_true_divide. simpl.
    rewrite !Hsel; [done|done|..]; unfold cnt_all, cnt_out;
      by rewrite !length_fmap. }
  rewrite Ha1.
  assert (nonzero_mask (fractions params cnt_all cnt_out
            (Z.of_nat (size (params_mol data_all))) (Z.of_nat 0)) =
          replicate (length params) true) as Hnz.
  { unfold nonzero_mask, fractions, np_true_divide. simpl.
    apply list_eq_same_length with (length params).
    - by rewrite length_replicate.
    - unfold cnt_out. by rewrite !length_fmap.
    - intros i b b' Hi. rewrite lookup_replicate_2 by done.
      rewrite !list_lookup_fmap.
      destruct (cnt_out !! i) as [co|] eqn:Hco; [|done]. simpl.
      rewrite (Hzero co) by (by eapply list_elem_of_lookup_2).
      by intros [= <-] [= <-]. }
  rewrite Hnz. unfold select_aligned, fractions, np_true_divide. simpl.
  assert (length cnt_all = length params) as Hla
    by (unfold cnt_all; by rewrite length_fmap).
  assert (length cnt_out = length params) as Hlo
    by (unfold cnt_out; by rewrite length_fmap).
  rewrite !Hsel by (by rewrite ?length_fmap).
  split_and!; [|done|done|].
  - apply Forall_forall. exact Hzero.
  - rewrite length_zip_with, !length_fmap. lia.
Qed.
End filter_properties.

(** On the sample set with its last molecule as the only outlier, the one
    parameter of that molecule is used by no other: nothing is left. Without
    any outlier the four parameters all stay. *)
Lemma main_nothing_left_witness :
  Tailed.main Sample.scenario_mols "openff.offxml" 1%float "RMSD" "SMILES"
    (Some (Sample.data_all, Sample.data_one_outlier)) = Raise ValueError.
Proof.
  refine (proj1 (proj2 (main_nothing_left Sample.scenario_mols "openff.offxml"
            1%float "RMSD" "SMILES" Sample.data_all Sample.data_one_outlier _ _))).
  - vm_compute. split; discriminate.
  - intros p mols_out Hp. simpl in Hp.
    apply lookup_singleton_Some in Hp as [<- <-]. right.
    exists "FC(Cl)Br", "FC(Cl)Br". split; [|reflexivity].
    vm_compute. reflexivity.
Defined.

Lemma main_without_outliers_witness :
  ∃ rep, Tailed.analyse Sample.data_all Sample.data_no_outlier = Ok rep ∧
    Tailed.sorted_params rep = ["b1"; "b2"; "b3"; "n2"] ∧
    Tailed.full_params (Tailed.without_zeros (Tailed.filtered rep)) =
      ["b1"; "b2"; "b3"; "n2"].
Proof.
  destruct (main_without_outliers (H := Sample.python)
              Sample.data_all Sample.data_no_outlier eq_refl eq_refl)
    as (rep & Hrep & _ & _ & Hkept & _).
  exists rep. split; [exact Hrep|]. rewrite Hkept.
  assert (Tailed.sorted_params rep = ["b1"; "b2"; "b3"; "n2"]) as ->;
    [|split; reflexivity].
  vm_compute in Hrep. injection Hrep as <-. reflexivity.
Defined.

(** ** The plots of [main] *)

Section plot_properties.
Context `{Python} `{OEChem} `{!OpenFF oegraphmol}.
Import Tailed.

Lemma py_index_app (pre l : list string) x :
  x ∉ pre → py_index (pre ++ x :: l) x = Ok (length pre).
Proof.
  induction pre as [|y pre IH]; intros Hx; simpl.
  - by rewrite decide_True.
  - apply not_elem_of_cons in Hx as [Hne Hx].
    rewrite decide_False by done. by rewrite IH.
Qed.

(** In a list without repetitions, [index] of an element is its position:
    the indices of the elements that pass a test. *)
Lemma map_index_filter (P : string → Prop) `{!∀ x, Decision (P x)}
    (pre l : list string) :
  NoDup (pre ++ l) →
  map_res (py_index (pre ++ l)) (filter P l) =
  Ok (filter (λ p, P p.2) (imap (λ i x, (length pre + i, x)%nat) l)).*1.
Proof.
  revert pre. induction l as [|x l IH]; intros pre Hnd; [done|].
  assert (imap ((λ i x0, (length pre + i, x0)%nat) ∘ S) l =
          imap (λ i x0, (length (pre ++ [x]) + i, x0)%nat) l) as Himap.
  { apply imap_ext. intros i z _. simpl. rewrite length_app. simpl.
    f_equal. lia. }
  specialize (IH (pre ++ [x])). rewrite <-app_assoc in IH. simpl in IH.
  specialize (IH Hnd).
  rewrite !filter_cons. cbn [imap]. rewrite filter_cons, Himap. simpl.
  case_decide as Hx.
  - csimpl. rewrite py_index_app, Nat.add_0_r.
    + simpl. by rewrite IH.
    + apply NoDup_app in Hnd as (_ & Hdisj & _). intros Hin.
      apply (Hdisj x Hin). by left.
  - exact IH.
Qed.

(** One plot: the labels are the ids that start with the prefix, in order,
    and the data are the ratios at the same positions. *)
Lemma plot_subset_select (fp : list string) (ratio : list float)
    (max_ratio : float) (t : string) :
  NoDup fp → length ratio = length fp →
  plot_subset fp ratio max_ratio t =
    Ok {| plot_prefix := t; plot_max_ratio := max_ratio;
          plot_labels := filter (λ p, startswith p t = true) fp;
          plot_data := select ((λ p, startswith p t) <$> fp) ratio |}.
Proof.
  intros Hnd Hlen. unfold plot_subset.
  rewrite (map_index_filter (λ p, startswith p t = true) [] fp Hnd). simpl.
  assert ((λ p, bool_decide (startswith p t = true)) <$> fp =
          (λ p, startswith p t) <$> fp) as Hmask.
  { apply list_fmap_ext. intros _ p _. by destruct (startswith p t). }
  unfold np_take.
  pose proof (take_enumerate_select (λ p, startswith p t = true) fp ratio []
                (eq_sym Hlen)) as Hdata.
  pose proof (take_enumerate_select (λ p, startswith p t = true) fp fp []
                eq_refl) as Hlabels.
  simpl in Hdata, Hlabels. rewrite Hdata. simpl. rewrite Hlabels. simpl.
  by rewrite Hmask, select_filter.
Qed.

(** A parameter id starts with at most one of the five prefixes. *)
Lemma startswith_char p a :
  startswith p (String a EmptyString) = true ↔ ∃ rest, p = String a rest.
Proof.
  unfold startswith. destruct p as [|c rest]; cbn [String.prefix].
  - split; [done|by intros [? ?]].
  - destruct (Ascii.ascii_dec a c) as [->|Hne].
    + split; [by exists rest|]. intros _. by destruct rest.
    + split; [done|]. intros [rest' [= -> _]]. done.
Qed.

Lemma param_types_exclusive p t t' :
  t ∈ param_types → t' ∈ param_types →
  startswith p t = true → startswith p t' = true → t = t'.
Proof.
  unfold param_types. intros Ht Ht'.
  assert (∃ a, t = String a EmptyString) as [a ->].
  { repeat (apply elem_of_cons in Ht as [->|Ht]; [by eexists|]).
    by apply elem_of_nil in Ht. }
  assert (∃ a, t' = String a EmptyString) as [a' ->].
  { repeat (apply elem_of_cons in Ht' as [->|Ht']; [by eexists|]).
    by apply elem_of_nil in Ht'. }
  intros [rest ->]%startswith_char [rest' [= <- _]]%startswith_char. done.
Qed.

End plot_properties.


(** ** The command line of the analysis *)

Section command_line_properties.
Context `{Python}.
Import Tailed.

Lemma store_given d' value ns ns1 d :
  store d' value ns = Ok ns1 → given d ns1 = true → d = d' ∨ given d ns = true.
Proof.
  destruct d'; simpl;
    try (intros [= <-]; destruct d; simpl; auto);
    destruct (py_float value); try done;
    intros [= <-]; destruct d; simpl; auto.
Qed.

Lemma store_raises d value ns e : store d value ns = Raise e → e = SystemExit.
Proof.
  destruct d; simpl; try done.
  destruct (py_float value); [done|by intros [= <-]].
Qed.

(** A value in the namespace was there from the start or was stored by an
    option of the command line. *)
Lemma consume_given pending argv ns ns' d :
  consume pending argv ns = Ok ns' → given d ns' = true →
  given d ns = true ∨ pending = Some d ∨
  ∃ tok, tok ∈ argv ∧ od_get tok option_strings = Some (Store d).
Proof.
  revert pending ns. induction argv as [|tok rest IH]; intros pending ns;
    cbn [consume].
  - destruct pending; [done|]. intros [= <-] Hd. by left.
  - destruct pending as [d'|].
    + destruct (option_like tok); [done|].
      destruct (store d' tok ns) as [ns1|] eqn:Hstore; [|done].
      cbn [mbind res_bind]. intros Hrest Hd.
      destruct (IH _ _ Hrest Hd) as [Hg|[?|(tok' & Hin & Hopt)]]; [|done|].
      * destruct (store_given _ _ _ _ _ Hstore Hg) as [->|?]; auto.
      * right. right. exists tok'. split; [by right|done].
    + destruct (od_get tok option_strings) as [[d'|t|]|] eqn:Htok; try done.
      * intros Hrest Hd.
        destruct (IH _ _ Hrest Hd) as [Hg|[[= ->]|(tok' & Hin & Hopt)]].
        -- by left.
        -- right. right. exists tok. split; [by left|done].
        -- right. right. exists tok'. split; [by right|done].
      * intros Hrest Hd.
        destruct (IH _ _ Hrest Hd) as [Hg|[?|(tok' & Hin & Hopt)]]; [|done|].
        -- left. by destruct t, d.
        -- right. right. exists tok'. split; [by right|done].
Qed.

Lemma consume_raises pending argv ns e :
  consume pending argv ns = Raise e → e = SystemExit.
Proof.
  revert pending ns. induction argv as [|tok rest IH]; intros pending ns;
    cbn [consume].
  - destruct pending; [by intros [= <-]|done].
  - destruct pending as [d'|].
    + destruct (option_like tok); [by intros [= <-]|].
      destruct (store d' tok ns) as [ns1|e'] eqn:Hstore; cbn [mbind res_bind].
      * apply IH.
      * intros [= <-]. by apply store_raises in Hstore.
    + destruct (od_get tok option_strings) as [[d'|t|]|];
        try (by intros [= <-]); apply IH.
Qed.

Lemma parse_args_raises argv e : parse_args argv = Raise e → e = SystemExit.
Proof.
  unfold parse_args.
  destruct (consume None argv ns_default) as [ns|e'] eqn:Hc; simpl.
  - destruct (ns_infile ns), (ns_ffxml ns), (ns_cutoff ns), (ns_tag ns),
      (ns_tag_smiles ns); by intros [= <-].
  - intros [= <-]. by apply consume_raises in Hc.
Qed.

Lemma parse_args_given argv ns d :
  parse_args argv = Ok ns → d ∈ required →
  ∃ tok, tok ∈ argv ∧ od_get tok option_strings = Some (Store d).
Proof.
  unfold parse_args.
  destruct (consume None argv ns_default) as [ns1|] eqn:Hc; [|done]. simpl.
  intros Hns Hd.
  assert (ns = ns1 ∧ given d ns1 = true) as [-> Hg].
  { destruct (ns_infile ns1) eqn:?, (ns_ffxml ns1) eqn:?, (ns_cutoff ns1) eqn:?,
      (ns_tag ns1) eqn:?, (ns_tag_smiles ns1) eqn:?; try done.
    injection Hns as <-. split; [done|].
    unfold required in Hd.
    repeat (apply elem_of_cons in Hd as [->|Hd];
            [simpl; apply bool_decide_eq_true; by eexists|]).
    by apply elem_of_nil in Hd. }
  destruct (consume_given _ _ _ _ _ Hc Hg) as [Hdef|[?|?]]; [|done|done].
  by destruct d.
Qed.

Lemma option_strings_store tok d :
  od_get tok option_strings = Some (Store d) →
  match d with
  | Infile => tok = "-i" ∨ tok = "--infile"
  | Ffxml => tok = "-f" ∨ tok = "--ffxml"
  | Cutoff => tok = "--cutoff"
  | Tag => tok = "--tag"
  | TagSmiles => tok = "--tag_smiles"
  | Inpickle => tok = "--inpickle"
  end.
Proof.
  unfold option_strings. simpl.
  repeat (case_decide; [subst; intros [= <-]; auto|]). done.
Qed.


End command_line_properties.


(** ** The minimizer: what a run enters and writes *)

Section minimize_properties.
Context `{Minimize.Engines}.
Import Minimize.
Implicit Types (log : list event) (minimizer : string) (ffxml : option string).

Lemma for_each_logged_app {A} (body : A → list event → list event * res unit)
    (l1 l2 : list A) log :
  for_each_logged body (l1 ++ l2) log =
  match for_each_logged body l1 log with
  | (log1, Ok _) => for_each_logged body l2 log1
  | (log1, Raise e) => (log1, Raise e)
  end.
Proof.
  revert log. induction l1 as [|x l1 IH]; intros log; simpl; [done|].
  destruct (body x log) as [log' [u|e]]; [apply IH|done].
Qed.

Lemma entered_app log1 log2 : entered (log1 ++ log2) = entered log1 ++ entered log2.
Proof. apply omap_app. Qed.

Lemma writes_app log1 log2 : writes (log1 ++ log2) = writes log1 ++ writes log2.
Proof. apply omap_app. Qed.

Lemma entered_wrote (ws : list written) : entered (Wrote <$> ws) = [].
Proof. induction ws; [done|]. csimpl. done. Qed.

Lemma writes_wrote (ws : list written) : writes (Wrote <$> ws) = ws.
Proof. induction ws as [|w ws IH]; [done|]. csimpl. by rewrite IH. Qed.

(** A minimizer returns no record or one record, with its SD tag. *)
Lemma min_ffxml_records (mol : oeconf) ffxml ws :
  min_ffxml mol ffxml = Ok ws →
  (length ws ≤ 1)%nat ∧ ∀ w, w ∈ ws → w.1.2 = "Energy FFXML".
Proof.
  unfold min_ffxml.
  destruct (create_openmm_system mol ffxml) as [system|e].
  - destruct (run_openmm system mol) as [[newpos en]|]; [|done]. simpl.
    intros [= <-]. split; [simpl; lia|].
    by intros w ->%list_elem_of_singleton.
  - destruct (is_Exception e); [|done]. intros [= <-].
    split; [simpl; lia|]. by intros w ?%elem_of_nil.
Qed.

Lemma min_mmff94x_records (mol : oeconf) (mmff94s : bool) ws :
  min_mmff94x mol mmff94s = Ok ws →
  length ws = 1%nat ∧
  ∀ w, w ∈ ws → w.1.2 = if mmff94s then "Energy MMFF94S" else "Energy MMFF94".
Proof.
  unfold min_mmff94x. destruct (szybki mmff94s mol) as [[ok oe_mol] en].
  intros [= <-]. split; [done|].
  intros w ->%list_elem_of_singleton. by destruct mmff94s.
Qed.

Lemma min_gaffx_records (mol : oeconf) (gaff2 : bool) ws :
  min_gaffx mol gaff2 = Ok ws →
  (length ws ≤ 1)%nat ∧
  ∀ w, w ∈ ws → w.1.2 = if gaff2 then "Energy GAFF2" else "Energy GAFF".
Proof.
  unfold min_gaffx. destruct (molecule_to_mol2 mol) as [tmol2|]; [|done]. simpl.
  destruct (run_antechamber gaff2 tmol2) as [gmol2|e].
  - destruct (amber_system gaff2 gmol2) as [system|]; [|done]. simpl.
    destruct (run_openmm system mol) as [[newpos en]|]; [|done]. simpl.
    intros [= <-]. split; [simpl; lia|].
    intros w ->%list_elem_of_singleton. by destruct gaff2.
  - destruct (is_Exception e); [|done]. intros [= <-].
    split; [simpl; lia|]. by intros w ?%elem_of_nil.
Qed.

(** A call that is not selected, or whose minimizer raises, leaves the log
    as it is; a selected one appends what the minimizer returns. *)
Lemma call_minimizer_cases (selected : bool) (run : res (list written)) log :
  call_minimizer selected run log =
    match selected, run with
    | true, Ok ws => (log ++ (Wrote <$> ws), Ok ())
    | true, Raise e => (log, Raise e)
    | false, _ => (log, Ok ())
    end.
Proof. by destruct selected, run. Qed.

(** The loop body for one conformer: at most one record is appended, none
    when the body raises, and its SD tag is that of the minimizer. *)
Lemma minimize_conf_adds minimizer ffxml (chg_mol : charges) (conf : oeconf) log :
  ∃ ws,
    (minimize_conf minimizer ffxml chg_mol conf log).1 = log ++ (Wrote <$> ws) ∧
    (length ws ≤ 1)%nat ∧
    ((minimize_conf minimizer ffxml chg_mol conf log).2 ≠ Ok () → ws = []) ∧
    ∀ w, w ∈ ws → (minimizer, w.1.2) ∈ sd_tags.
Proof.
  unfold minimize_conf.
  set (c := SetPartialCharges chg_mol (OE3DToInternalStereo conf)).
  cbn [for_each_logged]. rewrite !call_minimizer_cases.
  assert (∀ log', ∃ ws : list written,
            log' = log' ++ (Wrote <$> ws) ∧ (length ws ≤ 1)%nat ∧
            ws = [] ∧ ∀ w, w ∈ ws → (minimizer, w.1.2) ∈ sd_tags) as Hnone.
  { intros log'. exists []. rewrite app_nil_r. split_and!; [done|simpl; lia|done|].
    by intros w ?%elem_of_nil. }
  unfold sd_tags.
  destruct (decide (minimizer = "ffxml")) as [->|H1].
  { simpl. destruct (min_ffxml c ffxml) as [ws|e] eqn:Hrun.
    - apply min_ffxml_records in Hrun as [Hlen Htag]. exists ws.
      split_and!; [done|done|done|].
      intros w Hw. rewrite (Htag w Hw). set_solver.
    - destruct (Hnone log) as (ws & ? & ? & ? & ?). by exists ws. }
  rewrite (bool_decide_false (minimizer = "ffxml")) by done.
  destruct (decide (minimizer = "mmff94")) as [->|H2].
  { simpl. destruct (min_mmff94x c false) as [ws|e] eqn:Hrun.
    - apply min_mmff94x_records in Hrun as [Hlen Htag]. exists ws.
      split_and!; [done|lia|done|].
      intros w Hw. rewrite (Htag w Hw). set_solver.
    - destruct (Hnone log) as (ws & ? & ? & ? & ?). by exists ws. }
  rewrite (bool_decide_false (minimizer = "mmff94")) by done.
  destruct (decide (minimizer = "mmff94s")) as [->|H3].
  { simpl. destruct (min_mmff94x c true) as [ws|e] eqn:Hrun.
    - apply min_mmff94x_records in Hrun as [Hlen Htag]. exists ws.
      split_and!; [done|lia|done|].
      intros w Hw. rewrite (Htag w Hw). set_solver.
    - destruct (Hnone log) as (ws & ? & ? & ? & ?). by exists ws. }
  rewrite (bool_decide_false (minimizer = "mmff94s")) by done.
  destruct (decide (minimizer = "gaff")) as [->|H4].
  { simpl. destruct (min_gaffx c false) as [ws|e] eqn:Hrun.
    - apply min_gaffx_records in Hrun as [Hlen Htag]. exists ws.
      split_and!; [done|done|done|].
      intros w Hw. rewrite (Htag w Hw). set_solver.
    - destruct (Hnone log) as (ws & ? & ? & ? & ?). by exists ws. }
  rewrite (bool_decide_false (minimizer = "gaff")) by done.
  destruct (decide (minimizer = "gaff2")) as [->|H5].
  { simpl. destruct (min_gaffx c true) as [ws|e] eqn:Hrun.
    - apply min_gaffx_records in Hrun as [Hlen Htag]. exists ws.
      split_and!; [done|done|done|].
      intros w Hw. rewrite (Htag w Hw). set_solver.
    - destruct (Hnone log) as (ws & ? & ? & ? & ?). by exists ws. }
  rewrite (bool_decide_false (minimizer = "gaff2")) by done.
  simpl. destruct (Hnone log) as (ws & ? & ? & ? & ?). by exists ws.
Qed.

(** With a name that is none of the five, no minimizer is called. *)
Lemma minimize_conf_unknown minimizer ffxml (chg_mol : charges)
    (conf : oeconf) log :
  minimizer ∉ sd_tags.*1 →
  minimize_conf minimizer ffxml chg_mol conf log = (log, Ok ()).
Proof.
  unfold sd_tags. csimpl. rewrite !not_elem_of_cons.
  intros (? & ? & ? & ? & ? & _). unfold minimize_conf.
  by rewrite !bool_decide_false by done.
Qed.

(** With MMFF94 or MMFF94S the body appends one record and does not raise,
    whatever Szybki reports. *)
Lemma minimize_conf_mmff94 (mmff94s : bool) ffxml (chg_mol : charges)
    (conf : oeconf) log :
  ∃ w, minimize_conf (if mmff94s then "mmff94s" else "mmff94") ffxml chg_mol
         conf log = (log ++ [Wrote w], Ok ()).
Proof.
  unfold minimize_conf, min_mmff94x.
  set (c := SetPartialCharges chg_mol (OE3DToInternalStereo conf)).
  destruct mmff94s; simpl.
  - destruct (szybki true c) as [[ok oe_mol] en]. by eexists.
  - destruct (szybki false c) as [[ok oe_mol] en]. by eexists.
Qed.

(** The loop over the conformers of a molecule. *)
Lemma confs_loop_adds minimizer ffxml (chg_mol : charges)
    (confs : list oeconf) log :
  ∃ ws,
    (for_each_logged (minimize_conf minimizer ffxml chg_mol) confs log).1 =
      log ++ (Wrote <$> ws) ∧
    (length ws ≤ length confs)%nat ∧
    ∀ w, w ∈ ws → (minimizer, w.1.2) ∈ sd_tags.
Proof.
  revert log. induction confs as [|conf confs IH]; intros log; simpl.
  - exists []. rewrite app_nil_r. split_and!; [done|done|].
    by intros w ?%elem_of_nil.
  - destruct (minimize_conf_adds minimizer ffxml chg_mol conf log)
      as (ws1 & Hlog1 & Hlen1 & _ & Htag1).
    destruct (minimize_conf minimizer ffxml chg_mol conf log) as [log1 [u|e]];
      simpl in Hlog1; subst log1.
    + destruct (IH (log ++ (Wrote <$> ws1))) as (ws2 & Hlog2 & Hlen2 & Htag2).
      exists (ws1 ++ ws2). rewrite Hlog2, fmap_app, app_assoc, length_app.
      split_and!; [done|lia|].
      intros w [?|?]%elem_of_app; auto.
    + exists ws1. split_and!; [done|lia|done].
Qed.

Lemma confs_loop_mmff94 (mmff94s : bool) ffxml (chg_mol : charges)
    (confs : list oeconf) log :
  ∃ ws,
    for_each_logged
      (minimize_conf (if mmff94s then "mmff94s" else "mmff94") ffxml chg_mol)
      confs log = (log ++ (Wrote <$> ws), Ok ()) ∧
    length ws = length confs.
Proof.
  revert log. induction confs as [|conf confs IH]; intros log; simpl.
  - exists []. by rewrite app_nil_r.
  - destruct (minimize_conf_mmff94 mmff94s ffxml chg_mol conf log) as [w ->].
    destruct (IH (log ++ [Wrote w])) as (ws & -> & Hlen).
    exists (w :: ws). rewrite <-app_assoc. simpl. by rewrite Hlen.
Qed.

(** The loop body for one molecule: its [Enter] event, and then at most one
    record for each conformer visited. *)
Lemma minimize_mol_adds minimizer ffxml (mol : oemol) log :
  ∃ ws,
    (minimize_mol minimizer ffxml mol log).1 =
      log ++ Enter mol :: (Wrote <$> ws) ∧
    (length ws ≤ length (charged_confs mol))%nat ∧
    ∀ w, w ∈ ws → (minimizer, w.1.2) ∈ sd_tags.
Proof.
  assert (∃ ws : list written,
            log ++ [Enter mol] = log ++ Enter mol :: (Wrote <$> ws) ∧
            (length ws ≤ length (charged_confs mol))%nat ∧
            ∀ w, w ∈ ws → (minimizer, w.1.2) ∈ sd_tags) as Hnone.
  { exists []. split_and!; [done|simpl; lia|]. by intros w ?%elem_of_nil. }
  unfold minimize_mol. unfold charged_confs in *. cbv zeta in *.
  destruct (get_charges (perceive mol)) as [chg|e].
  - destruct (confs_loop_adds minimizer ffxml chg (GetConfs (perceive mol))
                (log ++ [Enter mol])) as (ws & -> & Hlen & Htag).
    exists ws. by rewrite <-app_assoc.
  - destruct e; try exact Hnone.
    destruct (get_charges (stereo_from_3d (perceive mol))) as [chg|e].
    + destruct (confs_loop_adds minimizer ffxml chg
                  (GetConfs (stereo_from_3d (perceive mol)))
                  (log ++ [Enter mol])) as (ws & -> & Hlen & Htag).
      exists ws. by rewrite <-app_assoc.
    + destruct e; exact Hnone.
Qed.

(** The loop over the molecules: they are entered in order, up to the one
    where the loop raises, and at most one record is written for each
    conformer visited. *)
Lemma mols_loop_adds minimizer ffxml (mols : list oemol) log :
  ∃ (entered_mols : list oemol) (ws : list written) ,
    let out := for_each_logged (minimize_mol minimizer ffxml) mols log in
    entered out.1 = entered log ++ entered_mols ∧
    writes out.1 = writes log ++ ws ∧
    (length ws ≤ length (entered_mols ≫= charged_confs))%nat ∧
    (∀ w, w ∈ ws → (minimizer, w.1.2) ∈ sd_tags) ∧
    match out.2 with
    | Ok _ => entered_mols = mols
    | Raise _ => ∃ pre mol post,
        mols = pre ++ mol :: post ∧ entered_mols = pre ++ [mol]
    end.
Proof.
  revert log. induction mols as [|mol mols IH]; intros log; simpl.
  - exists [], []. rewrite !app_nil_r. split_and!; try done.
    by intros w ?%elem_of_nil.
  - destruct (minimize_mol_adds minimizer ffxml mol log)
      as (ws1 & Hlog1 & Hlen1 & Htag1).
    assert (entered (log ++ Enter mol :: (Wrote <$> ws1)) = entered log ++ [mol])
      as Hent.
    { rewrite entered_app. f_equal.
      change (mol :: entered (Wrote <$> ws1) = [mol]).
      by rewrite entered_wrote. }
    assert (writes (log ++ Enter mol :: (Wrote <$> ws1)) = writes log ++ ws1)
      as Hwr.
    { rewrite writes_app. f_equal.
      change (writes (Wrote <$> ws1) = ws1). apply writes_wrote. }
    destruct (minimize_mol minimizer ffxml mol log) as [log1 [u|e]];
      simpl in Hlog1; subst log1.
    + destruct (IH (log ++ Enter mol :: (Wrote <$> ws1)))
        as (ms & ws2 & He & Hw & Hlen2 & Htag2 & Hend).
      cbv zeta in He, Hw, Hend.
      exists (mol :: ms), (ws1 ++ ws2). cbv zeta.
      rewrite He, Hw, Hent, Hwr, <-!app_assoc. csimpl.
      rewrite !length_app. split_and!; [done|done|lia| |].
      * intros w [?|?]%elem_of_app; auto.
      * destruct (for_each_logged _ mols _) as [log2 [u2|e2]]; simpl in *.
        -- by rewrite Hend.
        -- destruct Hend as (pre & m & post & -> & ->).
           by exists (mol :: pre), m, post.
    + exists [mol], ws1. cbv zeta. simpl. rewrite Hent, Hwr, app_nil_r.
      split_and!; [done|done|done|done|].
      by exists [], mol, mols.
Qed.
End minimize_properties.

Section minimize_runs.
Context `{Minimize.Engines}.
Import Minimize.
Implicit Types (log : list event) (minimizer : string) (ffxml : option string).

(** [main] is the loop over the molecules, or one of its three refusals. *)
Lemma main_cases (fs : files) (infile outfile : string) ffxml minimizer :
  main fs infile outfile ffxml minimizer =
    (if negb (opens_for_reading fs infile) then ([], Raise FileNotFoundError)
     else if path_exists fs outfile then ([], Raise FileExistsError)
     else if negb (opens_for_writing fs outfile) then ([], Raise OEFatal)
     else for_each_logged (minimize_mol minimizer ffxml) (GetOEMols infile) []).
Proof. reflexivity. Qed.

(** With MMFF94 or MMFF94S a molecule gets one record for each conformer
    visited, and its turn ends badly only when the charge assignment
    raises. *)
Lemma minimize_mol_mmff94 (mmff94s : bool) ffxml (mol : oemol) log :
  ∃ ws,
    let out :=
      minimize_mol (if mmff94s then "mmff94s" else "mmff94") ffxml mol log in
    out.1 = log ++ Enter mol :: (Wrote <$> ws) ∧
    length ws = length (charged_confs mol) ∧
    ∀ e, out.2 = Raise e →
      get_charges (perceive mol) = Raise e ∨
      (get_charges (perceive mol) = Raise RuntimeError ∧
       get_charges (stereo_from_3d (perceive mol)) = Raise e).
Proof.
  unfold minimize_mol, charged_confs. cbv zeta.
  destruct (get_charges (perceive mol)) as [chg|e].
  - destruct (confs_loop_mmff94 mmff94s ffxml chg (GetConfs (perceive mol))
                (log ++ [Enter mol])) as (ws & -> & Hlen).
    exists ws. rewrite <-app_assoc. by split_and!.
  - destruct e; try (exists []; split_and!; [done|done|]; intros e [= <-]; by left).
    destruct (get_charges (stereo_from_3d (perceive mol))) as [chg|e].
    + destruct (confs_loop_mmff94 mmff94s ffxml chg
                  (GetConfs (stereo_from_3d (perceive mol)))
                  (log ++ [Enter mol])) as (ws & -> & Hlen).
      exists ws. rewrite <-app_assoc. by split_and!.
    + destruct e; exists []; split_and!; try done; intros e [= <-]; by right.
Qed.

Lemma mols_loop_mmff94 (mmff94s : bool) ffxml (mols : list oemol) log :
  let out :=
    for_each_logged
      (minimize_mol (if mmff94s then "mmff94s" else "mmff94") ffxml) mols log in
  length (writes out.1) =
    (length (writes log) +
     length (drop (length (entered log)) (entered out.1) ≫= charged_confs))%nat ∧
  ∀ e, out.2 = Raise e →
    ∃ mol, mol ∈ mols ∧
      (get_charges (perceive mol) = Raise e ∨
       (get_charges (perceive mol) = Raise RuntimeError ∧
        get_charges (stereo_from_3d (perceive mol)) = Raise e)).
Proof.
  revert log. induction mols as [|mol mols IH]; intros log; simpl.
  - rewrite drop_all. csimpl. split; [lia|done].
  - destruct (minimize_mol_mmff94 mmff94s ffxml mol log)
      as (ws1 & Hlog1 & Hlen1 & Herr1).
    cbv zeta in Hlog1, Herr1.
    assert (entered (log ++ Enter mol :: (Wrote <$> ws1)) = entered log ++ [mol])
      as Hent.
    { rewrite entered_app. f_equal.
      change (mol :: entered (Wrote <$> ws1) = [mol]).
      by rewrite entered_wrote. }
    assert (writes (log ++ Enter mol :: (Wrote <$> ws1)) = writes log ++ ws1)
      as Hwr.
    { rewrite writes_app. f_equal.
      change (writes (Wrote <$> ws1) = ws1). apply writes_wrote. }
    destruct (minimize_mol _ ffxml mol log) as [log1 [u|e]];
      simpl in Hlog1; subst log1.
    + destruct (IH (log ++ Enter mol :: (Wrote <$> ws1))) as [Hcount Herr].
      cbv zeta in Hcount, Herr. split.
      * rewrite Hcount, Hwr, Hent, !length_app. simpl.
        destruct (mols_loop_adds (if mmff94s then "mmff94s" else "mmff94")
                    ffxml mols (log ++ Enter mol :: (Wrote <$> ws1)))
          as (ms & _ & He & _).
        cbv zeta in He. rewrite He, Hent, <-app_assoc.
        rewrite drop_app_length.
        replace (length (entered log) + 1)%nat
          with (length (entered log ++ [mol]))
          by (rewrite length_app; simpl; lia).
        rewrite (app_assoc (entered log) [mol] ms), drop_app_length.
        csimpl. rewrite length_app. lia.
      * intros e He. destruct (Herr e He) as (m & Hin & Hm).
        exists m. split; [by right|done].
    + simpl. split.
      * rewrite Hwr, Hent, drop_app_length, length_app. csimpl.
        rewrite app_nil_r. lia.
      * intros e' [= <-]. exists mol. split; [by left|]. by apply Herr1.
Qed.

(** X15. The order of a run. The molecules are entered in the order of the
    input file. A run that returns normally has entered every molecule; a
    run that ends with an exception was refused before the loop, with
    nothing entered or written, or has entered the molecules up to the one
    at which the exception was raised and none after it. *)
Theorem run_enters_in_order (fs : files) (infile outfile : string)
    ffxml minimizer :
  let out := main fs infile outfile ffxml minimizer in
  match out.2 with
  | Ok _ => entered out.1 = GetOEMols infile
  | Raise _ =>
      out.1 = [] ∨
      ∃ pre mol post,
        GetOEMols infile = pre ++ mol :: post ∧ entered out.1 = pre ++ [mol]
  end.
Proof.
  cbv zeta. rewrite main_cases.
  destruct (negb (opens_for_reading fs infile)); [by left|].
  destruct (path_exists fs outfile); [by left|].
  destruct (negb (opens_for_writing fs outfile)); [by left|].
  destruct (mols_loop_adds minimizer ffxml (GetOEMols infile) [])
    as (ms & ws & He & _ & _ & _ & Hend).
  cbv zeta in He, Hend. simpl in He.
  destruct (for_each_logged _ (GetOEMols infile) []) as [log [u|e]]; simpl in *.
  - by rewrite He.
  - right. destruct Hend as (pre & mol & post & Hmols & ->).
    by exists pre, mol, post.
Qed.

(** X16. The records of a run. Whatever the engines do, a run writes at
    most one record for each conformer of the molecules it has entered and
    charged, and every record carries the SD tag of the minimizer; with a
    name that is none of the five minimizers nothing is written at all. *)
Theorem run_records (fs : files) (infile outfile : string) ffxml minimizer :
  let log := (main fs infile outfile ffxml minimizer).1 in
  (length (writes log) ≤ length (entered log ≫= charged_confs))%nat ∧
  (∀ w, w ∈ writes log → (minimizer, w.1.2) ∈ sd_tags) ∧
  (minimizer ∉ sd_tags.*1 → writes log = []).
Proof.
  cbv zeta.
  assert ((length (writes (main fs infile outfile ffxml minimizer).1) ≤
           length (entered (main fs infile outfile ffxml minimizer).1 ≫=
                     charged_confs))%nat ∧
          ∀ w, w ∈ writes (main fs infile outfile ffxml minimizer).1 →
               (minimizer, w.1.2) ∈ sd_tags) as [Hlen Htag].
  { rewrite main_cases.
    destruct (negb (opens_for_reading fs infile));
      [split; [done|by intros w ?%elem_of_nil]|].
    destruct (path_exists fs outfile);
      [split; [done|by intros w ?%elem_of_nil]|].
    destruct (negb (opens_for_writing fs outfile));
      [split; [done|by intros w ?%elem_of_nil]|].
    destruct (mols_loop_adds minimizer ffxml (GetOEMols infile) [])
      as (ms & ws & He & Hw & Hlen & Htag & _).
    cbv zeta in He, Hw. simpl in He, Hw. by rewrite He, Hw. }
  split_and!; [exact Hlen|exact Htag|].
  intros Hname.
  destruct (writes (main fs infile outfile ffxml minimizer).1) as [|w ws] eqn:Hw;
    [done|].
  destruct Hname. apply list_elem_of_fmap.
  exists (minimizer, w.1.2). split; [done|]. apply Htag. by left.
Qed.

(** X17. MMFF94 and MMFF94S write every conformer. With one of these two
    minimizers a run writes exactly one record for each conformer of the
    molecules it has entered and charged, also when Szybki reports that the
    optimization failed; and once the loop has started the run can only end
    with an exception that the charge assignment raised. *)
Theorem mmff94_writes_every_conformer (fs : files) (infile outfile : string)
    ffxml (mmff94s : bool) :
  let out :=
    main fs infile outfile ffxml (if mmff94s then "mmff94s" else "mmff94") in
  length (writes out.1) = length (entered out.1 ≫= charged_confs) ∧
  ∀ e, out.2 = Raise e →
    out.1 = [] ∨
    ∃ mol, mol ∈ GetOEMols infile ∧
      (get_charges (perceive mol) = Raise e ∨
       (get_charges (perceive mol) = Raise RuntimeError ∧
        get_charges (stereo_from_3d (perceive mol)) = Raise e)).
Proof.
  cbv zeta. rewrite main_cases.
  destruct (negb (opens_for_reading fs infile)); [split; [done|by left]|].
  destruct (path_exists fs outfile); [split; [done|by left]|].
  destruct (negb (opens_for_writing fs outfile)); [split; [done|by left]|].
  destruct (mols_loop_mmff94 mmff94s ffxml (GetOEMols infile) [])
    as [Hcount Herr].
  cbv zeta in Hcount, Herr. simpl in Hcount. rewrite drop_0 in Hcount.
  split; [exact Hcount|]. intros e He. right. by apply Herr.
Qed.

(** X18. A molecule without charges is skipped. When the charge assignment
    raises [RuntimeError] for a molecule, and again after its
    stereochemistry has been set from its coordinates, the molecule leaves
    its [Enter] event and nothing else: the run is the run over the
    molecules before it, followed by the run over the molecules after
    it. *)
Theorem charge_failure_skips (fs : files) (infile outfile : string)
    ffxml minimizer (pre : list oemol) (mol : oemol) (post : list oemol) :
  opens_for_reading fs infile = true →
  path_exists fs outfile = false →
  opens_for_writing fs outfile = true →
  GetOEMols infile = pre ++ mol :: post →
  get_charges (perceive mol) = Raise RuntimeError →
  get_charges (stereo_from_3d (perceive mol)) = Raise RuntimeError →
  charged_confs mol = [] ∧
  main fs infile outfile ffxml minimizer =
    match for_each_logged (minimize_mol minimizer ffxml) pre [] with
    | (log, Ok _) =>
        for_each_logged (minimize_mol minimizer ffxml) post (log ++ [Enter mol])
    | (log, Raise e) => (log, Raise e)
    end.
Proof.
  intros Hread Hexists Hwrite Hmols Hchg1 Hchg2. split.
  - unfold charged_confs. cbv zeta. by rewrite Hchg1, Hchg2.
  - rewrite main_cases, Hread, Hexists, Hwrite, Hmols. simpl.
    rewrite for_each_logged_app.
    destruct (for_each_logged _ pre []) as [log [u|e]]; [|done].
    simpl. unfold minimize_mol at 1. cbv zeta. by rewrite Hchg1, Hchg2.
Qed.

(** X19. The third refusal, and what the three refusals guard. When the
    input can be read and the output does not exist but cannot be opened,
    [main] ends in [OEThrow.Fatal]. A run that has entered a molecule or
    that returns normally has passed the three tests. *)
Theorem main_guards (fs : files) (infile outfile : string) ffxml minimizer :
  (opens_for_reading fs infile = true → path_exists fs outfile = false →
   opens_for_writing fs outfile = false →
   main fs infile outfile ffxml minimizer = ([], Raise OEFatal)) ∧
  (∀ log r, main fs infile outfile ffxml minimizer = (log, r) →
     log ≠ [] ∨ r = Ok () →
     opens_for_reading fs infile = true ∧ path_exists fs outfile = false ∧
     opens_for_writing fs outfile = true).
Proof.
  rewrite main_cases. split.
  - by intros -> -> ->.
  - intros log r.
    destruct (opens_for_reading fs infile); simpl;
      [|intros [= <- <-] [?|?]; done].
    destruct (path_exists fs outfile); simpl;
      [intros [= <- <-] [?|?]; done|].
    destruct (opens_for_writing fs outfile); simpl;
      [done|intros [= <- <-] [?|?]; done].
Qed.
End minimize_runs.

Section minimize_failures.
Context `{Minimize.Engines}.
Import Minimize.
Implicit Types (log : list event) (ffxml : option string).

(** X20. Failures with a force field file. For the minimizer [ffxml], an
    exception of the construction of the OpenMM system that [except
    Exception] catches skips the conformer: nothing is written and the run
    goes on. The body raises exactly when that construction raises an
    exception that is not caught, or when the OpenMM minimization raises;
    nothing has been written for the conformer then. *)
Theorem ffxml_failures ffxml (chg_mol : charges) (conf : oeconf) log :
  let c := SetPartialCharges chg_mol (OE3DToInternalStereo conf) in
  (∀ e, create_openmm_system c ffxml = Raise e → is_Exception e = true →
     minimize_conf "ffxml" ffxml chg_mol conf log = (log, Ok ())) ∧
  (∀ log' e,
     minimize_conf "ffxml" ffxml chg_mol conf log = (log', Raise e) ↔
     log' = log ∧
     ((create_openmm_system c ffxml = Raise e ∧ is_Exception e = false) ∨
      ∃ system, create_openmm_system c ffxml = Ok system ∧
        run_openmm system c = Raise e)).
Proof.
  intros c.
  assert (minimize_conf "ffxml" ffxml chg_mol conf log =
          call_minimizer true (min_ffxml c ffxml) log) as ->.
  { unfold minimize_conf. fold c. cbn [for_each_logged].
    rewrite !call_minimizer_cases. simpl. by destruct (min_ffxml c ffxml). }
  rewrite call_minimizer_cases. unfold min_ffxml. split.
  - intros e -> ->. simpl. by rewrite app_nil_r.
  - intros log' e'.
    destruct (create_openmm_system c ffxml) as [system|e] eqn:Hsys.
    + destruct (run_openmm system c) as [[newpos en]|e2] eqn:Hrun; simpl.
      * split; [done|]. intros [_ [[? _]|(s & ? & ?)]]; congruence.
      * split.
        -- intros [= <- <-]. split; [done|]. right. by exists system.
        -- intros [-> [[? _]|(s & ? & ?)]]; congruence.
    + destruct (is_Exception e) eqn:Hexc; simpl.
      * split; [done|]. intros [_ [[? ?]|(s & ? & _)]]; congruence.
      * split.
        -- intros [= <- <-]. split; [done|]. by left.
        -- intros [-> [[? _]|(s & ? & _)]]; congruence.
Qed.

End minimize_failures.

(** *** Runs with the failing engines *)

(** With the force field file, the conformer 7 is skipped and the run ends
    at the conformer 9 of the third molecule: its conformer 30 is not
    reached. *)
Lemma run_enters_in_order_witness :
  let out :=
    Minimize.main (H := Sample.engines_faulty) Sample.directory "in.sdf"
      "new.sdf" (Some "openff.offxml") "ffxml" in
  out =
    ([ Minimize.Enter (H := Sample.engines_faulty) [10; 7]%nat;
       Minimize.Wrote (H := Sample.engines_faulty) (5%nat, "Energy FFXML", 10%nat);
       Minimize.Enter (H := Sample.engines_faulty) [0]%nat; Minimize.Enter (H := Sample.engines_faulty) [9; 30]%nat ],
     Raise ValueError) ∧
  (out.1 = [] ∨
   ∃ pre mol post,
     Minimize.GetOEMols (Engines := Sample.engines_faulty) "in.sdf" =
       pre ++ mol :: post ∧
     Minimize.entered out.1 = pre ++ [mol]).
Proof.
  split; [reflexivity|].
  exact (run_enters_in_order (H := Sample.engines_faulty) Sample.directory
           "in.sdf" "new.sdf" (Some "openff.offxml") "ffxml").
Defined.

Lemma run_records_witness :
  Minimize.writes
    (Minimize.main (H := Sample.engines_faulty) Sample.directory "in.sdf"
       "new.sdf" None "amber").1 = [] ∧
  Minimize.entered
    (Minimize.main (H := Sample.engines_faulty) Sample.directory "in.sdf"
       "new.sdf" None "amber").1 = [[10; 7]; [0]; [9; 30]]%nat.
Proof.
  split; [|reflexivity].
  apply (run_records (H := Sample.engines_faulty) Sample.directory "in.sdf"
           "new.sdf" None "amber").
  unfold Minimize.sd_tags. csimpl. intros Hin.
  repeat (apply elem_of_cons in Hin as [Heq|Hin]; [discriminate Heq|]).
  by apply elem_of_nil in Hin.
Defined.

(** With MMFF94 the conformer 7, for which Szybki reports a failure, is
    written like the others. *)
Lemma mmff94_writes_every_conformer_witness :
  Minimize.szybki (Engines := Sample.engines_faulty) false 7%nat =
    (false, 3%nat, 7%nat) ∧
  length (Minimize.writes
            (Minimize.main (H := Sample.engines_faulty) Sample.directory
               "in.sdf" "new.sdf" None "mmff94").1) = 4%nat.
Proof.
  split; [reflexivity|].
  rewrite (proj1 (mmff94_writes_every_conformer (H := Sample.engines_faulty)
                    Sample.directory "in.sdf" "new.sdf" None false)).
  reflexivity.
Defined.

(** The second molecule has no charges: it is entered and skipped. *)
Lemma charge_failure_skips_witness :
  Minimize.main (H := Sample.engines_faulty) Sample.directory "in.sdf"
    "new.sdf" None "mmff94" =
    ([ Minimize.Enter (H := Sample.engines_faulty) [10; 7]%nat;
       Minimize.Wrote (H := Sample.engines_faulty) (5%nat, "Energy MMFF94", 10%nat);
       Minimize.Wrote (H := Sample.engines_faulty) (3%nat, "Energy MMFF94", 7%nat);
       Minimize.Enter (H := Sample.engines_faulty) [0]%nat;
       Minimize.Enter (H := Sample.engines_faulty) [9; 30]%nat;
       Minimize.Wrote (H := Sample.engines_faulty) (4%nat, "Energy MMFF94", 9%nat);
       Minimize.Wrote (H := Sample.engines_faulty) (15%nat, "Energy MMFF94", 30%nat) ],
     Ok ()).
Proof.
  rewrite (proj2 (charge_failure_skips (H := Sample.engines_faulty)
                    Sample.directory "in.sdf" "new.sdf" None "mmff94"
                    [[10; 7]%nat] [0%nat] [[9; 30]%nat]
                    eq_refl eq_refl eq_refl eq_refl eq_refl eq_refl)).
  reflexivity.
Defined.

(** A directory in which nothing can be written. *)
Lemma main_guards_witness :
  Minimize.main
    {| Minimize.opens_for_reading := λ _, true;
       Minimize.path_exists := λ _, false;
       Minimize.opens_for_writing := λ _, false |}
    "in.sdf" "new.sdf" None "mmff94" = ([], Raise OEFatal).
Proof.
  exact (proj1 (main_guards
                  {| Minimize.opens_for_reading := λ _, true;
                     Minimize.path_exists := λ _, false;
                     Minimize.opens_for_writing := λ _, false |}
                  "in.sdf" "new.sdf" None "mmff94") eq_refl eq_refl eq_refl).
Defined.

(** The conformer 7 is skipped, the conformer 9 ends the run. *)
Lemma ffxml_failures_witness :
  Minimize.minimize_conf (H := Sample.engines_faulty) "ffxml" None () 7%nat [] =
    ([], Ok ()) ∧
  Minimize.minimize_conf (H := Sample.engines_faulty) "ffxml" None () 9%nat [] =
    ([], Raise ValueError).
Proof.
  split.
  - exact (proj1 (ffxml_failures (H := Sample.engines_faulty) None () 7%nat [])
             Exception eq_refl eq_refl).
  - apply (proj2 (ffxml_failures (H := Sample.engines_faulty) None () 9%nat [])).
    split; [done|]. right. by exists ().
Defined.


(** *** The read loop and the command line on bad input *)

(** The second conformer has the metric [n/a]. *)
Lemma read_loop_raises_witness :
  Tailed.read_loop 1%float "RMSD" "SMILES" Sample.scenario_bad =
    Raise ValueError.
Proof.
  apply read_loop_raises.
  exists [Sample.scenario_conf "A" "2.0" 1], (Sample.scenario_conf "B" "n/a" 2),
    [Sample.scenario_conf "C" "0.5" 3].
  split_and!; [reflexivity| |reflexivity].
  repeat constructor. eexists. vm_compute. reflexivity.
Defined.


(** ** [tailed_parameters]: the read loop and the two parameterizations
    together *)

Section tailed_parameters_properties.
Context `{Python} `{OEChem} `{!OpenFF oegraphmol}.
Import Tailed.

(** A read loop that ends normally has parsed every metric. *)
Lemma read_confs_ok_inv cutoff tag tag_smiles (confs : list oeconf) st st' :
  for_each (read_conf cutoff tag tag_smiles) confs st = Ok st' →
  Forall (λ c, ∃ v, py_float (OEGetSDData c tag) = Ok v) confs.
Proof.
  revert st. induction confs as [|c confs IH]; intros st; simpl; [done|].
  destruct (py_float (OEGetSDData c tag)) as [v|e] eqn:Hv.
  - rewrite (read_conf_ok _ _ _ _ _ v Hv). simpl. intros Hrest.
    constructor; [by exists v|by eapply IH].
  - unfold read_conf. by rewrite Hv.
Qed.

(** The reverse lookup has at most one entry per key of the dictionary. *)
Lemma get_parameters_smi_dict mols_dict ffxml by_mol by_ID smi_dict :
  get_parameters mols_dict ffxml = Ok (by_mol, by_ID, smi_dict) →
  (length smi_dict ≤ length mols_dict)%nat.
Proof.
  unfold get_parameters.
  destruct (ForceField ffxml) as [ff|]; [|done]. simpl.
  destruct (convert_mols mols_dict) as [off_mols|]; [|done]. simpl.
  destruct (remove_duplicates _ off_mols) as [kept|]; [|done]. simpl.
  destruct (get_molecule_parameterIDs kept ff) as [[pm pid]|]; [|done]. simpl.
  intros [= _ _ <-]. unfold py_dict.
  etrans; [apply od_extend_length|]. simpl.
  rewrite length_zip_with. unfold od_keys. rewrite !length_fmap. lia.
Qed.

End tailed_parameters_properties.


(** ** The temporary files of [min_gaffx] *)

Section gaff_files_properties.
Import Minimize.

Lemma int_from_bytes_bounds (s : string) :
  0 ≤ int_from_bytes_little s < 256 ^ Z.of_nat (String.length s).
Proof.
  induction s as [|c s IH]; [done|].
  cbn [int_from_bytes_little String.length].
  rewrite Nat2Z.inj_succ, Z.pow_succ_r by lia.
  pose proof (N_ascii_bounded c). lia.
Qed.

Lemma N_of_ascii_inj (c1 c2 : ascii) : N_of_ascii c1 = N_of_ascii c2 → c1 = c2.
Proof.
  intros Heq. rewrite <-(ascii_N_embedding c1), <-(ascii_N_embedding c2).
  by rewrite Heq.
Qed.

(** Two strings without a NUL byte that give one number are equal. *)
Lemma int_from_bytes_inj (s1 s2 : string) :
  Forall (λ c, c ≠ Ascii.zero) (String.list_ascii_of_string s1) →
  Forall (λ c, c ≠ Ascii.zero) (String.list_ascii_of_string s2) →
  int_from_bytes_little s1 = int_from_bytes_little s2 → s1 = s2.
Proof.
  revert s2. induction s1 as [|c1 s1 IH]; intros [|c2 s2]; simpl; [done| | |].
  - intros _ [Hc _]%Forall_cons Heq. destruct Hc. apply N_of_ascii_inj.
    pose proof (int_from_bytes_bounds s2). simpl. lia.
  - intros [Hc _]%Forall_cons _ Heq. destruct Hc. apply N_of_ascii_inj.
    pose proof (int_from_bytes_bounds s1). simpl. lia.
  - intros [_ H1]%Forall_cons [_ H2]%Forall_cons Heq.
    pose proof (N_ascii_bounded c1). pose proof (N_ascii_bounded c2).
    assert (N_of_ascii c1 = N_of_ascii c2) as Hc by lia.
    rewrite (N_of_ascii_inj _ _ Hc). f_equal. apply IH; [done|done|lia].
Qed.

Lemma digit_char (n : Z) :
  0 ≤ n →
  Z.of_N (N_of_ascii (ascii_of_N (Z.to_N (48 + n mod 10)))) = 48 + n mod 10.
Proof.
  intros Hn. pose proof (Z.mod_pos_bound n 10 eq_refl).
  rewrite N_ascii_embedding by lia. lia.
Qed.

(** Reading the digits written for [n] gives [n] back. *)
Lemma digits_before_value (fuel : nat) (n : Z) (acc : string) :
  0 ≤ n < 10 ^ Z.of_nat fuel →
  foldl (λ a c, 10 * a + (Z.of_N (N_of_ascii c) - 48)) 0
    (String.list_ascii_of_string (digits_before fuel n acc)) =
  foldl (λ a c, 10 * a + (Z.of_N (N_of_ascii c) - 48)) n
    (String.list_ascii_of_string acc).
Proof.
  revert n acc. induction fuel as [|fuel IH]; intros n acc Hn.
  - simpl in *. by replace n with 0 by lia.
  - rewrite Nat2Z.inj_succ, Z.pow_succ_r in Hn by lia.
    cbn [digits_before]. pose proof (Z.mod_pos_bound n 10 eq_refl).
    pose proof (Z.div_mod n 10 ltac:(lia)).
    destruct (n <? 10) eqn:Hlt.
    + apply Z.ltb_lt in Hlt. cbn [String.list_ascii_of_string foldl].
      rewrite digit_char by lia. f_equal.
      rewrite Z.mod_small by lia. lia.
    + apply Z.ltb_ge in Hlt. rewrite IH.
      * cbn [String.list_ascii_of_string foldl].
        rewrite digit_char by lia. f_equal. lia.
      * split; [apply Z.div_pos; lia|].
        apply Z.div_lt_upper_bound; lia.
Qed.

Lemma py_str_fuel (n : Z) :
  0 ≤ n → n < 10 ^ Z.of_nat (S (Z.to_nat (Z.log2 n))).
Proof.
  intros Hn. pose proof (Z.log2_nonneg n).
  rewrite Nat2Z.inj_succ, Z2Nat.id by done.
  destruct (decide (n = 0)) as [->|Hne]; [done|].
  pose proof (Z.log2_spec n ltac:(lia)) as [_ Hlt].
  eapply Z.lt_le_trans; [exact Hlt|].
  apply Z.pow_le_mono_l. lia.
Qed.

Lemma py_str_value (n : Z) : 0 ≤ n → int_of_digits (py_str n) = n.
Proof.
  intros Hn. unfold int_of_digits, py_str.
  rewrite digits_before_value; [done|]. split; [done|by apply py_str_fuel].
Qed.

(** A number below [10^k] has at most [k] digits. *)
Lemma digits_before_length (fuel : nat) (n : Z) (acc : string) (k : nat) :
  0 ≤ n < 10 ^ Z.of_nat k → (1 ≤ k)%nat →
  (String.length (digits_before fuel n acc) ≤ k + String.length acc)%nat.
Proof.
  revert n acc k. induction fuel as [|fuel IH]; intros n acc k Hn Hk; simpl;
    [lia|].
  destruct (n <? 10) eqn:Hlt; simpl; [lia|].
  apply Z.ltb_ge in Hlt. destruct k as [|k]; [lia|].
  rewrite Nat2Z.inj_succ, Z.pow_succ_r in Hn by lia.
  assert (1 ≤ k)%nat as Hk'.
  { destruct k; [|lia]. simpl in Hn. lia. }
  etrans; [apply (IH _ _ k)|simpl; lia]; [|done].
  split; [apply Z.div_pos; lia|]. apply Z.div_lt_upper_bound; lia.
Qed.

Lemma substring_short (k : nat) (s : string) :
  (String.length s ≤ k)%nat → String.substring 0 k s = s.
Proof.
  revert k. induction s as [|c s IH]; intros [|k]; simpl; try done; [lia|].
  intros Hlen. f_equal. apply IH. lia.
Qed.

Lemma substring_length (k : nat) (s : string) :
  (String.length (String.substring 0 k s) ≤ k)%nat.
Proof.
  revert k. induction s as [|c s IH]; intros [|k]; simpl; try lia.
  specialize (IH k). lia.
Qed.

Lemma substring_digits (k : nat) (s : string) :
  all_digits s = true → all_digits (String.substring 0 k s) = true.
Proof.
  unfold all_digits. revert k. induction s as [|c s IH]; intros [|k]; simpl;
    try done.
  intros [-> Hs]%andb_prop. simpl. by apply IH.
Qed.

Lemma digits_before_digits (fuel : nat) (n : Z) (acc : string) :
  0 ≤ n → all_digits acc = true → all_digits (digits_before fuel n acc) = true.
Proof.
  revert n acc. induction fuel as [|fuel IH]; intros n acc Hn Hacc; simpl;
    [done|].
  pose proof (Z.mod_pos_bound n 10 eq_refl).
  assert (all_digits (String (ascii_of_N (Z.to_N (48 + n mod 10))) acc) = true)
    as Hacc'.
  { unfold all_digits in *. cbn [String.list_ascii_of_string forallb].
    rewrite Hacc, andb_true_r. unfold is_digit.
    rewrite N_ascii_embedding by lia.
    apply andb_true_intro. split; apply N.leb_le; lia. }
  destruct (n <? 10); [done|]. apply IH; [apply Z.div_pos; lia|done].
Qed.

(** The value of a string of digits is below the power of ten of its
    length. *)
Lemma digits_value_bound (s : string) (a : Z) :
  all_digits s = true → 0 ≤ a →
  0 ≤ foldl (λ a c, 10 * a + (Z.of_N (N_of_ascii c) - 48)) a
        (String.list_ascii_of_string s)
    < (a + 1) * 10 ^ Z.of_nat (String.length s).
Proof.
  unfold all_digits. revert a. induction s as [|c s IH]; intros a Hs Ha.
  - simpl. lia.
  - cbn [String.list_ascii_of_string forallb] in Hs.
    apply andb_prop in Hs as [Hc Hs]. unfold is_digit in Hc.
    apply andb_prop in Hc as [Hlo%N.leb_le Hhi%N.leb_le].
    cbn [String.list_ascii_of_string foldl String.length].
    rewrite Nat2Z.inj_succ, Z.pow_succ_r by lia.
    specialize (IH (10 * a + (Z.of_N (N_of_ascii c) - 48)) Hs ltac:(lia)).
    pose proof (Z.pow_pos_nonneg 10 (Z.of_nat (String.length s))
                  ltac:(lia) ltac:(lia)).
    nia.
Qed.

(** X23. The names of the temporary files of [min_gaffx]. The number in
    the names has at most 200 digits. For a SMILES label of at most 83
    bytes nothing is cut off: the number is the label read as a
    little-endian integer, and two such labels without a NUL byte that get
    the same number are equal, so their files have different names. Longer
    labels can collide: two labels of 100 characters that differ in their
    first character get the same five file names. *)
Theorem gaff_file_names :
  (∀ smilabel,
     0 ≤ short_int smilabel < 10 ^ 200 ∧
     (String.length (py_str (short_int smilabel)) ≤ 200)%nat) ∧
  (∀ smilabel, (String.length smilabel ≤ 83)%nat →
     short_int smilabel = int_from_bytes_little smilabel) ∧
  (∀ l1 l2,
     (String.length l1 ≤ 83)%nat → (String.length l2 ≤ 83)%nat →
     Forall (λ c, c ≠ Ascii.zero) (String.list_ascii_of_string l1) →
     Forall (λ c, c ≠ Ascii.zero) (String.list_ascii_of_string l2) →
     short_int l1 = short_int l2 → l1 = l2) ∧
  (∃ l1 l2, l1 ≠ l2 ∧ String.length l1 = 100%nat ∧ String.length l2 = 100%nat ∧
     short_int l1 = short_int l2 ∧ gaff_files l1 = gaff_files l2).
Proof.
  assert (∀ smilabel, (String.length smilabel ≤ 83)%nat →
            short_int smilabel = int_from_bytes_little smilabel) as Hshort.
  { intros smilabel Hlen. unfold short_int.
    pose proof (int_from_bytes_bounds smilabel) as [Hlo Hhi].
    assert (int_from_bytes_little smilabel < 10 ^ Z.of_nat 200) as Hsmall.
    { eapply Z.lt_le_trans; [exact Hhi|].
      etrans; [apply (Z.pow_le_mono_r 256 _ 83); lia|]. by vm_compute. }
    rewrite substring_short; [by apply py_str_value|].
    unfold py_str.
    etrans; [apply (digits_before_length _ _ _ 200); [done|lia]|]. simpl. lia. }
  assert (∀ smilabel, 0 ≤ short_int smilabel < 10 ^ 200) as Hbound.
  { intros smilabel. unfold short_int, int_of_digits.
    pose proof (int_from_bytes_bounds smilabel) as [Hlo _].
    set (s := String.substring 0 200 (py_str (int_from_bytes_little smilabel))).
    assert (all_digits s = true) as Hdigits.
    { apply substring_digits. unfold py_str. by apply digits_before_digits. }
    pose proof (digits_value_bound s 0 Hdigits ltac:(lia)) as [Hge Hlt].
    split; [done|]. eapply Z.lt_le_trans; [exact Hlt|].
    rewrite Z.mul_1_l. apply Z.pow_le_mono_r; [lia|].
    pose proof (substring_length 200 (py_str (int_from_bytes_little smilabel))).
    fold s in H. lia. }
  split_and!.
  - intros smilabel. split; [apply Hbound|].
    destruct (Hbound smilabel) as [Hlo Hhi]. unfold py_str.
    etrans; [apply (digits_before_length _ _ _ 200); [done|lia]|]. simpl. lia.
  - exact Hshort.
  - intros l1 l2 Hlen1 Hlen2 Hnul1 Hnul2. rewrite !Hshort by done.
    by apply int_from_bytes_inj.
  - exists (Sample.long_smiles "C"), (Sample.long_smiles "N").
    split_and!; [done|reflexivity|reflexivity| |]; by vm_compute.
Qed.
End gaff_files_properties.

(** The label CCO is short: its number is the label read as an integer. *)
Lemma gaff_file_names_witness :
  (String.length "CCO" ≤ 83)%nat ∧
  Minimize.short_int "CCO" = 5194563 ∧
  Minimize.gaff_files "CCO" =
    [ "5194563_t.mol2"; "5194563_g.mol2"; "5194563.frcmod"; "5194563.prmtop";
      "5194563.inpcrd" ].
Proof.
  assert (String.length "CCO" ≤ 83)%nat as Hlen by (simpl; lia).
  split_and!; [exact Hlen| |reflexivity].
  rewrite (proj1 (proj2 gaff_file_names) "CCO" Hlen). reflexivity.
Defined.

(** ** The ways [main] can end *)

Section main_outcomes.
Context `{Python} `{OEChem} `{!OpenFF oegraphmol}.
Import Tailed.

(** The ids left after the two filters are distinct and have one ratio
    each. *)
Lemma analyse_remaining (data_all data_out : data) (rep : report) :
  analyse data_all data_out = Ok rep →
  NoDup (full_params (without_zeros (filtered rep))) ∧
  length (fraction_ratio (filtered rep)) =
    length (full_params (without_zeros (filtered rep))).
Proof.
  destruct (analyse_report data_all data_out) as (params & Hperm & Hrep).
  cbv zeta in Hrep. rewrite Hrep. intros [= <-]. simpl. split.
  - eapply sublist_NoDup; [|apply select_sublist].
    eapply sublist_NoDup; [|apply select_sublist].
    rewrite Hperm. apply NoDup_elements.
  - match goal with
    | |- length (zip_with _ (select ?m2 (select ?m1 ?fo))
                   (select ?m2 (select ?m1 ?fa))) =
         length (select ?m2 (select ?m1 ?ps)) =>
        assert (length fo = length ps) as Hfo
          by (unfold np_true_divide; by rewrite !length_fmap);
        assert (length fa = length ps) as Hfa
          by (unfold np_true_divide; by rewrite !length_fmap);
        pose proof (select_length m2 _ _ (select_length m1 _ _ Hfo)) as Hso;
        pose proof (select_length m2 _ _ (select_length m1 _ _ Hfa)) as Hsa
    end.
    rewrite length_zip_with, Hso, Hsa. lia.
Qed.

Lemma plots_length (fp : list string) (ratio : list float) (max_ratio : float) :
  NoDup fp → length ratio = length fp →
  ∃ ps, plots fp ratio max_ratio = Ok ps ∧ length ps = 5%nat.
Proof.
  intros Hnd Hlen. unfold plots, param_types. simpl.
  rewrite !plot_subset_select by done. simpl. by eexists.
Qed.

End main_outcomes.

